(** * V-carve medial-axis tool paths: a shallow embedding

    The development follows the two Python modules of the Path workbench
    that implement the V-carve operation:

    - [PathScripts/PathWidthToDepth.py]: the width-to-depth calculators
      (conical, spherical, unsupported) and their factory;
    - [PathScripts/PathVcarve.py]: the wire assembler
      ([_collectVoronoiWires]), the wire sequencer ([_sortVoronoiWires]),
      the depth resolution of path edges ([_calculate_depth],
      [_getPartEdge]), the simplification of a wire's edges
      ([simplify_edges]) and the operation itself ([buildPathMedial],
      [opExecute]).

    Python floats are idealised as real numbers ([R]); Python exceptions
    are values of the type [exn] carried by [result].  The embedding comes
    first, then the vocabulary of the statements, then the proofs and a
    set of examples. *)

From Stdlib Require Import Reals Lra Lia List Bool Arith ZArith String Permutation.
Import ListNotations.

Set Implicit Arguments.

(** ** Exceptions and results *)

Inductive exn : Type :=
| NameError (name : string)
| ZeroDivisionError
| ValueError
| IndexError
| KeyError
| TypeError
| ExternalError (what : string)
| OutOfFuel.

Inductive result (A : Type) : Type :=
| Ok (a : A)
| Raise (e : exn).

Arguments Ok {A} a.
Arguments Raise {A} e.

Definition bind {A B : Type} (m : result A) (k : A -> result B) : result B :=
  match m with
  | Ok a => k a
  | Raise e => Raise e
  end.

Declare Scope result_scope.
Delimit Scope result_scope with result.
Notation "x <- m ;; k" := (bind m (fun x => k))
  (at level 61, m at next level, right associativity) : result_scope.
Notation "' pat <- m ;; k" := (bind m (fun x => match x with pat => k end))
  (at level 61, pat pattern, m at next level, right associativity) : result_scope.

(** ** The module [math] *)

Module math.

Definition radians (x : R) : R := (x * PI / 180)%R.

Definition tan (x : R) : R := Rtrigo1.tan x.

(** [math.sqrt] raises [ValueError] on a negative argument. *)
Definition sqrt (x : R) : result R :=
  if Rlt_dec x 0 then Raise ValueError else Ok (R_sqrt.sqrt x).

End math.

(** The builtin [max] on two numbers: the first one unless the second is
    strictly greater. *)
Definition max (a b : R) : R := if Rlt_dec a b then b else a.

(** True division [a / b]. *)
Definition truediv (a b : R) : result R :=
  if Req_dec_T b 0 then Raise ZeroDivisionError else Ok (a / b)%R.

(** The builtin [round(x, ndigits)]: the nearest multiple of
    [10 ^ -ndigits], a tie going to the even one. *)
Definition round_half_even (y : R) : Z :=
  let n := Int_part y in
  let f := frac_part y in
  if Rlt_dec f (1 / 2) then n
  else if Rlt_dec (1 / 2) f then (n + 1)%Z
  else if Z.even n then n else (n + 1)%Z.

Definition round (x : R) (ndigits : nat) : R :=
  (IZR (round_half_even (x * 10 ^ ndigits)) / 10 ^ ndigits)%R.

(** [str.endswith] *)
Definition endswith (s suffix : string) : bool :=
  (String.length suffix <=? String.length s)
  && String.eqb
       (substring (String.length s - String.length suffix)
                  (String.length suffix) s)
       suffix.

(** ** PathWidthToDepth.py *)

(** The interface of the calculators (the base class
    [WidthToDepthCalculator] of the module). *)
Class WidthToDepthCalculatorBase (T : Type) : Type := {
  WidthToDepth : T -> R -> result R;
  IsLinear : T -> bool;
  SupportsVcarve : T -> bool;
  SetLimits : T -> R -> R -> T
}.

Module ConicalWidthToDepthCalculator.

Record t : Type := mk {
  rMax : R;
  rMin : R;
  scale : R;
  zOff : R;
  start : R;
  stop : R
}.

Definition SetLimits (self : t) (zStart zFinal : R) : t :=
  let start' := (zStart + zOff self)%R in
  let zStop := (zStart - rMax self * scale self)%R in
  mk (rMax self) (rMin self) (scale self) (zOff self)
     start' (max (zStop + zOff self) zFinal).

Definition __init__ (Diameter TipDiameter CuttingEdgeAngle : R) : result t :=
  let rMax := (Diameter / 2)%R in
  let rMin := (TipDiameter / 2)%R in
  let toolangle := math.tan (math.radians (CuttingEdgeAngle / 2)) in
  (scale <- truediv 1 toolangle ;;
   let zOff := (rMin * scale)%R in
   Ok (SetLimits (mk rMax rMin scale zOff 0 0) 0 0))%result.

Definition WidthToDepth (self : t) (width : R) : R :=
  let depth := (width * scale self)%R in
  max (start self - depth) (stop self).

Definition IsLinear (self : t) : bool := true.

Definition SupportsVcarve (self : t) : bool := true.

End ConicalWidthToDepthCalculator.

Module SphericalWidthToDepthCalculator.

Record t : Type := mk {
  rMax : R;
  r_squared : R;
  start : R;
  stop : R
}.

Definition SetLimits (self : t) (zStart zFinal : R) : t :=
  let zStop := (zStart - rMax self)%R in
  mk (rMax self) (r_squared self) zStart (max zStop zFinal).

Definition __init__ (Diameter : R) : t :=
  let rMax := (Diameter / 2)%R in
  SetLimits (mk rMax (rMax ^ 2) 0 0) 0 0.

Definition WidthToDepth (self : t) (width : R) : result R :=
  (depth <- (if Rlt_dec width (rMax self)
             then (s <- math.sqrt (r_squared self - width ^ 2) ;;
                   Ok (rMax self - s)%R)
             else Ok (rMax self)) ;;
   Ok (max (start self - depth) (stop self)))%result.

Definition IsLinear (self : t) : bool := false.

Definition SupportsVcarve (self : t) : bool := true.

End SphericalWidthToDepthCalculator.

Module UnsupportedBitToDepthCalculator.

Record t : Type := mk { }.

Definition WidthToDepth (self : t) (width : R) : R := 0%R.

Definition SetLimits (self : t) (zStart zFinal : R) : t := self.

Definition IsLinear (self : t) : bool := true.

Definition SupportsVcarve (self : t) : bool := false.

End UnsupportedBitToDepthCalculator.

#[export] Instance Conical_calculator :
  WidthToDepthCalculatorBase ConicalWidthToDepthCalculator.t := {|
  WidthToDepth := fun c w => Ok (ConicalWidthToDepthCalculator.WidthToDepth c w);
  IsLinear := ConicalWidthToDepthCalculator.IsLinear;
  SupportsVcarve := ConicalWidthToDepthCalculator.SupportsVcarve;
  SetLimits := ConicalWidthToDepthCalculator.SetLimits
|}.

#[export] Instance Spherical_calculator :
  WidthToDepthCalculatorBase SphericalWidthToDepthCalculator.t := {|
  WidthToDepth := SphericalWidthToDepthCalculator.WidthToDepth;
  IsLinear := SphericalWidthToDepthCalculator.IsLinear;
  SupportsVcarve := SphericalWidthToDepthCalculator.SupportsVcarve;
  SetLimits := SphericalWidthToDepthCalculator.SetLimits
|}.

#[export] Instance Unsupported_calculator :
  WidthToDepthCalculatorBase UnsupportedBitToDepthCalculator.t := {|
  WidthToDepth := fun c w => Ok (UnsupportedBitToDepthCalculator.WidthToDepth c w);
  IsLinear := UnsupportedBitToDepthCalculator.IsLinear;
  SupportsVcarve := UnsupportedBitToDepthCalculator.SupportsVcarve;
  SetLimits := UnsupportedBitToDepthCalculator.SetLimits
|}.

(** A calculator object is an instance of one of the three classes. *)
Inductive Calculator : Type :=
| Conical (c : ConicalWidthToDepthCalculator.t)
| Spherical (c : SphericalWidthToDepthCalculator.t)
| Unsupported (c : UnsupportedBitToDepthCalculator.t).

#[export] Instance Calculator_calculator : WidthToDepthCalculatorBase Calculator := {|
  WidthToDepth := fun c w =>
    match c with
    | Conical c => WidthToDepth c w
    | Spherical c => WidthToDepth c w
    | Unsupported c => WidthToDepth c w
    end;
  IsLinear := fun c =>
    match c with
    | Conical c => IsLinear c
    | Spherical c => IsLinear c
    | Unsupported c => IsLinear c
    end;
  SupportsVcarve := fun c =>
    match c with
    | Conical c => SupportsVcarve c
    | Spherical c => SupportsVcarve c
    | Unsupported c => SupportsVcarve c
    end;
  SetLimits := fun c zStart zFinal =>
    match c with
    | Conical c => Conical (SetLimits c zStart zFinal)
    | Spherical c => Spherical (SetLimits c zStart zFinal)
    | Unsupported c => Unsupported (SetLimits c zStart zFinal)
    end
|}.

(** The tool description consumed by the factory. *)
Record Tool : Type := mkTool {
  Diameter : R;
  TipDiameter : R;
  CuttingEdgeAngle : R;
  BitShape : string
}.

(** The console of the application: the messages printed so far. *)
Definition Console : Type := list string.

Definition PrintError (msg : string) (console : Console) : Console :=
  console ++ [msg].

(** Resolution of a global name of a module: the names the module binds
    at its top level (imports, classes, functions); any other name that
    is no builtin raises [NameError]. *)
Definition load_global (globals : list string) (name : string) : result unit :=
  if existsb (String.eqb name) globals then Ok tt else Raise (NameError name).

Module PathWidthToDepth.

(** The names bound at the top level of PathWidthToDepth.py: two imports,
    four classes and the factory, which rebinds the name of the base
    class. *)
Definition globals : list string :=
  [ "FreeCAD"; "math"; "WidthToDepthCalculator";
    "ConicalWidthToDepthCalculator"; "SphericalWidthToDepthCalculator";
    "UnsupportedBitToDepthCalculator" ]%string.

Definition angle_message : string :=
  "Engraver Cutting Edge Angle must be < 180 degrees.
"%string.

(** The factory [WidthToDepthCalculator(tool, bitShape, zStart, zFinal)].
    The arguments of [PrintError] are evaluated before the call, so the
    name [translate] is resolved first. *)
Definition WidthToDepthCalculator (tool : Tool) (bitShape : string)
  (zStart zFinal : R) (console : Console) : result Calculator * Console :=
  let '(calculator, console) :=
    if endswith bitShape "v-bit.fcstd" then
      if Rge_dec (CuttingEdgeAngle tool) 180 then
        match load_global globals "translate" with
        | Raise e => (Raise e, console)
        | Ok _ =>
            (Ok (Unsupported UnsupportedBitToDepthCalculator.mk),
             PrintError angle_message console)
        end
      else
        (c <- ConicalWidthToDepthCalculator.__init__
                (Diameter tool) (TipDiameter tool) (CuttingEdgeAngle tool) ;;
         Ok (Conical c), console)%result
    else if endswith bitShape "ballend.fcstd" then
      (Ok (Spherical (SphericalWidthToDepthCalculator.__init__ (Diameter tool))),
       console)
    else
      (Ok (Unsupported UnsupportedBitToDepthCalculator.mk), console) in
  (calculator <- calculator ;; Ok (SetLimits calculator zStart zFinal),
   console)%result.

End PathWidthToDepth.

(** ** Python containers *)

(** [list[i]] and [list.insert(i, x)] with Python's negative indices. *)
Definition list_getitem {A : Type} (l : list A) (i : Z) : result A :=
  let n := Z.of_nat (List.length l) in
  let j := if (i <? 0)%Z then (i + n)%Z else i in
  if ((j <? 0) || (n <=? j))%Z%bool then Raise IndexError
  else match nth_error l (Z.to_nat j) with
       | Some a => Ok a
       | None => Raise IndexError
       end.

Definition list_insert {A : Type} (l : list A) (i : Z) (a : A) : list A :=
  let n := Z.of_nat (List.length l) in
  let j := if (i <? 0)%Z then Z.max 0 (i + n) else Z.min i n in
  firstn (Z.to_nat j) l ++ a :: skipn (Z.to_nat j) l.

(** A [dict] with integer keys, in insertion order. *)
Module dict.
Section Dict.
Variable V : Type.

Definition t : Type := list (nat * V).

Fixpoint get (d : t) (k : nat) : option V :=
  match d with
  | [] => None
  | (k', v) :: d' => if k' =? k then Some v else get d' k
  end.

Definition get_default (d : t) (k : nat) (default : V) : V :=
  match get d k with
  | Some v => v
  | None => default
  end.

Definition getitem (d : t) (k : nat) : result V :=
  match get d k with
  | Some v => Ok v
  | None => Raise KeyError
  end.

Fixpoint setitem (d : t) (k : nat) (v : V) : t :=
  match d with
  | [] => [(k, v)]
  | (k', v') :: d' =>
      if k' =? k then (k', v) :: d' else (k', v') :: setitem d' k v
  end.

Fixpoint remove (d : t) (k : nat) : t :=
  match d with
  | [] => []
  | (k', v') :: d' => if k' =? k then d' else (k', v') :: remove d' k
  end.

Definition delitem (d : t) (k : nat) : result t :=
  match get d k with
  | Some _ => Ok (remove d k)
  | None => Raise KeyError
  end.

Definition keys (d : t) : list nat := map fst d.

End Dict.
End dict.

(** ** FreeCAD.Vector *)

Module FreeCAD.

Record Vector : Type := mkVector { x : R; y : R; z : R }.

Definition sub (a b : Vector) : Vector :=
  mkVector (x a - x b) (y a - y b) (z a - z b).

Definition add (a b : Vector) : Vector :=
  mkVector (x a + x b) (y a + y b) (z a + z b).

Definition scale (a : Vector) (fx fy fz : R) : Vector :=
  mkVector (x a * fx) (y a * fy) (z a * fz).

Definition distanceToPoint (a b : Vector) : R :=
  R_sqrt.sqrt ((x a - x b) * (x a - x b) + (y a - y b) * (y a - y b)
               + (z a - z b) * (z a - z b)).

End FreeCAD.

(** ** The Voronoi diagram consumed by the operation *)

Module Voronoi.

Record Vertex : Type := mkVertex {
  vIndex : nat;
  X : R;
  Y : R
}.

Definition toPoint (v : Vertex) : FreeCAD.Vector := FreeCAD.mkVector (X v) (Y v) 0.

(** A directed half-edge.  Its twin is the half-edge between the same
    two vertices in the opposite direction; the record holds the index
    and the colour of the twin, and the two are each other's twin. *)
Record Edge : Type := mkEdge {
  Index : nat;
  Vertices : Vertex * Vertex;
  Color : nat;
  twinIndex : nat;
  twinColor : nat
}.

Definition Twin (e : Edge) : Edge :=
  mkEdge (twinIndex e) (snd (Vertices e), fst (Vertices e)) (twinColor e)
         (Index e) (Color e).

Record Diagram : Type := mkDiagram { Edges : list Edge }.

End Voronoi.

Import Voronoi.

Definition Wire : Type := list Edge.

(** ** PathVcarve.py *)

Definition PRIMARY : nat := 0.
Definition SECONDARY : nat := 1.
Definition EXTERIOR1 : nat := 2.
Definition EXTERIOR2 : nat := 3.
Definition COLINEAR : nat := 4.
Definition TWIN : nat := 5.

Definition _sorting : string := "global"%string.

(** Qt's [translate]: without a loaded translation it is the text. *)
Definition translate (context text : string) : string := text.

Module CollectVoronoiWires.

Definition adjacency : Type := dict.t (list Edge).

(** The body of [for v in e.Vertices]. *)
Definition add_vertex (e : Edge) (vertex : adjacency) (v : Vertex) : adjacency :=
  let i := vIndex v in
  let j := dict.get_default vertex i [] in
  dict.setitem vertex i (j ++ [e]).

Definition add_edge (vertex : adjacency) (e : Edge) : adjacency :=
  fold_left (add_vertex e) [fst (Vertices e); snd (Vertices e)] vertex.

Definition primary_edges (vd : Diagram) : list Edge :=
  filter (fun e => Color e =? PRIMARY) (Edges vd).

Definition build_vertex (edges : list Edge) : adjacency :=
  fold_left add_edge edges [].

(** knots are the start and end points of a wire *)
Definition initial_knots (vertex : adjacency) : list nat :=
  let knots :=
    map fst (filter (fun iv => List.length (snd iv) =? 1) vertex)
    ++ map fst (filter (fun iv => 2 <? List.length (snd iv)) vertex) in
  if List.length knots =? 0 then
    match filter (fun iv => 0 <? List.length (snd iv)) vertex with
    | iv :: _ => knots ++ [fst iv]
    | [] => knots
    end
  else knots.

Definition consume (vertex : adjacency) (v : nat) (edge : Edge)
  : result (adjacency * bool) :=
  (l <- dict.getitem vertex v ;;
   let l' := filter (fun e => negb (Index e =? Index edge)) l in
   Ok (dict.setitem vertex v l', List.length l' =? 0))%result.

Definition traverse (vertex : adjacency) (vStart : nat) (edge : Edge)
  (edges : Wire) : result (adjacency * Wire * option nat) :=
  let '(vEnd, edges) :=
    if vStart =? vIndex (fst (Vertices edge))
    then (vIndex (snd (Vertices edge)), edges ++ [edge])
    else (vIndex (fst (Vertices edge)), edges ++ [Twin edge]) in
  ('(vertex, _) <- consume vertex vStart edge ;;
   '(vertex, emptied) <- consume vertex vEnd edge ;;
   Ok (vertex, edges, if emptied then None else Some vEnd))%result.

(** The loop [while vStart is not None].  The loops of the module are
    written with a bound on the number of iterations ([fuel]);
    [OutOfFuel] is not an exception of the program, and the bounds given
    below are shown to suffice. *)
Fixpoint walk (fuel : nat) (vertex : adjacency) (vStart : option nat)
  (vLast : nat) (we : Wire) : result (adjacency * nat * Wire) :=
  match vStart with
  | None => Ok (vertex, vLast, we)
  | Some vS =>
      match fuel with
      | O => Raise OutOfFuel
      | S fuel' =>
          (edges <- dict.getitem vertex vS ;;
           match edges with
           | edge :: _ =>
               '(vertex, we, vNext) <- traverse vertex vS edge we ;;
               walk fuel' vertex vNext vS we
           | [] => walk fuel' vertex None vS we
           end)%result
      end
  end.

Definition drop_knot (vertex : adjacency) (v : nat) (knots : list nat)
  : result (list nat) :=
  (l <- dict.getitem vertex v ;;
   Ok (if List.length l =? 0
       then filter (fun k => negb (k =? v)) knots
       else knots))%result.

(** The loop [while knots]. *)
Fixpoint collect (fuel : nat) (vertex : adjacency) (knots : list nat)
  (wires : list Wire) : result (list Wire) :=
  match knots with
  | [] => Ok wires
  | vFirst :: _ =>
      match fuel with
      | O => Raise OutOfFuel
      | S fuel' =>
          (l <- dict.getitem vertex vFirst ;;
           '(vertex, vLast, wires) <-
              (if 0 <? List.length l
               then '(vertex, vLast, we) <-
                      walk (S (S (List.length (List.concat (map snd vertex)))))
                           vertex (Some vFirst) vFirst [] ;;
                    Ok (vertex, vLast, wires ++ [we])
               else Ok (vertex, vFirst, wires)) ;;
           knots <- drop_knot vertex vFirst knots ;;
           knots <- drop_knot vertex vLast knots ;;
           collect fuel' vertex knots wires)%result
      end
  end.

End CollectVoronoiWires.

(** [_collectVoronoiWires(vd)].  The module-level dictionary [Vertex]
    receives the initial adjacency lists and is not read again. *)
Definition _collectVoronoiWires (vd : Diagram) : result (list Wire) :=
  let edges := CollectVoronoiWires.primary_edges vd in
  let vertex := CollectVoronoiWires.build_vertex edges in
  let knots := CollectVoronoiWires.initial_knots vertex in
  CollectVoronoiWires.collect
    (S (List.length (List.concat (map snd vertex)) + List.length knots))
    vertex knots [].

Module SortVoronoiWires.

(** [closestTo(start, point)]: the first key at the least distance, with
    that distance; [(None, None)] on an empty dictionary. *)
Definition closestTo (start : FreeCAD.Vector) (point : dict.t FreeCAD.Vector)
  : option (nat * R) :=
  fold_left
    (fun (pl : option (nat * R)) (ip : nat * FreeCAD.Vector) =>
       match pl with
       | None => Some (fst ip, FreeCAD.distanceToPoint start (snd ip))
       | Some (p, l) =>
           if Rlt_dec (FreeCAD.distanceToPoint start (snd ip)) l
           then Some (fst ip, FreeCAD.distanceToPoint start (snd ip))
           else Some (p, l)
       end)
    point None.

(** The loop [for i, w in enumerate(wires)], from index [i] on. *)
Fixpoint endpoints (i : nat) (wires : list Wire)
  (begin end_ : dict.t FreeCAD.Vector)
  : result (dict.t FreeCAD.Vector * dict.t FreeCAD.Vector) :=
  match wires with
  | [] => Ok (begin, end_)
  | w :: wires' =>
      (e0 <- list_getitem w 0 ;;
       e1 <- list_getitem w (-1) ;;
       endpoints (S i) wires'
         (dict.setitem begin i (toPoint (fst (Vertices e0))))
         (dict.setitem end_ i (toPoint (snd (Vertices e1)))))%result
  end.

Definition reversed_wire (w : Wire) : Wire := map Twin (rev w).

(** The loop [while begin]. *)
Fixpoint sort (fuel : nat) (wires : list Wire) (start : FreeCAD.Vector)
  (begin end_ : dict.t FreeCAD.Vector) (result_ : list Wire)
  : result (list Wire) :=
  match begin with
  | [] => Ok result_
  | _ :: _ =>
      match fuel with
      | O => Raise OutOfFuel
      | S fuel' =>
          match closestTo start begin, closestTo start end_ with
          | Some (bIdx, bLen), Some (eIdx, eLen) =>
              if Rlt_dec bLen eLen then
                (w <- list_getitem wires (Z.of_nat bIdx) ;;
                 start' <- dict.getitem end_ bIdx ;;
                 begin' <- dict.delitem begin bIdx ;;
                 end' <- dict.delitem end_ bIdx ;;
                 sort fuel' wires start' begin' end' (result_ ++ [w]))%result
              else
                (w <- list_getitem wires (Z.of_nat eIdx) ;;
                 start' <- dict.getitem begin eIdx ;;
                 begin' <- dict.delitem begin eIdx ;;
                 end' <- dict.delitem end_ eIdx ;;
                 sort fuel' wires start' begin' end'
                      (result_ ++ [reversed_wire w]))%result
          | _, _ => Raise TypeError
          end
      end
  end.

End SortVoronoiWires.

(** [_sortVoronoiWires(wires, start)] *)
Definition _sortVoronoiWires (wires : list Wire) (start : FreeCAD.Vector)
  : result (list Wire) :=
  ('(begin, end_) <- SortVoronoiWires.endpoints 0 wires [] [] ;;
   SortVoronoiWires.sort (List.length wires) wires start begin end_ [])%result.

Definition origin : FreeCAD.Vector := FreeCAD.mkVector 0 0 0.

(** ** The collaborators of the operation

    The parts of the application that the operation calls and that lie
    outside the two modules: the geometry kernel ([Part]), the Voronoi
    diagram construction ([Path.Voronoi]), [PathUtils.simplify3dLine]
    and [PathGeom.cmdsForEdge]. *)

(** [Path.Command]: a name and its parameters. *)
Record Command : Type := mkCommand {
  Name : string;
  Parameters : list (string * R)
}.

Class Collaborators : Type := {
  Face : Type;
  PartEdge : Type;
  (** [edge.getDistances()]: the clearance at the two end points *)
  getDistances : Edge -> list R;
  (** [edge.toShape(zBegin, zEnd)] *)
  toShape : Edge -> R -> R -> result PartEdge;
  (** [e.valueAt(e.FirstParameter)] and [e.valueAt(e.LastParameter)] *)
  firstPoint : PartEdge -> FreeCAD.Vector;
  lastPoint : PartEdge -> FreeCAD.Vector;
  (** [Part.LineSegment(p1, p2).toShape()] *)
  LineSegment : FreeCAD.Vector -> FreeCAD.Vector -> result PartEdge;
  (** [PathUtils.simplify3dLine(points)] *)
  simplify3dLine : list FreeCAD.Vector -> result (list FreeCAD.Vector);
  (** the diagram of one face: [Path.Voronoi()], [insert_many_wires],
      [construct] and the colouring passes, from [obj.Discretize],
      [obj.Colinear], [obj.Tolerance] and the flag [IsLinear] *)
  voronoi : R -> R -> R -> bool -> Face -> result Diagram;
  (** [PathGeom.cmdsForEdge(e, hSpeed, vSpeed)] *)
  cmdsForEdge : PartEdge -> R -> R -> result (list Command)
}.

Section PathVcarve.
Context {collaborators : Collaborators}.

Definition _calculate_depth (MIC : R) (width_to_depth_calculator : Calculator)
  : result R :=
  (d <- WidthToDepth width_to_depth_calculator MIC ;;
   Ok (round d 4))%result.

Definition _getPartEdge (edge : Edge) (width_to_depth_calculator : Calculator)
  : result PartEdge :=
  (let dist := getDistances edge in
   d0 <- list_getitem dist 0 ;;
   zBegin <- _calculate_depth d0 width_to_depth_calculator ;;
   d1 <- list_getitem dist 1 ;;
   zEnd <- _calculate_depth d1 width_to_depth_calculator ;;
   toShape edge zBegin zEnd)%result.

(** [for x in l: out.append(f(x))] with a body that can raise. *)
Fixpoint mapM {A B : Type} (f : A -> result B) (l : list A) : result (list B) :=
  match l with
  | [] => Ok []
  | a :: l' => (b <- f a ;; bs <- mapM f l' ;; Ok (b :: bs))%result
  end.

(** The local functions of [simplify_edges]. *)

Definition median (v1 v2 : FreeCAD.Vector) : FreeCAD.Vector :=
  let vd := FreeCAD.sub v2 v1 in
  let vd := FreeCAD.scale vd (1 / 2) (1 / 2) (1 / 2) in
  FreeCAD.add v1 vd.

(** The points of the polyline: the first point of the first edge, then
    the last point of every edge. *)
Definition points (edges : list PartEdge) : result (list FreeCAD.Vector) :=
  (e0 <- list_getitem edges 0 ;;
   Ok (firstPoint e0 :: map lastPoint edges))%result.

(** An even number of points is required so that they can be divided
    into pairs that are then used to create line segments. *)
Definition even_points (simplified_points : list FreeCAD.Vector)
  : result (list FreeCAD.Vector) :=
  if negb (Nat.modulo (List.length simplified_points) 2 =? 0) then
    (p2 <- list_getitem simplified_points (-2) ;;
     p1 <- list_getitem simplified_points (-1) ;;
     Ok (list_insert simplified_points (-1) (median p2 p1)))%result
  else Ok simplified_points.

(** The indices [range(0, len(simplified_points) - 1, 2)] with the
    points at [i] and [i + 1]. *)
Fixpoint pairs (pts : list FreeCAD.Vector) : list (FreeCAD.Vector * FreeCAD.Vector) :=
  match pts with
  | p1 :: p2 :: rest => (p1, p2) :: pairs rest
  | _ => []
  end.

(** The point list from which the segments are made. *)
Definition simplified_points (edges : list PartEdge) : result (list FreeCAD.Vector) :=
  (pts <- points edges ;;
   simplified <- simplify3dLine pts ;;
   even_points simplified)%result.

Definition simplify_edges (edges : list PartEdge) : result (list PartEdge) :=
  (pts <- simplified_points edges ;;
   mapM (fun pp => LineSegment (fst pp) (snd pp)) (pairs pts))%result.

Definition _getPartEdges (vWire : Wire) (width_to_depth_calculator : Calculator)
  : result (list PartEdge) :=
  (edges <- mapM (fun e => _getPartEdge e width_to_depth_calculator) vWire ;;
   simplify_edges edges)%result.

(** The operation object [obj] and the models of the job. *)
Record Obj : Type := mkObj {
  ToolController_Tool : Tool;
  HorizFeed : R;
  VertFeed : R;
  SafeHeight : R;
  FinalDepth : R;
  Discretize : R;
  Colinear : R;
  Tolerance : R;
  (** [base.Shape.Faces] for every [base] of [obj.BaseShapes] *)
  BaseShapes : list (list Face);
  (** [getattr(base[0].Shape, sub)] for every [sub] of every [base] of
      [obj.Base]: the face when the sub-shape is a [Part.Face] *)
  Base : list (list (option Face))
}.

Record Model : Type := mkModel {
  ZMax : R;
  (** derived from a sketch or a 2D part object *)
  is2D : bool;
  Faces : list Face
}.

(** An entry of a list of wires: the lists of the module-level [VD]
    first hold Voronoi wires and later receive wires of part edges. *)
Inductive WireItem : Type :=
| VoronoiWire (w : Wire)
| PartWire (p : list PartEdge).

(** The state the operation works on: the command list of the operation
    ([self.commandlist]), the module-level list [VD], the console and the
    error log. *)
Record World : Type := mkWorld {
  commandlist : list Command;
  VD : list (Face * Diagram * list WireItem);
  console : Console;
  pathlog : list string
}.

Definition set_commandlist (w : World) (c : list Command) : World :=
  mkWorld c (VD w) (console w) (pathlog w).

Definition set_VD (w : World) (vd : list (Face * Diagram * list WireItem)) : World :=
  mkWorld (commandlist w) vd (console w) (pathlog w).

Definition set_console (w : World) (c : Console) : World :=
  mkWorld (commandlist w) (VD w) c (pathlog w).

Definition PathLog_error (msg : string) (w : World) : World :=
  mkWorld (commandlist w) (VD w) (console w) (pathlog w ++ [msg]).

(** The local function [cutWire] of [buildPathMedial]. *)
Definition cutWire (obj : Obj) (edges : list PartEdge) : result (list Command) :=
  (let path := [mkCommand "G0" [("Z"%string, SafeHeight obj)]] in
   e <- list_getitem edges 0 ;;
   let p := firstPoint e in
   let path := path ++ [mkCommand "G0" [("X"%string, FreeCAD.x p);
                                         ("Y"%string, FreeCAD.y p);
                                         ("Z"%string, SafeHeight obj)]] in
   let hSpeed := HorizFeed obj in
   let vSpeed := VertFeed obj in
   let path := path ++ [mkCommand "G1" [("X"%string, FreeCAD.x p);
                                         ("Y"%string, FreeCAD.y p);
                                         ("Z"%string, FreeCAD.z p);
                                         ("F"%string, vSpeed)]] in
   cmds <- mapM (fun e => cmdsForEdge e hSpeed vSpeed) edges ;;
   Ok (path ++ List.concat cmds))%result.

(** The work on one face in the loop [for f in faces] of
    [buildPathMedial]: the diagram and its wires. *)
Definition region (obj : Obj) (width_to_depth_calculator : Calculator)
  (f : Face) : result (Diagram * list Wire) :=
  (vd <- voronoi (Discretize obj) (Colinear obj) (Tolerance obj)
                 (IsLinear width_to_depth_calculator) f ;;
   wires <- _collectVoronoiWires vd ;;
   wires <- (if negb (String.eqb _sorting "global")
             then _sortVoronoiWires wires origin
             else Ok wires) ;;
   Ok (vd, wires))%result.

(** The loop [for f in faces] of [buildPathMedial]; [wires] is the list
    bound by the last iteration, the same object as the last entry of
    [VD]. *)
Fixpoint regions (obj : Obj) (width_to_depth_calculator : Calculator)
  (faces : list Face) (voronoiWires : list Wire) (w : World)
  : result (list Wire) * World :=
  match faces with
  | [] => (Ok voronoiWires, w)
  | f :: faces' =>
      match region obj width_to_depth_calculator f with
      | Raise e => (Raise e, w)
      | Ok (vd, wires) =>
          regions obj width_to_depth_calculator faces'
            (voronoiWires ++ wires)
            (set_VD w (VD w ++ [(f, vd, map VoronoiWire wires)]))
      end
  end.

(** [wires.append(pWire)] *)
Definition append_to_last_wires (w : World) (pWire : list PartEdge) : World :=
  match rev (VD w) with
  | (f, vd, wires) :: before =>
      set_VD w (rev before ++ [(f, vd, wires ++ [PartWire pWire])])
  | [] => w
  end.

(** The loop [for w in voronoiWires] of [buildPathMedial]. *)
Fixpoint paths (obj : Obj) (width_to_depth_calculator : Calculator)
  (voronoiWires : list Wire) (pathlist : list Command) (w : World)
  : result (list Command) * World :=
  match voronoiWires with
  | [] => (Ok pathlist, w)
  | vw :: rest =>
      match _getPartEdges vw width_to_depth_calculator with
      | Raise e => (Raise e, w)
      | Ok pWire =>
          match pWire with
          | [] => paths obj width_to_depth_calculator rest pathlist w
          | _ :: _ =>
              let w := append_to_last_wires w pWire in
              match cutWire obj pWire with
              | Raise e => (Raise e, w)
              | Ok cmds =>
                  paths obj width_to_depth_calculator rest (pathlist ++ cmds) w
              end
          end
      end
  end.

Definition buildPathMedial (obj : Obj) (width_to_depth_calculator : Calculator)
  (faces : list Face) (w : World) : result unit * World :=
  let w := set_VD w [] in
  let '(r, w) := regions obj width_to_depth_calculator faces [] w in
  match r with
  | Raise e => (Raise e, w)
  | Ok voronoiWires =>
      match (if String.eqb _sorting "global"
             then _sortVoronoiWires voronoiWires origin
             else Ok voronoiWires) with
      | Raise e => (Raise e, w)
      | Ok voronoiWires =>
          let pathlist := [mkCommand "(starting)" []] in
          let '(r, w) :=
            paths obj width_to_depth_calculator voronoiWires pathlist w in
          match r with
          | Raise e => (Raise e, w)
          | Ok pathlist => (Ok tt, set_commandlist w pathlist)
          end
      end
  end.

Definition unsupported_message : string :=
  "This Engraver doesn't support Vcarve.
"%string.

Definition no_element_message : string :=
  "The Job Base Object has no engraveable element. Engraving operation will produce no output."%string.

Definition processing_message : string :=
  "Error processing Base object. Engraving operation will produce no output."%string.

(** The faces the operation works on, as [opExecute] gathers them. *)
Definition gather_faces (model : list Model) (obj : Obj) : list Face :=
  let faces := List.concat (BaseShapes obj) in
  let faces :=
    faces ++ flat_map
               (fun subs =>
                  flat_map (fun shape => match shape with
                                         | Some f => [f]
                                         | None => []
                                         end) subs)
               (Base obj) in
  match faces with
  | [] => flat_map (fun m => if is2D m then Faces m else []) model
  | _ :: _ => faces
  end.

(** [opExecute(self, obj)]; [model] is [self.model].  The result is
    [Ok tt] when the method returns and [Raise e] when [e] escapes. *)
Definition opExecute (model : list Model) (obj : Obj) (w : World)
  : result unit * World :=
  let tool := ToolController_Tool obj in
  match list_getitem model 0 with
  | Raise e => (Raise e, w)
  | Ok model0 =>
      let '(r, c) :=
        PathWidthToDepth.WidthToDepthCalculator
          tool (BitShape tool) (ZMax model0) (FinalDepth obj) (console w) in
      let w := set_console w c in
      match r with
      | Raise e => (Raise e, w)
      | Ok width_to_depth_calculator =>
          if negb (SupportsVcarve width_to_depth_calculator) then
            (Ok tt,
             set_console w
               (PrintError (translate "Path_Vcarve" unsupported_message)
                           (console w)))
          else
            let faces := gather_faces model obj in
            let '(r, w) :=
              match faces with
              | _ :: _ => buildPathMedial obj width_to_depth_calculator faces w
              | [] =>
                  (Ok tt,
                   PathLog_error (translate "PathVcarve" no_element_message) w)
              end in
            match r with
            | Ok _ => (Ok tt, w)
            | Raise e =>
                (Ok tt,
                 PathLog_error (translate "PathVcarve" processing_message) w)
            end
      end
  end.

End PathVcarve.

Unset Implicit Arguments.

Module Con := ConicalWidthToDepthCalculator.
Module Sph := SphericalWidthToDepthCalculator.

(** * Specification vocabulary *)

(** ** Calculators *)

(** What the conical calculator holds after [SetLimits(zStart, zFinal)]. *)
Definition conical_equations (D Td A zStart zFinal : R)
  (c : ConicalWidthToDepthCalculator.t) : Prop :=
  (ConicalWidthToDepthCalculator.scale c = 1 / math.tan (math.radians (A / 2)) /\
   ConicalWidthToDepthCalculator.start c
   = zStart + Td / 2 * ConicalWidthToDepthCalculator.scale c /\
   ConicalWidthToDepthCalculator.stop c
   = max (zStart - D / 2 * ConicalWidthToDepthCalculator.scale c
          + Td / 2 * ConicalWidthToDepthCalculator.scale c) zFinal /\
   forall w : R,
     ConicalWidthToDepthCalculator.WidthToDepth c w
     = max (ConicalWidthToDepthCalculator.start c
            - w * ConicalWidthToDepthCalculator.scale c)
           (ConicalWidthToDepthCalculator.stop c))%R.

(** The calculators the operation can work with. *)
Inductive constructed : Calculator -> Prop :=
| constructed_conical (D Td A : R) (c : ConicalWidthToDepthCalculator.t) :
    (0 < A < 180)%R ->
    ConicalWidthToDepthCalculator.__init__ D Td A = Ok c ->
    constructed (Conical c)
| constructed_spherical (D : R) :
    constructed (Spherical (SphericalWidthToDepthCalculator.__init__ D))
| constructed_unsupported :
    constructed (Unsupported UnsupportedBitToDepthCalculator.mk).

(** The bounds a calculator keeps: its [start] and [stop], none for the
    unsupported one. *)
Definition limits (calc : Calculator) : option (R * R) :=
  match calc with
  | Conical c =>
      Some (ConicalWidthToDepthCalculator.start c,
            ConicalWidthToDepthCalculator.stop c)
  | Spherical c =>
      Some (SphericalWidthToDepthCalculator.start c,
            SphericalWidthToDepthCalculator.stop c)
  | Unsupported _ => None
  end.

Definition within_limits (calc : Calculator) (zFinal d : R) : Prop :=
  match limits calc with
  | Some (start, stop) => (stop <= d <= max start stop /\ zFinal <= stop)%R
  | None => d = 0%R
  end.

Definition start_not_above_zero (calc : Calculator) : Prop :=
  match limits calc with
  | Some (start, _) => (start <= 0)%R
  | None => True
  end.

(** ** Dictionaries as tabulated functions *)

Definition tabulate {V : Type} (keys : list nat) (f : nat -> V) : dict.t V :=
  map (fun k => (k, f k)) keys.

(** ** The graph of the primary edges *)

Definition v0 (e : Edge) : nat := vIndex (fst (Vertices e)).
Definition v1 (e : Edge) : nat := vIndex (snd (Vertices e)).

(** The entries an edge contributes to the adjacency list of [k]: one
    for each of its two vertices that is [k]. *)
Definition ends (k : nat) (e : Edge) : list Edge :=
  (if v0 e =? k then [e] else []) ++ (if v1 e =? k then [e] else []).

Definition incident (k : nat) (L : list Edge) : list Edge := flat_map (ends k) L.

(** The degree of a vertex: the length of its adjacency list. *)
Definition deg (k : nat) (L : list Edge) : nat := List.length (incident k L).

Definition touches (k : nat) (e : Edge) : Prop := k = v0 e \/ k = v1 e.

Definition weight (k : nat) (e : Edge) : nat := List.length (ends k e).

(** Removing the edge with a given index. *)
Definition without (e : Edge) (L : list Edge) : list Edge :=
  filter (fun x => negb (Index x =? Index e)) L.

Definition bucket (k : nat) (incs : list (nat * Edge)) : list Edge :=
  map snd (filter (fun p => fst p =? k) incs).

Definition incidences (L : list Edge) : list (nat * Edge) :=
  flat_map (fun e => [(v0 e, e); (v1 e, e)]) L.

Record adj_inv (incs : list (nat * Edge)) (d : CollectVoronoiWires.adjacency) : Prop := {
  adj_nodup : NoDup (dict.keys d);
  adj_get : forall k, In k (dict.keys d) -> dict.get d k = Some (bucket k incs);
  adj_absent : forall k, ~ In k (dict.keys d) -> bucket k incs = [];
  adj_nonempty : forall k, In k (dict.keys d) -> bucket k incs <> [];
  adj_keys : forall i e, In (i, e) incs -> In i (dict.keys d)
}.

(** The keys of the dictionary [vertex]. *)
Definition vertex_keys (L : list Edge) : list nat :=
  dict.keys (CollectVoronoiWires.build_vertex L).

Definition adjacency_of (K : list nat) (L : list Edge) : CollectVoronoiWires.adjacency :=
  tabulate K (fun k => incident k L).

Definition other_end (vS : nat) (e : Edge) : nat :=
  if vS =? v0 e then v1 e else v0 e.

Definition oriented (vS : nat) (e : Edge) : Edge :=
  if vS =? v0 e then e else Twin e.

(** The number of entries of the dictionary. *)
Definition entries (K : list nat) (L : list Edge) : nat :=
  List.length (List.concat (map snd (adjacency_of K L))).

(** The start and the end vertex of a wire. *)
Definition wire_first (w : Wire) : option nat := option_map v0 (hd_error w).

Definition wire_last (w : Wire) : option nat := option_map v1 (hd_error (rev w)).

(** Consecutive edges of a wire meet: the end vertex of one is the start
    vertex of the next. *)
Definition chain (w : Wire) : Prop :=
  forall (i : nat) (a b : Edge),
    nth_error w i = Some a -> nth_error w (S i) = Some b -> v1 a = v0 b.

(** An edge of a wire stands for a primary edge: itself or its twin. *)
Definition same_edge (x e : Edge) : Prop := x = e \/ x = Twin e.

(** Away from the knots a vertex has kept both its edges or none, but
    for the vertex the traversal stands on, which has spent the edge it
    came by. *)
Definition passing (K knots0 : list nat) (L : list Edge) (cur : option nat) : Prop :=
  forall k, In k K -> ~ In k knots0 ->
    (cur = Some k -> deg k L <= 1) /\
    (cur <> Some k -> deg k L = 2 \/ deg k L = 0).

(** The edges consumed so far, together with those that remain, are the
    primary edges. *)
Definition remaining (E done L : list Edge) : Prop := Permutation (done ++ L) E.

Definition dropped (L : list Edge) (v : nat) (knots : list nat) : list nat :=
  if deg v L =? 0 then filter (fun k => negb (k =? v)) knots else knots.

(** The list [knots] as the function computes it. *)
Definition knots_of (E : list Edge) : list nat :=
  CollectVoronoiWires.initial_knots (CollectVoronoiWires.build_vertex E).

(** A knot proper: a vertex of degree 1 or of degree 3 or more. *)
Definition is_branch (E : list Edge) (k : nat) : Prop := deg k E = 1 \/ 3 <= deg k E.

(** A wire that is a chain from a knot to a knot. *)
Definition knot_wire (knots : list nat) (w : Wire) : Prop :=
  w <> [] /\ chain w /\
  exists a b : nat, wire_first w = Some a /\ wire_last w = Some b /\
                    In a knots /\ In b knots.

(** A primary edge is connected to a knot when it touches one, or shares
    a vertex with an edge that is connected to one. *)
Inductive connected_to_knot (E : list Edge) : Edge -> Prop :=
| at_knot (e : Edge) (k : nat) :
    In e E -> In k (knots_of E) -> touches k e -> connected_to_knot E e
| via_edge (e f : Edge) (k : nat) :
    In e E -> connected_to_knot E f -> touches k f -> touches k e ->
    connected_to_knot E e.

(** The identity of an edge without its direction: the indices of its
    two half-edges. *)
Definition undirected (e : Edge) : nat * nat :=
  (Nat.min (Index e) (twinIndex e), Nat.max (Index e) (twinIndex e)).

Definition undirected_eq_dec (a b : nat * nat) : {a = b} + {a <> b}.
Proof. decide equality; apply Nat.eq_dec. Defined.

(** The primary edges hold at most one half-edge of a pair. *)
Definition one_half_each (E : list Edge) : Prop :=
  forall e e', In e E -> In e' E -> Index e <> twinIndex e'.

(** Every primary edge has its twin among the primary edges. *)
Definition twins_primary (vd : Diagram) : Prop :=
  forall e, In e (CollectVoronoiWires.primary_edges vd) ->
            In (Twin e) (CollectVoronoiWires.primary_edges vd).

(** Every edge of the diagram has its twin in the diagram. *)
Definition twins_present (vd : Diagram) : Prop :=
  forall e, In e (Edges vd) -> In (Twin e) (Edges vd).

(** ** The sequence of wires *)

Definition wire_begin (w : Wire) : FreeCAD.Vector :=
  match w with
  | e :: _ => toPoint (fst (Vertices e))
  | [] => origin
  end.

Definition wire_end (w : Wire) : FreeCAD.Vector :=
  match rev w with
  | e :: _ => toPoint (snd (Vertices e))
  | [] => origin
  end.

Definition begin_of (wires : list Wire) (i : nat) : FreeCAD.Vector :=
  wire_begin (nth i wires []).

Definition end_of (wires : list Wire) (i : nat) : FreeCAD.Vector :=
  wire_end (nth i wires []).

Definition dist (a b : FreeCAD.Vector) : R := FreeCAD.distanceToPoint a b.

(** [p] is at least as near to [pos] as every end point of every wire
    that remains. *)
Definition nearest (wires : list Wire) (pos p : FreeCAD.Vector) (rem : list nat) : Prop :=
  forall j, In j rem ->
    (dist pos p <= dist pos (begin_of wires j) /\
     dist pos p <= dist pos (end_of wires j))%R.

Definition drop (i : nat) (rem : list nat) : list nat :=
  filter (fun j => negb (j =? i)) rem.

(** The output from a position and a pool of remaining wires: at each
    step a wire with a nearest end point, forwards when that is its
    begin point and reversed when it is its end point; the position
    moves to the last point of the wire as appended. *)
Inductive greedy (wires : list Wire) : FreeCAD.Vector -> list nat -> list Wire -> Prop :=
| greedy_done (pos : FreeCAD.Vector) : greedy wires pos [] []
| greedy_forward (pos : FreeCAD.Vector) (rem : list nat) (i : nat) (w : Wire)
    (out : list Wire) :
    In i rem -> nth_error wires i = Some w ->
    nearest wires pos (wire_begin w) rem ->
    greedy wires (wire_end w) (drop i rem) out ->
    greedy wires pos rem (w :: out)
| greedy_reversed (pos : FreeCAD.Vector) (rem : list nat) (i : nat) (w : Wire)
    (out : list Wire) :
    In i rem -> nth_error wires i = Some w ->
    nearest wires pos (wire_end w) rem ->
    greedy wires (wire_end (SortVoronoiWires.reversed_wire w)) (drop i rem) out ->
    greedy wires pos rem (SortVoronoiWires.reversed_wire w :: out).

(** An output wire is an input wire, as it was or reversed. *)
Definition up_to_reversal (r w : Wire) : Prop :=
  r = w \/ r = SortVoronoiWires.reversed_wire w.

(** ** Path edges *)

Definition midpoint (p q : FreeCAD.Vector) : FreeCAD.Vector :=
  FreeCAD.mkVector ((FreeCAD.x p + FreeCAD.x q) / 2)
                   ((FreeCAD.y p + FreeCAD.y q) / 2)
                   ((FreeCAD.z p + FreeCAD.z q) / 2).

Definition unpair (pp : FreeCAD.Vector * FreeCAD.Vector) : list FreeCAD.Vector :=
  [fst pp; snd pp].

(** Modelled from the spec: [PathUtils.simplify3dLine] is not part of the
    two modules; the simplification merges near-colinear segments
    preserving true endpoints, so it returns the first and the last point
    of a polyline with some of the points in between. *)
Definition preserves_endpoints {collaborators : Collaborators} : Prop :=
  forall (a b : FreeCAD.Vector) (mid : list FreeCAD.Vector),
  exists mid', simplify3dLine (a :: mid ++ [b]) = Ok (a :: mid' ++ [b]).

Definition face_of {collaborators : Collaborators}
  (entry : Face * Diagram * list WireItem) : Face :=
  fst (fst entry).

(** ** Sample data *)

(** Collaborators for the examples: faces are numbers, the diagram of
    face 0 cannot be constructed, a part edge is its two end points and
    the simplification keeps every point. *)
Definition sample_collaborators : Collaborators := {|
  Face := nat;
  PartEdge := FreeCAD.Vector * FreeCAD.Vector;
  getDistances := fun _ => [1; 2]%R;
  toShape := fun e zBegin zEnd =>
    Ok (FreeCAD.mkVector (X (fst (Vertices e))) (Y (fst (Vertices e))) zBegin,
        FreeCAD.mkVector (X (snd (Vertices e))) (Y (snd (Vertices e))) zEnd);
  firstPoint := fst;
  lastPoint := snd;
  LineSegment := fun p1 p2 => Ok (p1, p2);
  simplify3dLine := fun pts => Ok pts;
  voronoi := fun _ _ _ _ f =>
    match f with
    | O => Raise (ExternalError "construct")
    | S _ => Ok (mkDiagram [])
    end;
  cmdsForEdge := fun e _ _ =>
    Ok [mkCommand "G1" [("X"%string, FreeCAD.x (snd e));
                        ("Y"%string, FreeCAD.y (snd e));
                        ("Z"%string, FreeCAD.z (snd e))]]
|}.

Definition sample_vertex (i : nat) : Vertex := mkVertex i (INR i) 0.

(** A primary half-edge from vertex [a] to vertex [b] whose twin is
    coloured [TWIN]. *)
Definition sample_edge (i a b : nat) : Edge :=
  mkEdge i (sample_vertex a, sample_vertex b) PRIMARY (100 + i) TWIN.

(** A branch: three leaves 1, 3, 4 around the vertex 2. *)
Definition branch_diagram : Diagram :=
  mkDiagram [sample_edge 0 1 2; Twin (sample_edge 0 1 2);
             sample_edge 1 2 3; Twin (sample_edge 1 2 3);
             sample_edge 2 2 4; Twin (sample_edge 2 2 4)].

(** One edge with both half-edges coloured [PRIMARY]. *)
Definition both_halves_edge : Edge :=
  mkEdge 0 (sample_vertex 1, sample_vertex 2) PRIMARY 1 PRIMARY.

Definition both_halves_diagram : Diagram :=
  mkDiagram [both_halves_edge; Twin both_halves_edge].

(** Two triangles that share no vertex, one half-edge of each edge
    coloured [PRIMARY]. *)
Definition two_triangles : Diagram :=
  mkDiagram [sample_edge 0 1 2; Twin (sample_edge 0 1 2);
             sample_edge 1 2 3; Twin (sample_edge 1 2 3);
             sample_edge 2 3 1; Twin (sample_edge 2 3 1);
             sample_edge 3 4 5; Twin (sample_edge 3 4 5);
             sample_edge 4 5 6; Twin (sample_edge 4 5 6);
             sample_edge 5 6 4; Twin (sample_edge 5 6 4)].

(** Three wires of one edge each along the x axis. *)
Definition wire_A : Wire := [sample_edge 0 10 20].
Definition wire_B : Wire := [sample_edge 1 5 1].
Definition wire_C : Wire := [sample_edge 2 30 40].

Definition ball_tool : Tool := mkTool 10 0 0 "ballend.fcstd".

Definition ball_calculator : Calculator :=
  SetLimits (Spherical (SphericalWidthToDepthCalculator.__init__ 10)) 0 (-10).

Definition wide_vbit_tool : Tool := mkTool 10 0 180 "v-bit.fcstd".

Definition sample_obj (tool : Tool) (faces : list nat) : @Obj sample_collaborators :=
  @mkObj sample_collaborators tool 100 50 5 (-10) (1 / 100) 10 (1 / 100) [faces] [].

Definition sample_model : @Model sample_collaborators :=
  @mkModel sample_collaborators 0 false [].

Definition sample_world : @World sample_collaborators :=
  @mkWorld sample_collaborators [mkCommand "(previous)" []] [] [] [].

Ltac splits := repeat match goal with |- _ /\ _ => split end.

(** * The rest of the two modules *)

(** ** [isToolSupported] *)

(** [isToolSupported(obj, tool)]: the factory with its default limits,
    then [SupportsVcarve]. *)
Definition isToolSupported (tool : Tool) (console : Console)
  : result bool * Console :=
  let '(r, console) :=
    PathWidthToDepth.WidthToDepthCalculator tool (BitShape tool) 0 0 console in
  (bind r (fun width_to_depth_calculator =>
             Ok (SupportsVcarve width_to_depth_calculator)),
   console).

(** ** [insert_many_wires] *)

(** The argument of [wire.discretize]: the keyword [QuasiDeflection] or
    one positional number. *)
Inductive DiscretizeArg : Type :=
| QuasiDeflection (d : R)
| Positional (d : R).

Definition Segment : Type := (FreeCAD.Vector * FreeCAD.Vector)%type.

(** The loop [for i in range(len(pts))], with [vd.addSegment] appending
    to the segments of the diagram. *)
Fixpoint add_segments (ptv : list FreeCAD.Vector) (indices : list nat)
  (segments : list Segment) : result unit * list Segment :=
  match indices with
  | [] => (Ok tt, segments)
  | i :: indices' =>
      match list_getitem ptv (Z.of_nat i) with
      | Raise e => (Raise e, segments)
      | Ok a =>
          match list_getitem ptv (Z.of_nat i + 1) with
          | Raise e => (Raise e, segments)
          | Ok b => add_segments ptv indices' (segments ++ [(a, b)])
          end
      end
  end.

(** The body of [for wire in wires] after the discretization. *)
Definition insert_points (pts : list FreeCAD.Vector) (segments : list Segment)
  : result unit * list Segment :=
  let ptv := map (fun p => FreeCAD.mkVector (FreeCAD.x p) (FreeCAD.y p) 0) pts in
  match list_getitem ptv 0 with
  | Raise e => (Raise e, segments)
  | Ok p0 =>
      let ptv := ptv ++ [p0] in
      add_segments ptv (seq 0 (List.length pts)) segments
  end.

Section InsertManyWires.
Variable BoundaryWire : Type.
Variable discretize : BoundaryWire -> DiscretizeArg -> list FreeCAD.Vector.

(** [insert_many_wires(vd, wires, bitIsLinear)]; [Discretize] is
    [obj.Discretize] and [segments] the segments of [vd]. *)
Fixpoint insert_many_wires (Discretize : R) (segments : list Segment)
  (wires : list BoundaryWire) (bitIsLinear : bool)
  : result unit * list Segment :=
  match wires with
  | [] => (Ok tt, segments)
  | wire :: wires' =>
      let pts :=
        if bitIsLinear
        then discretize wire (QuasiDeflection Discretize)
        else discretize wire (Positional (Discretize * 10)%R) in
      match insert_points pts segments with
      | (Raise e, segments) => (Raise e, segments)
      | (Ok _, segments) =>
          insert_many_wires Discretize segments wires' bitIsLinear
      end
  end.

End InsertManyWires.

(** ** [opFeatures], [opSetDefaultValues], [opUpdateDepths] *)

(** The feature flags of [PathOp]. *)
Record FeatureFlags : Type := mkFeatureFlags {
  FeatureTool : Z;
  FeatureHeights : Z;
  FeatureDepths : Z;
  FeatureBaseFaces : Z;
  FeatureCoolant : Z
}.

Definition opFeatures (flags : FeatureFlags) : Z :=
  Z.lor (Z.lor (Z.lor (Z.lor (FeatureTool flags) (FeatureHeights flags))
                      (FeatureDepths flags))
               (FeatureBaseFaces flags))
        (FeatureCoolant flags).

(** What [opSetDefaultValues] reads of a job: the length of
    [job.Model.Group], [job.Proxy.modelBoundBox(job).ZMax] and
    [job.Stock.Shape.BoundBox.ZMin]. *)
Record Job : Type := mkJob {
  Group_length : nat;
  modelBoundBox_ZMax : R;
  Stock_ZMin : R
}.

(** The depth properties of the operation object. *)
Record Depths : Type := mkDepths {
  OpStartDepth : R;
  OpFinalDepth : R
}.

Definition opSetDefaultValues (flags : FeatureFlags) (obj : Depths)
  (job : option Job) : Depths :=
  if negb (Z.land (FeatureDepths flags) (opFeatures flags) =? 0)%Z then
    match job with
    | Some j =>
        if 0 <? Group_length j
        then mkDepths (modelBoundBox_ZMax j) (Stock_ZMin j)
        else mkDepths (OpStartDepth obj) (- (1 / 10))%R
    | None => mkDepths (OpStartDepth obj) (- (1 / 10))%R
    end
  else obj.

(** [opUpdateDepths(obj)]; [findParentJob] is [PathUtils.findParentJob]. *)
Definition opUpdateDepths (flags : FeatureFlags)
  (findParentJob : Depths -> option Job) (obj : Depths) : Depths :=
  opSetDefaultValues flags obj (findParentJob obj).

(** ** Vocabulary for the paths *)

(** The three commands [cutWire] starts with: up to the safe height,
    across to the first point, down to it at the vertical feed. *)
Definition approach {collaborators : Collaborators} (obj : Obj)
  (p : FreeCAD.Vector) : list Command :=
  [mkCommand "G0" [("Z"%string, SafeHeight obj)];
   mkCommand "G0" [("X"%string, FreeCAD.x p); ("Y"%string, FreeCAD.y p);
                   ("Z"%string, SafeHeight obj)];
   mkCommand "G1" [("X"%string, FreeCAD.x p); ("Y"%string, FreeCAD.y p);
                   ("Z"%string, FreeCAD.z p); ("F"%string, VertFeed obj)]].

(** The truth value of a list. *)
Definition nonempty {A : Type} (l : list A) : bool :=
  match l with
  | [] => false
  | _ :: _ => true
  end.

(** The wires of part edges among the entries of a list of wires. *)
Definition part_wires {collaborators : Collaborators}
  (items : list WireItem) : list (list PartEdge) :=
  flat_map (fun item => match item with
                        | PartWire p => [p]
                        | VoronoiWire _ => []
                        end) items.

(** The wire list of an entry of [VD]. *)
Definition wires_of {collaborators : Collaborators}
  (entry : Face * Diagram * list WireItem) : list WireItem :=
  snd entry.

(** The entry that the loop over the faces appends to [VD]. *)
Definition entry_of {collaborators : Collaborators}
  (fr : Face * (Diagram * list Wire))
  : Face * Diagram * list WireItem :=
  (fst fr, fst (snd fr), map VoronoiWire (snd (snd fr))).

(** [VD] after the wires [cut] of part edges were appended to the wire
    list of its last entry. *)
Definition extended {collaborators : Collaborators}
  (vd : list (Face * Diagram * list WireItem))
  (cut : list (list PartEdge)) : list (Face * Diagram * list WireItem) :=
  match rev vd with
  | [] => []
  | (f, d, items) :: before => rev before ++ [(f, d, items ++ map PartWire cut)]
  end.


(** ** Vocabulary for the boundary segments *)

(** [FreeCAD.Vector(p.x, p.y)]: the point in the plane [z = 0]. *)
Definition flattened (p : FreeCAD.Vector) : FreeCAD.Vector :=
  FreeCAD.mkVector (FreeCAD.x p) (FreeCAD.y p) 0.

(** The segments of the closed polygon through the flattened points:
    from each point to the next and from the last to the first. *)
Definition closed_polygon (pts : list FreeCAD.Vector) : list Segment :=
  let ptv := map flattened pts in
  combine ptv (tl ptv ++ [hd origin ptv]).

(** ** More sample data *)

(** A v-bit of 90 degrees with a flat tip. *)
Definition tipped_vbit_tool : Tool := mkTool 10 2 90 "v-bit.fcstd".

(** Feature flags with one bit each. *)
Definition sample_flags : FeatureFlags := mkFeatureFlags 1 4 2 1024 8192.

Definition sample_job : Job := mkJob 1 20 (-5).

Definition sample_depths : Depths := mkDepths 0 0.

(** ** Depths of the emitted points *)

(** Modelled from the spec: [edge.toShape] is not part of the two
    modules; the 3D segment it builds follows the diagram edge in the
    plane and its z interpolates between the two resolved depths, so its
    first point lies at the first depth and its last point at the
    second. *)
Definition keeps_depths {collaborators : Collaborators} : Prop :=
  forall (e : Edge) (zBegin zEnd : R) (pe : PartEdge),
    toShape e zBegin zEnd = Ok pe ->
    FreeCAD.z (firstPoint pe) = zBegin /\ FreeCAD.z (lastPoint pe) = zEnd.

(** Modelled from the spec: [PathUtils.simplify3dLine] is not part of
    the two modules; the simplification merges segments, so the points
    it returns are among the points it is given. *)
Definition selects_points {collaborators : Collaborators} : Prop :=
  forall pts sp : list FreeCAD.Vector,
    simplify3dLine pts = Ok sp -> incl sp pts.

(** A whole multiple of [10 ^ -4]. *)
Definition quantized (z : R) : Prop := exists k : Z, z = (IZR k / 10 ^ 4)%R.

(** A depth that [_getPartEdge] resolves for an edge of the wire: the
    result of the calculator at one of the two clearances of the edge,
    rounded to 4 decimal places. *)
Definition resolved_depth {collaborators : Collaborators} (vWire : Wire)
  (calc : Calculator) (z : R) : Prop :=
  exists (e : Edge) (w d : R),
    In e vWire /\ In w (firstn 2 (getDistances e)) /\
    WidthToDepth calc w = Ok d /\ z = round d 4.

(** ** A sample with wires *)

(** Collaborators for the examples with wires: every face has the
    diagram of the branch, the clearance at a vertex is its index times
    [10 ^ -4], a part edge is its two end points at the two depths and
    the simplification keeps every point. *)
Definition carving_collaborators : Collaborators := {|
  Face := nat;
  PartEdge := FreeCAD.Vector * FreeCAD.Vector;
  getDistances := fun e => [INR (v0 e) / 10000; INR (v1 e) / 10000]%R;
  toShape := fun e zBegin zEnd =>
    Ok (FreeCAD.mkVector (X (fst (Vertices e))) (Y (fst (Vertices e))) zBegin,
        FreeCAD.mkVector (X (snd (Vertices e))) (Y (snd (Vertices e))) zEnd);
  firstPoint := fst;
  lastPoint := snd;
  LineSegment := fun p1 p2 => Ok (p1, p2);
  simplify3dLine := fun pts => Ok pts;
  voronoi := fun _ _ _ _ _ => Ok branch_diagram;
  cmdsForEdge := fun e _ _ =>
    Ok [mkCommand "G1" [("X"%string, FreeCAD.x (snd e));
                        ("Y"%string, FreeCAD.y (snd e));
                        ("Z"%string, FreeCAD.z (snd e))]]
|}.

(** The conical calculator of the 90 degree bit of diameter 10 without
    a tip, with the limits 0 and -10: scale 1, start 0, stop -5. *)
Definition right_angle_calculator : Calculator :=
  Conical (ConicalWidthToDepthCalculator.mk 5 0 1 0 0 (-5)).

Definition right_angle_tool : Tool := mkTool 10 0 90 "v-bit.fcstd".

(** A wire of two edges round a corner, from [(0, 0)] by [(1, 0)] to
    [(1, 1)], with the clearances 0, [10 ^ -4] and [2 * 10 ^ -4]. *)
Definition corner_wire : Wire :=
  [mkEdge 0 (mkVertex 0 0 0, mkVertex 1 1 0) PRIMARY 100 TWIN;
   mkEdge 1 (mkVertex 1 1 0, mkVertex 2 1 1) PRIMARY 101 TWIN].

Definition carving_obj (faces : list nat) : @Obj carving_collaborators :=
  @mkObj carving_collaborators right_angle_tool 100 50 5 (-10) (1 / 100) 10
         (1 / 100) [faces] [].

Definition carving_world : @World carving_collaborators :=
  @mkWorld carving_collaborators [mkCommand "(previous)" []] [] [] [].

(** * Proofs *)

Import CollectVoronoiWires SortVoronoiWires.

Open Scope R_scope.

(** ** The builtin [max] *)

Lemma max_Rmax (a b : R) : max a b = Rmax a b.
Proof.
  unfold max, Rmax. destruct (Rlt_dec a b), (Rle_dec a b); lra.
Qed.

Lemma max_ge_l (a b : R) : a <= max a b.
Proof. unfold max. destruct (Rlt_dec a b); lra. Qed.

Lemma max_ge_r (a b : R) : b <= max a b.
Proof. unfold max. destruct (Rlt_dec a b); lra. Qed.

Lemma max_le (a b c : R) : a <= c -> b <= c -> max a b <= c.
Proof. unfold max. destruct (Rlt_dec a b); lra. Qed.

Lemma max_mono (a a' b : R) : a <= a' -> max a b <= max a' b.
Proof. unfold max. destruct (Rlt_dec a b), (Rlt_dec a' b); lra. Qed.

(** ** The conical calculator *)

Lemma tan_half_angle_pos (A : R) :
  0 < A < 180 -> 0 < math.tan (math.radians (A / 2)).
Proof.
  intros HA. unfold math.tan, math.radians.
  assert (Hpi := PI_RGT_0).
  apply tan_gt_0.
  - apply Rmult_lt_0_compat; [|lra]. apply Rmult_lt_0_compat; lra.
  - assert (A / 2 * PI / 180 = PI / 2 * (A / 180)) as -> by (field).
    assert (PI / 2 * (A / 180) < PI / 2 * 1); [|lra].
    apply Rmult_lt_compat_l; lra.
Qed.

Lemma tan_radians_45 : math.tan (math.radians (90 / 2)) = 1.
Proof.
  unfold math.tan, math.radians.
  replace (90 / 2 * PI / 180) with (PI / 4) by field.
  apply tan_PI4.
Qed.

Lemma conical_init_inv (D Td A : R) (c : Con.t) :
  Con.__init__ D Td A = Ok c ->
  math.tan (math.radians (A / 2)) <> 0 /\
  c = Con.SetLimits (Con.mk (D / 2) (Td / 2) (1 / math.tan (math.radians (A / 2)))
                    (Td / 2 * (1 / math.tan (math.radians (A / 2)))) 0 0) 0 0.
Proof.
  unfold Con.__init__, truediv.
  destruct (Req_dec_T _ 0) as [E|E]; simpl; [discriminate|].
  intros [= <-]. split; [exact E|reflexivity].
Qed.

Lemma conical_init_ok (D Td A : R) :
  math.tan (math.radians (A / 2)) <> 0 ->
  exists c, Con.__init__ D Td A = Ok c.
Proof.
  intros H. unfold Con.__init__, truediv.
  destruct (Req_dec_T _ 0) as [E|E]; [contradiction|].
  simpl. eexists; reflexivity.
Qed.

(** C2.  A conical calculator built from a full diameter [D], a tip
    diameter [Td] and an included angle [A] holds, after
    [SetLimits(zStart, zFinal)], [scale = 1 / tan(radians(A / 2))],
    [start = zStart + (Td / 2) * scale] and
    [stop = max(zStart - (D / 2) * scale + (Td / 2) * scale, zFinal)],
    and [WidthToDepth(w) = max(start - w * scale, stop)] for every width;
    the construction succeeds for [0 < A < 180]; with [D = 10], [Td = 0],
    [A = 90], [zStart = 0], [zFinal = -10] it gives [start = 0],
    [stop = -5], [scale = 1]. *)
Theorem conical_limits (D Td A zStart zFinal : R) :
  (forall c, Con.__init__ D Td A = Ok c ->
             conical_equations D Td A zStart zFinal (Con.SetLimits c zStart zFinal)) /\
  (0 < A < 180 -> exists c, Con.__init__ D Td A = Ok c) /\
  (exists c, Con.__init__ 10 0 90 = Ok c /\
             Con.start (Con.SetLimits c 0 (-10)) = 0 /\
             Con.stop (Con.SetLimits c 0 (-10)) = -5 /\
             Con.scale (Con.SetLimits c 0 (-10)) = 1).
Proof.
  split; [|split].
  - intros c Hc. apply conical_init_inv in Hc as [_ ->].
    unfold conical_equations, Con.WidthToDepth, Con.SetLimits; simpl.
    repeat split.
  - intros HA. apply conical_init_ok.
    apply Rgt_not_eq, Rlt_gt, tan_half_angle_pos, HA.
  - destruct (conical_init_ok 10 0 90) as [c Hc].
    { rewrite tan_radians_45. lra. }
    exists c. split; [exact Hc|].
    apply conical_init_inv in Hc as [_ ->].
    unfold Con.SetLimits; simpl. rewrite tan_radians_45.
    unfold max. repeat split.
    + lra.
    + destruct (Rlt_dec _ _); lra.
    + lra.
Qed.

(** ** Rounding *)

Lemma round_half_even_close (y : R) : Rabs (IZR (round_half_even y) - y) <= 1 / 2.
Proof.
  unfold round_half_even.
  destruct (base_fp y) as [Hge Hlt].
  assert (Hy : y = IZR (Int_part y) + frac_part y) by (unfold frac_part; lra).
  set (n := Int_part y) in *. set (f := frac_part y) in *.
  apply Rabs_le.
  destruct (Rlt_dec f (1 / 2)); [lra|].
  destruct (Rlt_dec (1 / 2) f); [rewrite plus_IZR; lra|].
  destruct (Z.even n); [lra|rewrite plus_IZR; lra].
Qed.

Lemma round_quantized (x : R) (ndigits : nat) :
  exists k : Z, round x ndigits = IZR k / 10 ^ ndigits /\
                Rabs (round x ndigits - x) <= 1 / 2 / 10 ^ ndigits.
Proof.
  exists (round_half_even (x * 10 ^ ndigits)). split; [reflexivity|].
  unfold round.
  assert (Hp : 0 < 10 ^ ndigits) by (apply pow_lt; lra).
  pose proof (round_half_even_close (x * 10 ^ ndigits)) as H.
  set (k := IZR (round_half_even (x * 10 ^ ndigits))) in *.
  replace (k / 10 ^ ndigits - x) with ((k - x * 10 ^ ndigits) / 10 ^ ndigits)
    by (field; lra).
  unfold Rdiv at 1. rewrite Rabs_mult, (Rabs_right (/ _)).
  - apply Rmult_le_compat_r; [|exact H].
    left. apply Rinv_0_lt_compat, Hp.
  - left. apply Rinv_0_lt_compat, Hp.
Qed.

(** ** The spherical calculator *)

Lemma max_left (a b : R) : b <= a -> max a b = a.
Proof. intros H. unfold max. destruct (Rlt_dec a b); lra. Qed.

Lemma spherical_radicand (rMax w : R) : 0 <= w -> w < rMax -> 0 <= rMax ^ 2 - w ^ 2.
Proof. intros. nra. Qed.

Lemma math_sqrt_ok (x : R) : 0 <= x -> math.sqrt x = Ok (sqrt x).
Proof.
  intros H. unfold math.sqrt. destruct (Rlt_dec x 0); [lra|reflexivity].
Qed.

Lemma spherical_inside (D zStart zFinal w : R) :
  0 <= w -> w < D / 2 ->
  Sph.WidthToDepth (Sph.SetLimits (Sph.__init__ D) zStart zFinal) w
  = Ok (max (zStart - (D / 2 - sqrt ((D / 2) ^ 2 - w ^ 2)))
            (max (zStart - D / 2) zFinal)).
Proof.
  intros H0 H1. unfold Sph.WidthToDepth, Sph.SetLimits, Sph.__init__; simpl Sph.rMax;
    simpl Sph.r_squared; simpl Sph.start; simpl Sph.stop.
  destruct (Rlt_dec w (D / 2)); [|lra].
  rewrite math_sqrt_ok by (apply spherical_radicand; assumption).
  reflexivity.
Qed.

Lemma spherical_outside (D zStart zFinal w : R) :
  D / 2 <= w ->
  Sph.WidthToDepth (Sph.SetLimits (Sph.__init__ D) zStart zFinal) w
  = Ok (max (zStart - D / 2) (max (zStart - D / 2) zFinal)).
Proof.
  intros H1. unfold Sph.WidthToDepth, Sph.SetLimits, Sph.__init__; simpl Sph.rMax;
    simpl Sph.r_squared; simpl Sph.start; simpl Sph.stop.
  destruct (Rlt_dec w (D / 2)); [lra|reflexivity].
Qed.

(** C5.  For the spherical calculator of diameter [D] with limits set
    and a width [w >= 0]: below the radius the radicand is not negative,
    [math.sqrt] does not raise and the depth is
    [max(start - (rMax - sqrt(rMax^2 - w^2)), stop)], the same with the
    radicand clamped at 0; from the radius on it is
    [max(start - rMax, stop)]; for [D = 10], [zFinal = -10] the depth at
    5 is -5 and the depth at 2.5 is [-(5 - sqrt(25 - 6.25))]. *)
Theorem spherical_depth (D zStart zFinal w : R) :
  0 <= w ->
  let c := Sph.SetLimits (Sph.__init__ D) zStart zFinal in
  Sph.rMax c = D / 2 /\
  (w < Sph.rMax c ->
   0 <= Sph.rMax c ^ 2 - w ^ 2 /\
   Sph.WidthToDepth c w
   = Ok (max (Sph.start c
              - (Sph.rMax c - sqrt (max (Sph.rMax c ^ 2 - w ^ 2) 0)))
             (Sph.stop c))) /\
  (Sph.rMax c <= w ->
   Sph.WidthToDepth c w = Ok (max (Sph.start c - Sph.rMax c) (Sph.stop c))) /\
  (let c10 := Sph.SetLimits (Sph.__init__ 10) 0 (-10) in
   Sph.WidthToDepth c10 5 = Ok (-5) /\
   Sph.WidthToDepth c10 (5 / 2) = Ok (- (5 - sqrt (25 - 6.25)))).
Proof.
  intros Hw c. split; [reflexivity|]. split; [|split].
  - intros Hlt. simpl in Hlt.
    pose proof (spherical_radicand _ _ Hw Hlt) as Hr.
    split; [exact Hr|].
    unfold c. rewrite spherical_inside by assumption.
    change (Sph.rMax (Sph.SetLimits (Sph.__init__ D) zStart zFinal)) with (D / 2).
    change (Sph.start (Sph.SetLimits (Sph.__init__ D) zStart zFinal)) with zStart.
    change (Sph.stop (Sph.SetLimits (Sph.__init__ D) zStart zFinal))
      with (max (zStart - D / 2) zFinal).
    rewrite (max_left ((D / 2) ^ 2 - w ^ 2) 0) by exact Hr. reflexivity.
  - intros Hge. simpl in Hge. unfold c. rewrite spherical_outside by assumption.
    reflexivity.
  - split.
    + rewrite spherical_outside by lra. f_equal.
      unfold max. repeat destruct (Rlt_dec _ _); lra.
    + rewrite spherical_inside by lra. f_equal.
      replace ((10 / 2) ^ 2 - (5 / 2) ^ 2) with (25 - 6.25) by lra.
      assert (Hs : 0 <= sqrt (25 - 6.25) <= 5).
      { split; [apply sqrt_pos|].
        apply Rle_trans with (sqrt (5 * 5)).
        - apply sqrt_le_1_alt. lra.
        - rewrite sqrt_square; lra. }
      unfold max. repeat destruct (Rlt_dec _ _); lra.
Qed.

(** ** Python lists *)

Lemma list_getitem_nonneg {A : Type} (l : list A) (i : Z) :
  (0 <= i)%Z ->
  list_getitem l i = match nth_error l (Z.to_nat i) with
                     | Some a => Ok a
                     | None => Raise IndexError
                     end.
Proof.
  intros Hi. unfold list_getitem.
  destruct (Z.ltb_spec i 0); [lia|].
  destruct (Z.ltb_spec i 0); [lia|]. cbn [orb].
  destruct (Z.leb_spec (Z.of_nat (List.length l)) i) as [Hle|Hlt]; [|reflexivity].
  assert (Hn : nth_error l (Z.to_nat i) = None) by (apply nth_error_None; lia).
  rewrite Hn. reflexivity.
Qed.

Lemma list_getitem_neg {A : Type} (l : list A) (k : nat) :
  (0 < k <= List.length l)%nat ->
  list_getitem l (- Z.of_nat k)
  = match nth_error l (List.length l - k) with
    | Some a => Ok a
    | None => Raise IndexError
    end.
Proof.
  intros Hk. unfold list_getitem.
  destruct (Z.ltb_spec (- Z.of_nat k) 0); [|lia].
  destruct (Z.ltb_spec (- Z.of_nat k + Z.of_nat (List.length l)) 0); [lia|].
  cbn [orb].
  destruct (Z.leb_spec (Z.of_nat (List.length l))
                       (- Z.of_nat k + Z.of_nat (List.length l))); [lia|].
  replace (Z.to_nat (- Z.of_nat k + Z.of_nat (List.length l)))
    with (List.length l - k)%nat by lia.
  reflexivity.
Qed.


(** ** Depth and width *)

Lemma max_antitone (s stop d1 d2 : R) :
  d1 <= d2 -> max (s - d2) stop <= max (s - d1) stop.
Proof. intros H. apply max_mono. lra. Qed.

Lemma max_bounds (s stop d : R) :
  0 <= d -> stop <= max (s - d) stop <= max s stop.
Proof.
  intros H. split; [apply max_ge_r|]. apply max_mono. lra.
Qed.

Lemma Rabs_antitone (s stop d1 d2 : R) :
  s <= 0 -> 0 <= d1 <= d2 ->
  Rabs (max (s - d1) stop) <= Rabs (max (s - d2) stop).
Proof.
  intros Hs Hd. unfold max.
  destruct (Rlt_dec (s - d1) stop), (Rlt_dec (s - d2) stop); try lra.
  - rewrite !Rabs_left1 by lra. lra.
  - destruct (Rle_dec stop 0).
    + rewrite !Rabs_left1 by lra. lra.
    + lra.
Qed.

Lemma spherical_depth_mono (r w1 w2 : R) :
  0 <= w1 <= w2 -> w2 < r ->
  0 <= r - sqrt (r ^ 2 - w1 ^ 2) <= r - sqrt (r ^ 2 - w2 ^ 2).
Proof.
  intros H1 H2.
  assert (sqrt (r ^ 2 - w2 ^ 2) <= sqrt (r ^ 2 - w1 ^ 2))
    by (apply sqrt_le_1_alt; nra).
  assert (sqrt (r ^ 2 - w1 ^ 2) <= sqrt (r * r))
    by (apply sqrt_le_1_alt; nra).
  rewrite sqrt_square in * by lra. lra.
Qed.

Lemma spherical_depth_le_radius (r w : R) :
  0 <= w -> w < r -> r - sqrt (r ^ 2 - w ^ 2) <= r.
Proof. intros. pose proof (sqrt_pos (r ^ 2 - w ^ 2)). lra. Qed.

(** C4, as amended.  For a conical calculator with [0 < A < 180], a
    spherical calculator and the unsupported one, with limits set, and
    widths [0 <= w1 <= w2]: both depths are returned, the depth at [w2]
    is not above the depth at [w1], each depth lies between [stop] and
    [max(start, stop)] with [zFinal <= stop] (the unsupported calculator
    returns 0), and the magnitude does not decrease when [start <= 0]. *)
Theorem depth_monotone_and_clamped
  (calc0 : Calculator) (zStart zFinal w1 w2 : R) :
  constructed calc0 -> 0 <= w1 <= w2 ->
  let calc := SetLimits calc0 zStart zFinal in
  exists d1 d2 : R,
    WidthToDepth calc w1 = Ok d1 /\ WidthToDepth calc w2 = Ok d2 /\
    d2 <= d1 /\
    within_limits calc zFinal d1 /\ within_limits calc zFinal d2 /\
    (start_not_above_zero calc -> Rabs d1 <= Rabs d2).
Proof.
  intros Hc Hw calc. destruct Hc as [D Td A c HA Hc| D |].
  - pose proof (tan_half_angle_pos A HA) as Ht.
    apply conical_init_inv in Hc as [_ ->].
    set (sc := 1 / math.tan (math.radians (A / 2))).
    assert (Hsc : 0 < sc) by (apply Rdiv_lt_0_compat; lra).
    eexists _, _. split; [reflexivity|]. split; [reflexivity|].
    unfold within_limits, start_not_above_zero, calc; cbn.
    unfold Con.WidthToDepth; cbn. fold sc.
    assert (0 <= w1 * sc <= w2 * sc) by nra.
    repeat split.
    + apply max_antitone; lra.
    + apply max_bounds; lra.
    + apply max_bounds; lra.
    + apply max_ge_r.
    + apply max_bounds; nra.
    + apply max_bounds; nra.
    + apply max_ge_r.
    + intros Hs. apply Rabs_antitone; lra.
  - unfold within_limits, start_not_above_zero, calc; cbn.
    change (SphericalWidthToDepthCalculator.SetLimits (Sph.__init__ D) zStart zFinal)
      with (Sph.SetLimits (Sph.__init__ D) zStart zFinal).
    destruct (Rlt_dec w2 (D / 2)) as [H2|H2].
    + rewrite !spherical_inside by lra.
      pose proof (spherical_depth_mono (D / 2) w1 w2 Hw H2).
      eexists _, _. split; [reflexivity|]. split; [reflexivity|].
      repeat split.
      * apply max_antitone; lra.
      * apply max_bounds; lra.
      * apply max_bounds; lra.
      * apply max_ge_r.
      * apply max_bounds; lra.
      * apply max_bounds; lra.
      * apply max_ge_r.
      * intros Hs. apply Rabs_antitone; lra.
    + rewrite (spherical_outside D zStart zFinal w2) by lra.
      assert (Hstop : max (zStart - D / 2) (max (zStart - D / 2) zFinal)
                      = max (zStart - D / 2) zFinal).
      { unfold max. repeat destruct (Rlt_dec _ _); lra. }
      rewrite Hstop.
      destruct (Rlt_dec w1 (D / 2)) as [H1|H1].
      * rewrite spherical_inside by lra.
        pose proof (spherical_depth_mono (D / 2) w1 w1 ltac:(lra) H1).
        pose proof (spherical_depth_le_radius (D / 2) w1 ltac:(lra) H1).
        eexists _, _. split; [reflexivity|]. split; [reflexivity|].
        repeat split.
        -- apply max_ge_r.
        -- apply max_bounds; lra.
        -- apply max_bounds; lra.
        -- apply max_ge_r.
        -- lra.
        -- apply max_ge_r.
        -- apply max_ge_r.
        -- intros Hs.
           replace (Rabs (max (zStart - D / 2) zFinal))
             with (Rabs (max (zStart - D / 2) (max (zStart - D / 2) zFinal)))
             by (f_equal; exact Hstop).
           apply Rabs_antitone; lra.
      * rewrite spherical_outside by lra. rewrite Hstop.
        eexists _, _. split; [reflexivity|]. split; [reflexivity|].
        repeat split; try lra; try apply max_ge_r.
  - exists 0, 0. unfold within_limits, start_not_above_zero, calc; cbn.
    repeat split; try reflexivity; lra.
Qed.

(** C4, counterexample: the 90 degree tool of diameter 10 with a tip of
    diameter 2 and limits 0 and -10 returns 1 at width 0 and 0 at width
    1; the magnitude decreases and the first depth is above [zStart]. *)
Lemma depth_magnitude_counterexample :
  exists c, Con.__init__ 10 2 90 = Ok c /\
    let calc := SetLimits (Conical c) 0 (-10) in
    WidthToDepth calc 0 = Ok 1 /\ WidthToDepth calc 1 = Ok 0 /\
    0 <= 0 <= 1 /\ ~ (Rabs 1 <= Rabs 0) /\ ~ (1 <= 0).
Proof.
  destruct (conical_init_ok 10 2 90) as [c Hc].
  { rewrite tan_radians_45. lra. }
  exists c. split; [exact Hc|].
  apply conical_init_inv in Hc as [_ ->]. cbn.
  unfold Con.WidthToDepth; cbn. rewrite tan_radians_45.
  repeat split.
  - f_equal. unfold max. repeat destruct (Rlt_dec _ _); lra.
  - f_equal. unfold max. repeat destruct (Rlt_dec _ _); lra.
  - lra.
  - lra.
  - rewrite Rabs_R1, Rabs_R0. lra.
  - lra.
Qed.

(** ** The factory and the operation *)

Section Operation.
Context {collaborators : Collaborators}.

Lemma set_console_same (w : World) : set_console w (console w) = w.
Proof. destruct w; reflexivity. Qed.

Lemma factory_vbit_wide_angle (tool : Tool) (bitShape : string)
  (zStart zFinal : R) (c : Console) :
  endswith bitShape "v-bit.fcstd" = true ->
  180 <= CuttingEdgeAngle tool ->
  PathWidthToDepth.WidthToDepthCalculator tool bitShape zStart zFinal c
  = (Raise (NameError "translate"), c).
Proof.
  intros Hs Ha. unfold PathWidthToDepth.WidthToDepthCalculator.
  rewrite Hs. destruct (Rge_dec (CuttingEdgeAngle tool) 180) as [_|n]; [|lra].
  reflexivity.
Qed.

Lemma opExecute_vbit_wide_angle
  (model0 : Model) (models : list Model) (obj : Obj) (w : World) :
  let tool := ToolController_Tool obj in
  endswith (BitShape tool) "v-bit.fcstd" = true ->
  180 <= CuttingEdgeAngle tool ->
  PathWidthToDepth.WidthToDepthCalculator
    tool (BitShape tool) (ZMax model0) (FinalDepth obj) (console w)
  = (Raise (NameError "translate"), console w)
  /\ opExecute (model0 :: models) obj w = (Raise (NameError "translate"), w).
Proof.
  intros tool Hs Ha.
  pose proof (factory_vbit_wide_angle tool (BitShape tool) (ZMax model0)
                (FinalDepth obj) (console w) Hs Ha) as Hf.
  split; [exact Hf|].
  unfold opExecute. cbv zeta.
  change (list_getitem (model0 :: models) 0) with (Ok model0).
  cbv iota beta. unfold tool in Hf. rewrite Hf.
  rewrite set_console_same. reflexivity.
Qed.

End Operation.

(** ** Simplification of a wire's edges *)

Lemma list_getitem_last2 {A : Type} (front : list A) (p2 p1 : A) :
  list_getitem (front ++ [p2; p1]) (-2) = Ok p2 /\
  list_getitem (front ++ [p2; p1]) (-1) = Ok p1.
Proof.
  split.
  - change (-2)%Z with (- Z.of_nat 2)%Z.
    rewrite (list_getitem_neg (front ++ [p2; p1]) 2)
      by (rewrite length_app; cbn; lia).
    rewrite length_app. cbn [List.length].
    replace (List.length front + 2 - 2)%nat with (List.length front + 0)%nat by lia.
    rewrite nth_error_app2 by lia.
    replace (List.length front + 0 - List.length front)%nat with 0%nat by lia.
    reflexivity.
  - change (-1)%Z with (- Z.of_nat 1)%Z.
    rewrite (list_getitem_neg (front ++ [p2; p1]) 1)
      by (rewrite length_app; cbn; lia).
    rewrite length_app. cbn [List.length].
    replace (List.length front + 2 - 1)%nat with (List.length front + 1)%nat by lia.
    rewrite nth_error_app2 by lia.
    replace (List.length front + 1 - List.length front)%nat with 1%nat by lia.
    reflexivity.
Qed.

Lemma list_insert_before_last {A : Type} (front : list A) (p1 m : A) :
  list_insert (front ++ [p1]) (-1) m = front ++ [m; p1].
Proof.
  unfold list_insert. rewrite length_app. cbn [List.length].
  destruct (Z.ltb_spec (-1) 0); [|lia].
  replace (Z.to_nat (Z.max 0 (-1 + Z.of_nat (List.length front + 1))))
    with (List.length front + 0)%nat by lia.
  rewrite firstn_app_2, skipn_app.
  rewrite skipn_all2 by lia.
  replace (List.length front + 0 - List.length front)%nat with 0%nat by lia.
  cbn. rewrite app_nil_r. reflexivity.
Qed.

Section Simplify.
Context {collaborators : Collaborators}.

Lemma median_midpoint (v1 v2 : FreeCAD.Vector) : median v1 v2 = midpoint v1 v2.
Proof.
  unfold median, midpoint, FreeCAD.add, FreeCAD.scale, FreeCAD.sub; cbn.
  f_equal; field.
Qed.

Lemma pairs_even (pts : list FreeCAD.Vector) :
  Nat.even (List.length pts) = true -> flat_map unpair (pairs pts) = pts.
Proof.
  remember (List.length pts) as n eqn:Hn.
  revert pts Hn. induction n as [n IH] using lt_wf_ind. intros pts Hn H.
  destruct pts as [|p1 [|p2 rest]].
  - reflexivity.
  - subst n. discriminate.
  - cbn [pairs flat_map unpair fst snd app].
    rewrite (IH (List.length rest)); subst n; cbn in *; auto; lia.
Qed.

Lemma even_points_even (sp : list FreeCAD.Vector) :
  Nat.even (List.length sp) = true -> even_points sp = Ok sp.
Proof.
  intros H. unfold even_points.
  assert (Hm : (List.length sp mod 2 =? 0)%nat = true).
  { apply Nat.eqb_eq. apply Nat.even_spec in H. destruct H as [k ->].
    rewrite Nat.mul_comm. apply Nat.Div0.mod_mul. }
  rewrite Hm. reflexivity.
Qed.

Lemma even_points_odd (front : list FreeCAD.Vector) (p2 p1 : FreeCAD.Vector) :
  Nat.odd (List.length (front ++ [p2; p1])) = true ->
  even_points (front ++ [p2; p1]) = Ok (front ++ [p2; midpoint p2 p1; p1]).
Proof.
  intros H. unfold even_points.
  assert (Hm : (List.length (front ++ [p2; p1]) mod 2 =? 0)%nat = false).
  { apply Nat.eqb_neq. apply Nat.odd_spec in H. destruct H as [k ->].
    rewrite Nat.add_comm, Nat.mul_comm, Nat.Div0.mod_add. cbn. lia. }
  rewrite Hm. cbn [negb].
  destruct (list_getitem_last2 front p2 p1) as [-> ->]. cbn [bind].
  change (front ++ [p2; p1]) with (front ++ [p2] ++ [p1]).
  rewrite app_assoc, list_insert_before_last, <- app_assoc.
  rewrite median_midpoint. reflexivity.
Qed.


Lemma points_cons (e0 : PartEdge) (rest : list PartEdge) :
  points (e0 :: rest)
  = Ok (firstPoint e0
        :: removelast (map lastPoint (e0 :: rest))
        ++ [lastPoint (last (e0 :: rest) e0)]).
Proof.
  unfold points. rewrite list_getitem_nonneg by lia.
  change (Z.to_nat 0) with 0%nat. cbn [nth_error bind].
  do 2 f_equal.
  destruct (exists_last (l := e0 :: rest)) as (l' & x & ->); [discriminate|].
  rewrite last_last, map_last, removelast_last. reflexivity.
Qed.

Lemma odd_split (a b : FreeCAD.Vector) (mid : list FreeCAD.Vector) :
  Nat.odd (List.length (a :: mid ++ [b])) = true ->
  exists front p2, a :: mid ++ [b] = front ++ [p2; b].
Proof.
  intros H. destruct (exists_last (l := a :: mid)) as (front & p2 & E);
    [discriminate|].
  exists front, p2.
  change (a :: mid ++ [b]) with ((a :: mid) ++ [b]).
  rewrite E, <- app_assoc. reflexivity.
Qed.

(** C9.  With a simplification that keeps the first and the last point,
    [simplify_edges] on a wire with at least one edge: when the
    simplified list has an odd length the midpoint of its last two points
    is put between them; the final list has an even length, begins with
    the first point of the first edge and ends with the last point of the
    last edge; the segments are made of the points [2i] and [2i + 1], and
    these pairs hold every point. *)
Theorem simplify_edges_whole_segments (e0 : PartEdge) (rest : list PartEdge) :
  preserves_endpoints ->
  let edges := e0 :: rest in
  exists sp pts : list FreeCAD.Vector,
    (pts0 <- points edges ;; simplify3dLine pts0)%result = Ok sp /\
    simplified_points edges = Ok pts /\
    (Nat.odd (List.length sp) = true ->
     exists front p2 p1, sp = front ++ [p2; p1] /\
                         pts = front ++ [p2; midpoint p2 p1; p1]) /\
    (Nat.even (List.length sp) = true -> pts = sp) /\
    Nat.even (List.length pts) = true /\
    hd_error pts = Some (firstPoint e0) /\
    last pts origin = lastPoint (last edges e0) /\
    simplify_edges edges
    = mapM (fun pp => LineSegment (fst pp) (snd pp)) (pairs pts) /\
    flat_map unpair (pairs pts) = pts.
Proof.
  intros Hs edges. unfold edges.
  destruct (Hs (firstPoint e0) (lastPoint (last (e0 :: rest) e0))
               (removelast (map lastPoint (e0 :: rest)))) as [mid' Hmid].
  set (b := lastPoint (last (e0 :: rest) e0)) in *.
  set (a := firstPoint e0) in *.
  exists (a :: mid' ++ [b]).
  destruct (Nat.odd (List.length (a :: mid' ++ [b]))) eqn:Hodd.
  - destruct (odd_split a b mid' Hodd) as (front & p2 & E).
    exists (front ++ [p2; midpoint p2 b; b]).
    assert (Hsp : simplified_points (e0 :: rest)
                  = Ok (front ++ [p2; midpoint p2 b; b])).
    { unfold simplified_points. rewrite points_cons. cbn [bind].
      fold a b. rewrite Hmid. cbn [bind]. rewrite E.
      apply even_points_odd. rewrite <- E. exact Hodd. }
    assert (Hlen : Nat.even (List.length (front ++ [p2; midpoint p2 b; b])) = true).
    { rewrite E in Hodd. rewrite length_app in *. cbn [List.length] in *.
      rewrite <- Nat.negb_even in Hodd.
      replace (List.length front + 3)%nat with (S (List.length front + 2)) by lia.
      rewrite Nat.even_succ, <- Nat.negb_even. exact Hodd. }
    split; [|split; [exact Hsp|]].
    { rewrite points_cons. cbn [bind]. exact Hmid. }
    split; [|split; [|split; [exact Hlen|split; [|split; [|split]]]]].
    + intros _. exists front, p2, b. split; [exact E|reflexivity].
    + intros He. rewrite <- Nat.negb_even, He in Hodd. discriminate.
    + destruct front as [|f0 front'].
      * cbn in E. injection E as E1 E2.
        destruct mid'; cbn in E2; [discriminate|].
        destruct mid'; discriminate.
      * cbn in E. injection E as <- _. reflexivity.
    + change (front ++ [p2; midpoint p2 b; b])
        with (front ++ [p2; midpoint p2 b] ++ [b]).
      rewrite app_assoc. apply last_last.
    + unfold simplify_edges. rewrite Hsp. reflexivity.
    + apply pairs_even, Hlen.
  - assert (Heven : Nat.even (List.length (a :: mid' ++ [b])) = true).
    { rewrite <- Nat.negb_odd, Hodd. reflexivity. }
    exists (a :: mid' ++ [b]).
    assert (Hsp : simplified_points (e0 :: rest) = Ok (a :: mid' ++ [b])).
    { unfold simplified_points. rewrite points_cons. cbn [bind].
      fold a b. rewrite Hmid. cbn [bind]. apply even_points_even, Heven. }
    split; [|split; [exact Hsp|]].
    { rewrite points_cons. cbn [bind]. exact Hmid. }
    split; [|split; [|split; [exact Heven|split; [|split; [|split]]]]].
    + intros Habs. discriminate.
    + reflexivity.
    + reflexivity.
    + change (a :: mid' ++ [b]) with ((a :: mid') ++ [b]). apply last_last.
    + unfold simplify_edges. rewrite Hsp. reflexivity.
    + apply pairs_even, Heven.
Qed.

End Simplify.

(** ** A run of the operation *)

Section Run.
Context {collaborators : Collaborators}.
Variables (obj : Obj) (calc : Calculator).

Lemma commandlist_append_to_last (w : World) (pWire : list PartEdge) :
  commandlist (append_to_last_wires w pWire) = commandlist w.
Proof.
  unfold append_to_last_wires.
  destruct (rev (VD w)) as [|[[f vd] wires] before]; reflexivity.
Qed.

Lemma regions_commandlist (faces : list Face) (vw : list Wire) (w : World) :
  commandlist (snd (regions obj calc faces vw w)) = commandlist w.
Proof.
  revert vw w. induction faces as [|f faces IH]; intros vw w; cbn [regions].
  - reflexivity.
  - destruct (region obj calc f) as [[vd wires]|e]; [|reflexivity].
    rewrite IH. reflexivity.
Qed.

Lemma paths_commandlist (ws : list Wire) (pathlist : list Command) (w : World) :
  commandlist (snd (paths obj calc ws pathlist w)) = commandlist w.
Proof.
  revert pathlist w. induction ws as [|vw ws IH]; intros pathlist w; cbn [paths].
  - reflexivity.
  - destruct (_getPartEdges vw calc) as [[|p pWire]|e]; [apply IH| |reflexivity].
    destruct (cutWire obj (p :: pWire)) as [cmds|e].
    + rewrite IH. apply commandlist_append_to_last.
    + apply commandlist_append_to_last.
Qed.

Lemma buildPathMedial_failure (faces : list Face) (w : World) (e : exn) :
  fst (buildPathMedial obj calc faces w) = Raise e ->
  commandlist (snd (buildPathMedial obj calc faces w)) = commandlist w.
Proof.
  unfold buildPathMedial.
  pose proof (regions_commandlist faces [] (set_VD w [])) as Hr.
  destruct (regions obj calc faces [] (set_VD w [])) as [[vw|e1] w1];
    cbn [fst snd] in *; [|intros _; exact Hr].
  destruct (if (_sorting =? "global")%string then _ else _) as [vw'|e2];
    cbn [fst snd]; [|intros _; exact Hr].
  pose proof (paths_commandlist vw' [mkCommand "(starting)" []] w1) as Hp.
  destruct (paths obj calc vw' _ w1) as [[pl|e3] w2]; cbn [fst snd] in *.
  - discriminate.
  - intros _. rewrite Hp. exact Hr.
Qed.

Lemma log_append_to_last (w : World) (pWire : list PartEdge) :
  pathlog (append_to_last_wires w pWire) = pathlog w /\
  console (append_to_last_wires w pWire) = console w.
Proof.
  unfold append_to_last_wires.
  destruct (rev (VD w)) as [|[[f vd] wires] before]; split; reflexivity.
Qed.

Lemma regions_log (faces : list Face) (vw : list Wire) (w : World) :
  pathlog (snd (regions obj calc faces vw w)) = pathlog w /\
  console (snd (regions obj calc faces vw w)) = console w.
Proof.
  revert vw w. induction faces as [|f faces IH]; intros vw w; cbn [regions].
  - split; reflexivity.
  - destruct (region obj calc f) as [[vd wires]|e]; [|split; reflexivity].
    destruct (IH (vw ++ wires)
                 (set_VD w (VD w ++ [(f, vd, map VoronoiWire wires)]))) as [-> ->].
    split; reflexivity.
Qed.

Lemma paths_log (ws : list Wire) (pathlist : list Command) (w : World) :
  pathlog (snd (paths obj calc ws pathlist w)) = pathlog w /\
  console (snd (paths obj calc ws pathlist w)) = console w.
Proof.
  revert pathlist w. induction ws as [|vw ws IH]; intros pathlist w; cbn [paths].
  - split; reflexivity.
  - destruct (_getPartEdges vw calc) as [[|p pWire]|e];
      [apply IH| |split; reflexivity].
    destruct (cutWire obj (p :: pWire)) as [cmds|e].
    + destruct (IH (pathlist ++ cmds) (append_to_last_wires w (p :: pWire)))
        as [-> ->].
      apply log_append_to_last.
    + apply log_append_to_last.
Qed.

Lemma buildPathMedial_log (faces : list Face) (w : World) :
  pathlog (snd (buildPathMedial obj calc faces w)) = pathlog w /\
  console (snd (buildPathMedial obj calc faces w)) = console w.
Proof.
  unfold buildPathMedial.
  pose proof (regions_log faces [] (set_VD w [])) as Hr.
  destruct (regions obj calc faces [] (set_VD w [])) as [[vw|e1] w1];
    cbn [fst snd] in *; [|exact Hr].
  destruct (if (_sorting =? "global")%string then _ else _) as [vw'|e2];
    cbn [fst snd]; [|exact Hr].
  pose proof (paths_log vw' [mkCommand "(starting)" []] w1) as Hp.
  destruct (paths obj calc vw' _ w1) as [[pl|e3] w2]; cbn [fst snd] in *.
  - unfold set_commandlist. cbn [pathlog console].
    destruct Hp as [-> ->]. exact Hr.
  - destruct Hp as [-> ->]. exact Hr.
Qed.

Lemma regions_failure (before after : list Face) (f : Face) (e : exn)
  (vw : list Wire) (w : World) :
  Forall (fun g => exists r, region obj calc g = Ok r) before ->
  region obj calc f = Raise e ->
  exists w', regions obj calc (before ++ f :: after) vw w = (Raise e, w') /\
             map face_of (VD w') = map face_of (VD w) ++ before.
Proof.
  intros Hb Hf. revert vw w.
  induction Hb as [|g before [[vd wires] Hg] Hb IH]; intros vw w.
  - cbn [app regions]. rewrite Hf. exists w. rewrite app_nil_r. auto.
  - cbn [app regions]. rewrite Hg.
    destruct (IH (vw ++ wires)
                 (set_VD w (VD w ++ [(g, vd, map VoronoiWire wires)])))
      as (w' & Hw' & HVD).
    exists w'. split; [exact Hw'|].
    rewrite HVD. cbn [set_VD VD]. rewrite map_app, <- app_assoc. reflexivity.
Qed.

End Run.

Section Execute.
Context {collaborators : Collaborators}.

(** C7.  An exception in [buildPathMedial] leaves [self.commandlist] as
    it was; when the work on a face raises after other faces succeeded,
    [buildPathMedial] raises that exception, the command list is
    unchanged and [VD] holds the earlier faces only; [opExecute] then
    returns with the command list unchanged and one message logged. *)
Theorem failure_commits_no_output (obj : Obj) (calc : Calculator) :
  (forall (faces : list Face) (w : World) (e : exn),
     fst (buildPathMedial obj calc faces w) = Raise e ->
     commandlist (snd (buildPathMedial obj calc faces w)) = commandlist w)
  /\
  (forall (before after : list Face) (f : Face) (w : World) (e : exn),
     Forall (fun g => exists r, region obj calc g = Ok r) before ->
     region obj calc f = Raise e ->
     exists w',
       buildPathMedial obj calc (before ++ f :: after) w = (Raise e, w') /\
       commandlist w' = commandlist w /\
       map face_of (VD w') = before)
  /\
  (forall (model0 : Model) (models : list Model) (w : World) (c : Console)
          (e : exn),
     let tool := ToolController_Tool obj in
     let faces := gather_faces (model0 :: models) obj in
     PathWidthToDepth.WidthToDepthCalculator
       tool (BitShape tool) (ZMax model0) (FinalDepth obj) (console w)
     = (Ok calc, c) ->
     SupportsVcarve calc = true ->
     faces <> [] ->
     fst (buildPathMedial obj calc faces (set_console w c)) = Raise e ->
     exists w',
       opExecute (model0 :: models) obj w = (Ok tt, w') /\
       commandlist w' = commandlist w /\
       pathlog w' = pathlog w ++ [processing_message]).
Proof.
  split; [|split].
  - intros faces w e. apply buildPathMedial_failure.
  - intros before after f w e Hb Hf.
    destruct (regions_failure obj calc before after f e [] (set_VD w []) Hb Hf)
      as (w' & Hw' & HVD).
    exists w'. unfold buildPathMedial. rewrite Hw'.
    split; [reflexivity|]. split; [|exact HVD].
    pose proof (regions_commandlist obj calc (before ++ f :: after) []
                  (set_VD w [])) as Hc.
    rewrite Hw' in Hc. exact Hc.
  - intros model0 models w c e tool faces Hcalc Hsup Hfaces Hraise.
    pose proof (buildPathMedial_failure obj calc faces (set_console w c) e Hraise)
      as Hkeep.
    unfold opExecute. cbv zeta.
    change (list_getitem (model0 :: models) 0) with (Ok model0).
    cbv iota beta. unfold tool in Hcalc. rewrite Hcalc. rewrite Hsup.
    cbn [negb]. fold faces.
    destruct faces as [|f0 faces'] eqn:Ef; [contradiction|].
    destruct (buildPathMedial_log obj calc (f0 :: faces') (set_console w c))
      as [Hlog _].
    destruct (buildPathMedial obj calc (f0 :: faces') (set_console w c))
      as [r w1]. cbn [fst snd] in *. subst r.
    eexists. split; [reflexivity|]. split.
    + cbn. exact Hkeep.
    + cbn. rewrite Hlog. reflexivity.
Qed.

End Execute.

Close Scope R_scope.

(** ** Dictionaries as tabulated functions *)

Section Tabulate.
Context {V : Type}.

Lemma keys_tabulate (keys : list nat) (f : nat -> V) :
  dict.keys (tabulate keys f) = keys.
Proof.
  unfold dict.keys, tabulate. rewrite map_map. cbn. apply map_id.
Qed.

Lemma tabulate_ext (keys : list nat) (f g : nat -> V) :
  (forall k, In k keys -> f k = g k) -> tabulate keys f = tabulate keys g.
Proof.
  intros H. unfold tabulate. apply map_ext_in. intros k Hk. rewrite H; auto.
Qed.

Lemma get_tabulate (keys : list nat) (f : nat -> V) (k : nat) :
  In k keys -> dict.get (tabulate keys f) k = Some (f k).
Proof.
  induction keys as [|k' keys IH]; intros Hk; [contradiction|].
  cbn. destruct (Nat.eqb_spec k' k) as [->|Hne]; [reflexivity|].
  apply IH. destruct Hk; [contradiction|assumption].
Qed.

Lemma get_tabulate_none (keys : list nat) (f : nat -> V) (k : nat) :
  ~ In k keys -> dict.get (tabulate keys f) k = None.
Proof.
  induction keys as [|k' keys IH]; intros Hk; [reflexivity|].
  cbn. destruct (Nat.eqb_spec k' k) as [->|Hne].
  - exfalso. apply Hk. left. reflexivity.
  - apply IH. intros H. apply Hk. right. exact H.
Qed.

Lemma getitem_tabulate (keys : list nat) (f : nat -> V) (k : nat) :
  In k keys -> dict.getitem (tabulate keys f) k = Ok (f k).
Proof.
  intros Hk. unfold dict.getitem. rewrite get_tabulate by assumption. reflexivity.
Qed.

Lemma setitem_tabulate (keys : list nat) (f : nat -> V) (k : nat) (v : V) :
  NoDup keys -> In k keys ->
  dict.setitem (tabulate keys f) k v
  = tabulate keys (fun k' => if k' =? k then v else f k').
Proof.
  induction keys as [|k' keys IH]; intros Hnd Hk; [contradiction|].
  inversion Hnd as [|? ? Hnotin Hnd']; subst.
  cbn. destruct (Nat.eqb_spec k' k) as [->|Hne].
  - f_equal. apply tabulate_ext. intros k'' Hk''.
    destruct (Nat.eqb_spec k'' k) as [->|_]; [contradiction|reflexivity].
  - f_equal. apply IH; [assumption|].
    destruct Hk; [contradiction|assumption].
Qed.

Lemma setitem_fresh (d : dict.t V) (k : nat) (v : V) :
  ~ In k (dict.keys d) -> dict.setitem d k v = d ++ [(k, v)].
Proof.
  induction d as [|[k' v'] d IH]; intros Hk; [reflexivity|].
  cbn in *. destruct (Nat.eqb_spec k' k) as [->|Hne].
  - exfalso. apply Hk. left. reflexivity.
  - f_equal. apply IH. intros H. apply Hk. right. exact H.
Qed.

Lemma remove_tabulate (keys : list nat) (f : nat -> V) (k : nat) :
  NoDup keys ->
  dict.remove (tabulate keys f) k
  = tabulate (filter (fun k' => negb (k' =? k)) keys) f.
Proof.
  induction keys as [|k' keys IH]; intros Hnd; [reflexivity|].
  inversion Hnd as [|? ? Hnotin Hnd']; subst.
  cbn. destruct (Nat.eqb_spec k' k) as [->|Hne]; cbn.
  - f_equal. symmetry. apply forallb_filter_id.
    apply forallb_forall. intros k'' Hk''.
    destruct (Nat.eqb_spec k'' k) as [->|_]; [contradiction|reflexivity].
  - f_equal. apply IH. assumption.
Qed.

Lemma delitem_tabulate (keys : list nat) (f : nat -> V) (k : nat) :
  NoDup keys -> In k keys ->
  dict.delitem (tabulate keys f) k
  = Ok (tabulate (filter (fun k' => negb (k' =? k)) keys) f).
Proof.
  intros Hnd Hk. unfold dict.delitem.
  rewrite get_tabulate by assumption. rewrite remove_tabulate by assumption.
  reflexivity.
Qed.

Lemma dict_is_tabulate (d : dict.t V) (f : nat -> V) :
  NoDup (dict.keys d) ->
  (forall k, In k (dict.keys d) -> dict.get d k = Some (f k)) ->
  d = tabulate (dict.keys d) f.
Proof.
  induction d as [|[k v] d IH]; intros Hnd Hget; [reflexivity|].
  cbn in *. inversion Hnd as [|? ? Hnotin Hnd']; subst.
  pose proof (Hget k (or_introl eq_refl)) as Hk.
  rewrite Nat.eqb_refl in Hk. injection Hk as ->.
  f_equal. apply IH; [assumption|].
  intros k' Hk'. specialize (Hget k' (or_intror Hk')).
  destruct (Nat.eqb_spec k k') as [->|_]; [contradiction|exact Hget].
Qed.

Lemma get_setitem (d : dict.t V) (k k' : nat) (v : V) :
  dict.get (dict.setitem d k v) k'
  = if k =? k' then Some v else dict.get d k'.
Proof.
  induction d as [|[k0 v0] d IH]; cbn.
  - reflexivity.
  - destruct (Nat.eqb_spec k0 k) as [->|Hne]; cbn.
    + destruct (Nat.eqb_spec k k'); reflexivity.
    + destruct (Nat.eqb_spec k0 k') as [->|Hne'].
      * destruct (Nat.eqb_spec k k'); [congruence|reflexivity].
      * exact IH.
Qed.

Lemma keys_setitem (d : dict.t V) (k : nat) (v : V) :
  dict.keys (dict.setitem d k v)
  = if existsb (Nat.eqb k) (dict.keys d) then dict.keys d else dict.keys d ++ [k].
Proof.
  induction d as [|[k0 v0] d IH]; cbn.
  - reflexivity.
  - rewrite (Nat.eqb_sym k k0).
    destruct (Nat.eqb_spec k0 k) as [->|Hne]; cbn; [reflexivity|].
    unfold dict.keys in IH. rewrite IH.
    destruct (existsb (Nat.eqb k) (map fst d)); reflexivity.
Qed.

End Tabulate.

(** ** The adjacency lists of a list of edges *)

Lemma incident_app (k : nat) (L1 L2 : list Edge) :
  incident k (L1 ++ L2) = incident k L1 ++ incident k L2.
Proof. apply flat_map_app. Qed.

Lemma in_ends (k : nat) (e x : Edge) : In x (ends k e) <-> x = e /\ touches k e.
Proof.
  unfold ends, touches, v0, v1. rewrite in_app_iff.
  destruct (Nat.eqb_spec (vIndex (fst (Vertices e))) k),
           (Nat.eqb_spec (vIndex (snd (Vertices e))) k); cbn; intuition congruence.
Qed.

Lemma in_incident (k : nat) (L : list Edge) (x : Edge) :
  In x (incident k L) <-> In x L /\ touches k x.
Proof.
  unfold incident. rewrite in_flat_map. split.
  - intros (e & He & Hx). apply in_ends in Hx as [-> Ht]. auto.
  - intros [Hx Ht]. exists x. split; [assumption|]. apply in_ends. auto.
Qed.

Lemma incident_filter (p : Edge -> bool) (k : nat) (L : list Edge) :
  incident k (filter p L) = filter p (incident k L).
Proof.
  induction L as [|e L IH]; [reflexivity|].
  cbn [filter incident flat_map]. rewrite filter_app. fold (incident k L).
  rewrite <- IH. destruct (p e) eqn:Hp.
  - cbn [incident flat_map]. f_equal.
    unfold ends. destruct (v0 e =? k), (v1 e =? k); cbn; rewrite ?Hp; reflexivity.
  - replace (filter p (ends k e)) with (@nil Edge); [reflexivity|].
    unfold ends. destruct (v0 e =? k), (v1 e =? k); cbn; rewrite ?Hp; reflexivity.
Qed.

Lemma deg_perm (k : nat) (L1 L2 : list Edge) :
  Permutation L1 L2 -> deg k L1 = deg k L2.
Proof.
  intros H. unfold deg, incident. apply Permutation_length.
  apply Permutation_flat_map, H.
Qed.

Lemma deg_app (k : nat) (L1 L2 : list Edge) :
  deg k (L1 ++ L2) = deg k L1 + deg k L2.
Proof. unfold deg. rewrite incident_app. apply length_app. Qed.

Lemma weight_touches (k : nat) (e : Edge) : touches k e <-> 1 <= weight k e.
Proof.
  unfold weight, ends, touches.
  destruct (Nat.eqb_spec (v0 e) k), (Nat.eqb_spec (v1 e) k); cbn; intuition lia.
Qed.

Lemma without_perm (e : Edge) (L : list Edge) :
  NoDup (map Index L) -> In e L -> Permutation (e :: without e L) L.
Proof.
  induction L as [|x L IH]; intros Hnd Hin; [contradiction|].
  cbn in Hnd. inversion Hnd as [|? ? Hnotin Hnd']; subst.
  unfold without in *. cbn [filter]. destruct Hin as [->|Hin].
  - rewrite Nat.eqb_refl. cbn [negb]. apply perm_skip.
    rewrite forallb_filter_id; [reflexivity|].
    apply forallb_forall. intros y Hy.
    destruct (Nat.eqb_spec (Index y) (Index e)) as [E|_]; [|reflexivity].
    exfalso. apply Hnotin. rewrite <- E. apply in_map, Hy.
  - destruct (Nat.eqb_spec (Index x) (Index e)) as [E|_].
    + exfalso. apply Hnotin. rewrite E. apply in_map, Hin.
    + cbn [negb]. rewrite perm_swap. apply perm_skip. apply IH; assumption.
Qed.

Lemma without_nodup (e : Edge) (L : list Edge) :
  NoDup (map Index L) -> NoDup (map Index (without e L)).
Proof.
  intros H. unfold without. induction L as [|x L IH]; [constructor|].
  cbn in *. inversion H as [|? ? Hnotin Hnd]; subst.
  destruct (negb (Index x =? Index e)); cbn; [|apply IH, Hnd].
  constructor; [|apply IH, Hnd].
  intros Hin. apply Hnotin. apply in_map_iff in Hin as (y & <- & Hy).
  apply in_map. apply filter_In in Hy. apply Hy.
Qed.

Lemma in_without (e x : Edge) (L : list Edge) :
  In x (without e L) <-> In x L /\ Index x <> Index e.
Proof.
  unfold without. rewrite filter_In.
  destruct (Nat.eqb_spec (Index x) (Index e)); cbn; intuition congruence.
Qed.

Lemma deg_without (k : nat) (e : Edge) (L : list Edge) :
  NoDup (map Index L) -> In e L ->
  deg k L = weight k e + deg k (without e L).
Proof.
  intros Hnd Hin.
  rewrite <- (deg_perm k _ _ (without_perm e L Hnd Hin)).
  change (e :: without e L) with ([e] ++ without e L).
  rewrite deg_app. f_equal. unfold deg, incident, weight. cbn.
  rewrite app_nil_r. reflexivity.
Qed.

(** ** The dictionary built from the primary edges *)

Lemma bucket_incidences (k : nat) (L : list Edge) :
  bucket k (incidences L) = incident k L.
Proof.
  induction L as [|e L IH]; [reflexivity|].
  unfold bucket, incidences in *. cbn [flat_map app filter fst].
  cbn [incident flat_map]. fold (incident k L). rewrite <- IH.
  unfold ends. destruct (v0 e =? k), (v1 e =? k); reflexivity.
Qed.

Lemma bucket_snoc (k i : nat) (e : Edge) (incs : list (nat * Edge)) :
  bucket k (incs ++ [(i, e)]) = bucket k incs ++ (if i =? k then [e] else []).
Proof.
  unfold bucket. rewrite filter_app, map_app. cbn.
  destruct (i =? k); reflexivity.
Qed.

Lemma existsb_eqb_in (k : nat) (l : list nat) :
  existsb (Nat.eqb k) l = true <-> In k l.
Proof.
  rewrite existsb_exists. split.
  - intros (x & Hx & E). apply Nat.eqb_eq in E. subst. exact Hx.
  - intros H. exists k. split; [exact H|apply Nat.eqb_refl].
Qed.

Lemma adj_inv_step (incs : list (nat * Edge)) (d : adjacency) (i : nat) (e : Edge) :
  adj_inv incs d ->
  adj_inv (incs ++ [(i, e)])
          (dict.setitem d i (dict.get_default d i [] ++ [e])).
Proof.
  intros [Hnd Hget Habs Hne Hkeys].
  assert (Hdef : dict.get_default d i [] = bucket i incs).
  { unfold dict.get_default. destruct (in_dec Nat.eq_dec i (dict.keys d)) as [Hi|Hi].
    - rewrite (Hget i Hi). reflexivity.
    - rewrite (Habs i Hi).
      destruct (dict.get d i) eqn:E; [|reflexivity].
      exfalso. apply Hi. clear - E. induction d as [|[k v] d IH]; [discriminate|].
      cbn in *. destruct (Nat.eqb_spec k i); [left; assumption|right; auto]. }
  assert (Hk : forall k, In k (dict.keys (dict.setitem d i (bucket i incs ++ [e])))
                         <-> In k (dict.keys d) \/ k = i).
  { intros k. rewrite keys_setitem.
    destruct (existsb (Nat.eqb i) (dict.keys d)) eqn:E.
    - apply existsb_eqb_in in E. split; [auto|]. intros [H| ->]; assumption.
    - rewrite in_app_iff. cbn. intuition. }
  rewrite Hdef. constructor.
  - rewrite keys_setitem. destruct (existsb (Nat.eqb i) (dict.keys d)) eqn:E.
    + exact Hnd.
    + apply NoDup_app; [exact Hnd|repeat constructor; intros []|].
      intros k Hk1 [<-|[]]. apply existsb_eqb_in in Hk1. congruence.
  - intros k Hin. rewrite get_setitem, bucket_snoc.
    destruct (Nat.eqb_spec i k) as [->|Hne']; [reflexivity|].
    rewrite app_nil_r. apply Hget. apply Hk in Hin as [H|H]; [exact H|congruence].
  - intros k Hnotin. rewrite bucket_snoc.
    destruct (Nat.eqb_spec i k) as [->|Hne'].
    + exfalso. apply Hnotin, Hk. right. reflexivity.
    + rewrite app_nil_r. apply Habs. intros H. apply Hnotin, Hk. left. exact H.
  - intros k Hin. rewrite bucket_snoc.
    destruct (Nat.eqb_spec i k) as [->|Hne'].
    + intros H. apply app_eq_nil in H as [_ H]. discriminate.
    + rewrite app_nil_r. apply Hne. apply Hk in Hin as [H|H]; [exact H|congruence].
  - intros i' e' Hin. apply Hk. apply in_app_iff in Hin as [Hin|[[= -> ->]|[]]].
    + left. eapply Hkeys, Hin.
    + right. reflexivity.
Qed.

Lemma adj_inv_build_from (L0 L : list Edge) (d : adjacency) :
  adj_inv (incidences L0) d ->
  adj_inv (incidences (L0 ++ L)) (fold_left add_edge L d).
Proof.
  revert L0 d. induction L as [|e L IH]; intros L0 d H.
  - rewrite app_nil_r. exact H.
  - cbn [fold_left].
    replace (L0 ++ e :: L) with ((L0 ++ [e]) ++ L) by (rewrite <- app_assoc; reflexivity).
    apply IH. unfold incidences. rewrite flat_map_app. cbn [flat_map].
    rewrite app_nil_r.
    change [(v0 e, e); (v1 e, e)] with ([(v0 e, e)] ++ [(v1 e, e)]).
    rewrite app_assoc. unfold add_edge. cbn [fold_left]. unfold add_vertex.
    apply adj_inv_step, adj_inv_step, H.
Qed.

Lemma adj_inv_build (L : list Edge) : adj_inv (incidences L) (build_vertex L).
Proof.
  apply (adj_inv_build_from [] L []).
  constructor; cbn; try constructor; try contradiction; reflexivity || auto.
Qed.

Lemma build_vertex_tabulate (L : list Edge) :
  build_vertex L = tabulate (vertex_keys L) (fun k => incident k L).
Proof.
  pose proof (adj_inv_build L) as [Hnd Hget _ _ _].
  apply dict_is_tabulate; [exact Hnd|].
  intros k Hk. rewrite (Hget k Hk), bucket_incidences. reflexivity.
Qed.

Lemma vertex_keys_nodup (L : list Edge) : NoDup (vertex_keys L).
Proof. apply (adj_inv_build L). Qed.

Lemma vertex_keys_touch (L : list Edge) (e : Edge) (k : nat) :
  In e L -> touches k e -> In k (vertex_keys L).
Proof.
  intros He Hk. pose proof (adj_inv_build L) as [_ _ _ _ Hkeys].
  apply (Hkeys k e). unfold incidences. apply in_flat_map.
  exists e. split; [exact He|]. destruct Hk as [->| ->]; cbn; auto.
Qed.

Lemma vertex_keys_deg (L : list Edge) (k : nat) :
  In k (vertex_keys L) -> 1 <= deg k L.
Proof.
  intros Hk. pose proof (adj_inv_build L) as [_ _ _ Hne _].
  specialize (Hne k Hk). rewrite bucket_incidences in Hne.
  unfold deg. destruct (incident k L); [contradiction|cbn; lia].
Qed.

(** ** One step of the traversal *)

Lemma index_inj (L : list Edge) (x y : Edge) :
  NoDup (map Index L) -> In x L -> In y L -> Index x = Index y -> x = y.
Proof.
  induction L as [|z L IH]; intros Hnd Hx Hy E; [contradiction|].
  cbn in Hnd. inversion Hnd as [|? ? Hnotin Hnd']; subst.
  destruct Hx as [->|Hx], Hy as [->|Hy].
  - reflexivity.
  - exfalso. apply Hnotin. rewrite E. apply in_map, Hy.
  - exfalso. apply Hnotin. rewrite <- E. apply in_map, Hx.
  - apply IH; assumption.
Qed.

Lemma filter_idem {A : Type} (p : A -> bool) (l : list A) :
  filter p (filter p l) = filter p l.
Proof.
  induction l as [|a l IH]; [reflexivity|].
  cbn. destruct (p a) eqn:E; cbn; rewrite ?E, IH; reflexivity.
Qed.

Lemma touches_other_end (vS : nat) (e : Edge) :
  touches vS e -> touches (other_end vS e) e.
Proof.
  unfold touches, other_end. destruct (Nat.eqb_spec vS (v0 e)); intuition.
Qed.

Lemma touches_cases (k vS : nat) (e : Edge) :
  touches vS e -> touches k e -> k = vS \/ k = other_end vS e.
Proof.
  unfold touches, other_end. destruct (Nat.eqb_spec vS (v0 e)); intuition congruence.
Qed.

Section Step.
Variable K : list nat.
Hypothesis K_nodup : NoDup K.

Lemma consume_adjacency (f : nat -> list Edge) (v : nat) (e : Edge) :
  In v K ->
  consume (tabulate K f) v e
  = Ok (tabulate K (fun k => if k =? v
                             then filter (fun x => negb (Index x =? Index e)) (f k)
                             else f k),
        List.length (filter (fun x => negb (Index x =? Index e)) (f v)) =? 0).
Proof.
  intros Hv. unfold consume. rewrite getitem_tabulate by assumption. cbn [bind].
  rewrite setitem_tabulate by assumption. do 2 f_equal.
  apply tabulate_ext. intros k _. destruct (Nat.eqb_spec k v) as [->|_]; reflexivity.
Qed.

Lemma traverse_adjacency (L : list Edge) (vS : nat) (e : Edge) (we : Wire) :
  NoDup (map Index L) -> In e L -> touches vS e ->
  In vS K -> In (other_end vS e) K ->
  traverse (adjacency_of K L) vS e we
  = Ok (adjacency_of K (without e L), we ++ [oriented vS e],
        if deg (other_end vS e) (without e L) =? 0
        then None else Some (other_end vS e)).
Proof.
  intros Hnd He Ht HvS HvE.
  set (p := fun x : Edge => negb (Index x =? Index e)).
  assert (Hfinal : forall k,
    (if k =? other_end vS e
     then filter p (if k =? vS
                    then filter p (incident k L)
                    else incident k L)
     else if k =? vS then filter p (incident k L) else incident k L)
    = incident k (without e L)).
  { intros k. unfold without. rewrite incident_filter. fold p.
    destruct (Nat.eqb_spec k (other_end vS e)) as [->|HkE].
    - destruct (other_end vS e =? vS); [apply filter_idem|reflexivity].
    - destruct (Nat.eqb_spec k vS) as [->|HkS]; [reflexivity|].
      symmetry. apply forallb_filter_id. apply forallb_forall. intros x Hx.
      apply in_incident in Hx as [HxL Hxk]. unfold p.
      destruct (Nat.eqb_spec (Index x) (Index e)) as [E|_]; [|reflexivity].
      apply (index_inj L x e Hnd HxL He) in E. subst x.
      destruct (touches_cases k vS e Ht Hxk); contradiction. }
  unfold traverse.
  assert (Hgo : forall w : Wire,
    ('(vertex, _) <- consume (adjacency_of K L) vS e ;;
     '(vertex0, emptied) <- consume vertex (other_end vS e) e ;;
     Ok (vertex0, w, if emptied then None else Some (other_end vS e)))%result
    = Ok (adjacency_of K (without e L), w,
          if deg (other_end vS e) (without e L) =? 0
          then None else Some (other_end vS e))).
  { intros w. unfold adjacency_of.
    rewrite consume_adjacency by assumption. cbn [bind].
    rewrite consume_adjacency by assumption. cbn [bind].
    fold p. f_equal. f_equal; [f_equal|].
    - apply tabulate_ext. intros k _. apply Hfinal.
    - pose proof (Hfinal (other_end vS e)) as H. rewrite Nat.eqb_refl in H.
      unfold deg. rewrite <- H. reflexivity. }
  unfold other_end, oriented in *. unfold v0, v1 in *.
  destruct (vS =? vIndex (fst (Vertices e))); apply Hgo.
Qed.

End Step.

(** ** Wires as chains *)

Lemma wire_last_snoc (w : Wire) (x : Edge) : wire_last (w ++ [x]) = Some (v1 x).
Proof. unfold wire_last. rewrite rev_app_distr. reflexivity. Qed.

Lemma wire_first_snoc (w : Wire) (x : Edge) :
  wire_first (w ++ [x]) = match w with [] => Some (v0 x) | _ => wire_first w end.
Proof. destruct w; reflexivity. Qed.

Lemma wire_last_nth (w : Wire) (a : Edge) :
  nth_error w (List.length w - 1) = Some a -> w <> [] -> wire_last w = Some (v1 a).
Proof.
  intros H Hne. destruct (exists_last Hne) as (w' & x & ->).
  rewrite wire_last_snoc. rewrite length_app in H. cbn in H.
  replace (List.length w' + 1 - 1) with (List.length w' + 0) in H by lia.
  rewrite nth_error_app2 in H by lia.
  replace (List.length w' + 0 - List.length w') with 0 in H by lia.
  cbn in H. congruence.
Qed.

Lemma chain_snoc (w : Wire) (x : Edge) :
  chain w -> (w <> [] -> wire_last w = Some (v0 x)) -> chain (w ++ [x]).
Proof.
  intros Hc Hl i a b Ha Hb.
  destruct (Nat.lt_ge_cases (S i) (List.length w)) as [Hlt|Hge].
  - rewrite nth_error_app1 in Ha, Hb by lia. eapply Hc; eassumption.
  - assert (Hi : S i = List.length w).
    { assert (Hb' : nth_error (w ++ [x]) (S i) <> None) by congruence.
      apply nth_error_Some in Hb'. rewrite length_app in Hb'. cbn in Hb'. lia. }
    rewrite nth_error_app2 in Hb by lia.
    replace (S i - List.length w) with 0 in Hb by lia. cbn in Hb. injection Hb as <-.
    rewrite nth_error_app1 in Ha by lia.
    assert (Hne : w <> []) by (intros ->; discriminate).
    replace i with (List.length w - 1) in Ha by lia.
    rewrite (wire_last_nth w a Ha Hne) in Hl. specialize (Hl Hne). congruence.
Qed.

Lemma oriented_ends (vS : nat) (e : Edge) :
  touches vS e ->
  v0 (oriented vS e) = vS /\ v1 (oriented vS e) = other_end vS e.
Proof.
  unfold touches, oriented, other_end.
  destruct (Nat.eqb_spec vS (v0 e)) as [->|Hne]; [auto|].
  intros [H|H]; [contradiction|]. subst vS. split; reflexivity.
Qed.

Lemma oriented_same (vS : nat) (e : Edge) : same_edge (oriented vS e) e.
Proof. unfold same_edge, oriented. destruct (vS =? v0 e); auto. Qed.

(** ** Degrees along the traversal *)

Lemma weight_elsewhere (k vS : nat) (e : Edge) :
  touches vS e -> k <> vS -> k <> other_end vS e -> weight k e = 0.
Proof.
  unfold touches, other_end, weight, ends.
  destruct (Nat.eqb_spec vS (v0 e)), (Nat.eqb_spec (v0 e) k), (Nat.eqb_spec (v1 e) k);
    cbn; intuition congruence.
Qed.

Lemma weight_distinct (vS : nat) (e : Edge) :
  touches vS e -> vS <> other_end vS e ->
  weight vS e = 1 /\ weight (other_end vS e) e = 1.
Proof.
  unfold touches, other_end, weight, ends.
  destruct (Nat.eqb_spec vS (v0 e)) as [E|E].
  - destruct (Nat.eqb_spec (v0 e) vS), (Nat.eqb_spec (v1 e) vS),
      (Nat.eqb_spec (v0 e) (v1 e)), (Nat.eqb_spec (v1 e) (v1 e));
      cbn; intuition congruence.
  - destruct (Nat.eqb_spec (v0 e) vS), (Nat.eqb_spec (v1 e) vS),
      (Nat.eqb_spec (v0 e) (v0 e)), (Nat.eqb_spec (v1 e) (v0 e));
      cbn; intuition congruence.
Qed.

Lemma weight_loop (vS : nat) (e : Edge) :
  touches vS e -> vS = other_end vS e -> weight vS e = 2.
Proof.
  unfold touches, other_end, weight, ends.
  destruct (Nat.eqb_spec vS (v0 e)), (Nat.eqb_spec (v0 e) vS), (Nat.eqb_spec (v1 e) vS);
    cbn; intuition congruence.
Qed.

Section Degrees.
Variables (K knots0 : list nat).

Lemma passing_start (L : list Edge) (v : nat) :
  In v knots0 -> passing K knots0 L None -> passing K knots0 L (Some v).
Proof.
  intros Hv H k Hk Hnk. destruct (H k Hk Hnk) as [_ H2]. split.
  - intros [= ->]. contradiction.
  - intros _. apply H2. discriminate.
Qed.

Lemma passing_step (L : list Edge) (vS : nat) (e : Edge) :
  NoDup (map Index L) -> In e L -> touches vS e ->
  In vS K -> In (other_end vS e) K ->
  passing K knots0 L (Some vS) ->
  (deg (other_end vS e) (without e L) = 0 ->
   In (other_end vS e) knots0 /\ passing K knots0 (without e L) None) /\
  (deg (other_end vS e) (without e L) <> 0 ->
   passing K knots0 (without e L) (Some (other_end vS e))).
Proof.
  intros Hnd He Ht HvS HvE HJ.
  set (vE := other_end vS e) in *.
  assert (Hdeg : forall k, deg k L = weight k e + deg k (without e L))
    by (intros k; apply deg_without; assumption).
  assert (Hrest : forall k, In k K -> ~ In k knots0 -> k <> vE ->
                            deg k (without e L) = 2 \/ deg k (without e L) = 0).
  { intros k Hk Hnk HkE. destruct (HJ k Hk Hnk) as [H1 H2].
    destruct (Nat.eq_dec k vS) as [->|HkS].
    - specialize (H1 eq_refl). specialize (Hdeg vS).
      destruct (weight_distinct vS e Ht HkE) as [Hw _]. lia.
    - pose proof (weight_elsewhere k vS e Ht HkS HkE) as Hw.
      specialize (Hdeg k).
      destruct H2 as [H2|H2]; [congruence| |]; lia. }
  assert (Hend : ~ In vE knots0 -> deg vE (without e L) = 1).
  { intros Hnk. destruct (HJ vE HvE Hnk) as [H1 H2].
    destruct (Nat.eq_dec vE vS) as [E|HES].
    - specialize (H1 (f_equal Some (eq_sym E))).
      pose proof (weight_loop vS e Ht (eq_sym E)) as Hw.
      specialize (Hdeg vE). rewrite E in Hdeg, H1 |- *. lia.
    - assert (HSE : vS <> vE) by congruence.
      destruct (weight_distinct vS e Ht HSE) as [_ Hw].
      change (other_end vS e) with vE in Hw.
      specialize (Hdeg vE). destruct H2 as [H2|H2]; [congruence| |]; lia. }
  split.
  - intros H0. assert (HE : In vE knots0).
    { destruct (in_dec Nat.eq_dec vE knots0) as [H|H]; [exact H|].
      specialize (Hend H). lia. }
    split; [exact HE|]. intros k Hk Hnk. split; [discriminate|].
    intros _. apply Hrest; try assumption. intros ->. contradiction.
  - intros Hn0 k Hk Hnk. split.
    + intros [= <-]. rewrite (Hend Hnk). lia.
    + intros Hne. apply Hrest; try assumption. congruence.
Qed.

End Degrees.

(** ** The number of entries of the dictionary *)

Lemma entries_sum (K : list nat) (L : list Edge) :
  entries K L = list_sum (map (fun k => deg k L) K).
Proof.
  unfold entries, adjacency_of, tabulate. rewrite map_map. cbn [snd].
  induction K as [|k K IH]; [reflexivity|].
  cbn [map List.concat list_sum fold_right]. rewrite length_app, IH. reflexivity.
Qed.

Lemma entries_without (K : list nat) (L : list Edge) (vS : nat) (e : Edge) :
  NoDup (map Index L) -> In e L -> touches vS e -> In vS K ->
  entries K (without e L) < entries K L.
Proof.
  intros Hnd He Ht HvS. rewrite !entries_sum.
  assert (Hle : forall k, deg k (without e L) <= deg k L)
    by (intros k; rewrite (deg_without k e L Hnd He); lia).
  assert (Hlt : deg vS (without e L) < deg vS L).
  { rewrite (deg_without vS e L Hnd He). apply weight_touches in Ht. lia. }
  assert (Hsum : forall K', list_sum (map (fun k => deg k (without e L)) K')
                            <= list_sum (map (fun k => deg k L) K')).
  { intros K'. induction K' as [|k K' IH]; cbn [map list_sum fold_right]; [lia|].
    specialize (Hle k). unfold list_sum in IH. lia. }
  clear - Hle Hlt HvS Hsum. induction K as [|k K IH]; [contradiction|].
  cbn [map list_sum fold_right]. unfold list_sum in *. destruct HvS as [->|HvS].
  - specialize (Hsum K). lia.
  - specialize (IH HvS). specialize (Hle k). lia.
Qed.

Section Collect.
Variables (E : list Edge) (knots0 : list nat).
Let K : list nat := vertex_keys E.
Hypothesis E_nodup : NoDup (map Index E).
Hypothesis knots0_keys : forall k, In k knots0 -> In k K.

Lemma remaining_nodup (done L : list Edge) :
  remaining E done L -> NoDup (map Index L).
Proof.
  intros H. unfold remaining in H.
  assert (Hnd : NoDup (map Index (done ++ L))).
  { eapply Permutation_NoDup; [|exact E_nodup].
    apply Permutation_map, Permutation_sym, H. }
  rewrite map_app in Hnd. eapply NoDup_app_remove_l, Hnd.
Qed.

Lemma remaining_in (done L : list Edge) (x : Edge) :
  remaining E done L -> In x L -> In x E.
Proof.
  intros H Hx. eapply Permutation_in; [exact H|]. apply in_or_app. auto.
Qed.

Lemma remaining_key (done L : list Edge) (x : Edge) (k : nat) :
  remaining E done L -> In x L -> touches k x -> In k K.
Proof.
  intros H Hx Ht. eapply vertex_keys_touch; [|exact Ht].
  eapply remaining_in; eassumption.
Qed.

Lemma remaining_step (done L : list Edge) (e : Edge) :
  remaining E done L -> In e L -> remaining E (done ++ [e]) (without e L).
Proof.
  intros H He. unfold remaining in *. rewrite <- app_assoc. cbn [app].
  rewrite <- H. apply Permutation_app_head.
  apply without_perm; [eapply remaining_nodup; exact H|exact He].
Qed.

Lemma walk_done (fuel : nat) (vertex : adjacency) (vLast : nat) (we : Wire) :
  walk fuel vertex None vLast we = Ok (vertex, vLast, we).
Proof. destruct fuel; reflexivity. Qed.

Lemma walk_spec (vF : nat) (fuel : nat) :
  forall (L : list Edge) (vS vLast : nat) (we : Wire) (done : list Edge),
  remaining E done L -> passing K knots0 L (Some vS) -> In vS K ->
  chain we -> (we = [] -> vS = vF) ->
  (we <> [] -> wire_first we = Some vF /\ wire_last we = Some vS) ->
  incident vS L <> [] -> entries K L < fuel ->
  exists (L' : list Edge) (vl : nat) (wmore dmore : list Edge) (vE : nat),
    walk fuel (adjacency_of K L) (Some vS) vLast we
    = Ok (adjacency_of K L', vl, we ++ wmore) /\
    remaining E (done ++ dmore) L' /\ passing K knots0 L' None /\
    Forall2 same_edge wmore dmore /\ wmore <> [] /\
    chain (we ++ wmore) /\ wire_first (we ++ wmore) = Some vF /\
    wire_last (we ++ wmore) = Some vE /\ In vE knots0 /\
    In vl K /\ (forall k, deg k L' <= deg k L) /\ entries K L' < entries K L.
Proof.
  induction fuel as [|fuel IH];
    intros L vS vLast we done Hrem Hpass HvS Hchain Hempty Hwire Hinc Hfuel; [lia|].
  pose proof (remaining_nodup done L Hrem) as Hnd.
  cbn [walk]. unfold adjacency_of at 1. rewrite getitem_tabulate by exact HvS.
  cbn [bind]. destruct (incident vS L) as [|e rest] eqn:Einc; [contradiction|].
  assert (He : In e L /\ touches vS e).
  { apply in_incident. rewrite Einc. left. reflexivity. }
  destruct He as [He Ht].
  pose proof (touches_other_end vS e Ht) as HtE.
  assert (HvE : In (other_end vS e) K) by (eapply remaining_key; eassumption).
  fold (adjacency_of K L).
  rewrite (traverse_adjacency K (vertex_keys_nodup E) L vS e we Hnd He Ht HvS HvE).
  cbn [bind].
  destruct (oriented_ends vS e Ht) as [Ho0 Ho1].
  set (x := oriented vS e) in *. set (vE := other_end vS e) in *.
  set (L' := without e L).
  assert (Hrem' : remaining E (done ++ [e]) L') by (apply remaining_step; assumption).
  assert (Hchain' : chain (we ++ [x])).
  { apply chain_snoc; [exact Hchain|]. intros Hne.
    destruct (Hwire Hne) as [_ ->]. congruence. }
  assert (Hfirst' : wire_first (we ++ [x]) = Some vF).
  { rewrite wire_first_snoc. destruct we as [|a we'].
    - rewrite Ho0, (Hempty eq_refl). reflexivity.
    - apply Hwire. discriminate. }
  assert (Hlast' : wire_last (we ++ [x]) = Some vE).
  { rewrite wire_last_snoc, Ho1. reflexivity. }
  assert (Hdeg : forall k, deg k L' <= deg k L)
    by (intros k; rewrite (deg_without k e L Hnd He); unfold L'; lia).
  assert (Hent : entries K L' < entries K L)
    by (eapply entries_without; eassumption).
  destruct (passing_step K knots0 L vS e Hnd He Ht HvS HvE Hpass) as [Hstop Hgo].
  fold vE L' in Hstop, Hgo.
  destruct (Nat.eqb_spec (deg vE L') 0) as [H0|Hn0].
  - destruct (Hstop H0) as [HE Hpass'].
    exists L', vS, [x], [e], vE. rewrite walk_done.
    splits; try assumption; try reflexivity.
    + constructor; [apply oriented_same|constructor].
    + discriminate.
  - destruct (IH L' vE vS (we ++ [x]) (done ++ [e])) as
      (L'' & vl & wmore & dmore & vE' & Hw & Hr & Hp & Hf2 & Hne & Hc & Hfi & Hla
       & HE' & Hvl & Hd & Hen); try assumption.
    + apply Hgo, Hn0.
    + intros Habs. destruct we; discriminate.
    + intros _. split; assumption.
    + unfold deg in Hn0. destruct (incident vE L'); [contradiction|discriminate].
    + lia.
    + exists L'', vl, (x :: wmore), (e :: dmore), vE'.
      rewrite <- !app_assoc in *. cbn [app] in *.
      splits; try assumption; try reflexivity.
      * constructor; [apply oriented_same|exact Hf2].
      * discriminate.
      * intros k. specialize (Hd k). specialize (Hdeg k). lia.
      * lia.
Qed.

Lemma drop_knot_adjacency (L : list Edge) (v : nat) (knots : list nat) :
  In v K ->
  drop_knot (adjacency_of K L) v knots
  = Ok (if deg v L =? 0 then filter (fun k => negb (k =? v)) knots else knots).
Proof.
  intros Hv. unfold drop_knot, adjacency_of.
  rewrite getitem_tabulate by exact Hv. reflexivity.
Qed.

Lemma filter_length_le {A : Type} (p : A -> bool) (l : list A) :
  List.length (filter p l) <= List.length l.
Proof. induction l as [|a l IH]; cbn; [lia|]. destruct (p a); cbn; lia. Qed.

Lemma in_filter_neq (v k : nat) (knots : list nat) :
  In k (filter (fun k' => negb (k' =? v)) knots) <-> In k knots /\ k <> v.
Proof.
  rewrite filter_In. destruct (Nat.eqb_spec k v); cbn; intuition congruence.
Qed.

Lemma dropped_length (L : list Edge) (v : nat) (knots : list nat) :
  List.length (dropped L v knots) <= List.length knots.
Proof. unfold dropped. destruct (deg v L =? 0); [apply filter_length_le|lia]. Qed.

Lemma dropped_in (L : list Edge) (v k : nat) (knots : list nat) :
  In k (dropped L v knots) -> In k knots.
Proof.
  unfold dropped. destruct (deg v L =? 0); [|auto].
  intros H. apply in_filter_neq in H. apply H.
Qed.

Lemma dropped_out (L : list Edge) (v k : nat) (knots : list nat) :
  In k knots -> ~ In k (dropped L v knots) -> deg k L = 0.
Proof.
  unfold dropped. destruct (Nat.eqb_spec (deg v L) 0) as [H0|_]; [|contradiction].
  intros Hk Hn. destruct (Nat.eq_dec k v) as [->|Hne]; [exact H0|].
  exfalso. apply Hn, in_filter_neq. auto.
Qed.

Lemma collect_spec (fuel : nat) :
  forall (L : list Edge) (knots : list nat) (wires : list Wire) (done : list Edge),
  remaining E done L -> passing K knots0 L None ->
  Forall2 same_edge (List.concat wires) done -> Forall (knot_wire knots0) wires ->
  (forall k, In k knots -> In k knots0) ->
  (forall k, In k knots0 -> ~ In k knots -> deg k L = 0) ->
  entries K L + List.length knots < fuel ->
  exists (wires' : list Wire) (done' L' : list Edge),
    collect fuel (adjacency_of K L) knots wires = Ok wires' /\
    remaining E done' L' /\ passing K knots0 L' None /\
    Forall2 same_edge (List.concat wires') done' /\ Forall (knot_wire knots0) wires' /\
    (forall k, In k knots0 -> deg k L' = 0).
Proof.
  induction fuel as [|fuel IH];
    intros L knots wires done Hrem Hpass Hf2 Hgood Hsub Hout Hfuel; [lia|].
  destruct knots as [|vFirst ks].
  - exists wires, done, L. cbn [collect]. splits; try assumption; try reflexivity.
    intros k Hk. apply Hout; [exact Hk|intros []].
  - assert (HvF0 : In vFirst knots0) by (apply Hsub; left; reflexivity).
    assert (HvF : In vFirst K) by (apply knots0_keys, HvF0).
    cbn [collect]. unfold adjacency_of at 1.
    rewrite getitem_tabulate by exact HvF. cbn [bind]. fold (adjacency_of K L).
    destruct (incident vFirst L) as [|e0 rest0] eqn:Einc.
    + (* nothing left at this knot *)
      cbn [List.length Nat.ltb Nat.leb bind].
      rewrite drop_knot_adjacency by exact HvF. cbn [bind].
      fold (dropped L vFirst (vFirst :: ks)).
      rewrite drop_knot_adjacency by exact HvF. cbn [bind].
      fold (dropped L vFirst (dropped L vFirst (vFirst :: ks))).
      assert (Hd0 : deg vFirst L = 0) by (unfold deg; rewrite Einc; reflexivity).
      assert (Hlen : List.length (dropped L vFirst (vFirst :: ks)) <= List.length ks).
      { unfold dropped. rewrite Hd0. cbn. rewrite Nat.eqb_refl. cbn.
        apply filter_length_le. }
      apply (IH L _ wires done); try assumption.
      * intros k Hk. apply Hsub. eapply dropped_in, dropped_in, Hk.
      * intros k Hk0 Hn.
        destruct (in_dec Nat.eq_dec k (vFirst :: ks)) as [Hin|Hnin];
          [|apply Hout; assumption].
        destruct (in_dec Nat.eq_dec k (dropped L vFirst (vFirst :: ks))) as [Hin'|Hnin'].
        -- eapply dropped_out; eassumption.
        -- eapply dropped_out; eassumption.
      * pose proof (dropped_length L vFirst (dropped L vFirst (vFirst :: ks))).
        cbn [List.length] in Hfuel. lia.
    + (* a wire starts at this knot *)
      cbn [List.length Nat.ltb Nat.leb bind].
      destruct (walk_spec vFirst (S (S (entries K L))) L vFirst vFirst [] done)
        as (L' & vl & wmore & dmore & vE & Hw & Hr & Hp & Hf2' & Hne & Hc & Hfi
            & Hla & HE & Hvl & Hd & Hen); try assumption.
      * apply passing_start; assumption.
      * intros i a b Ha. destruct i; discriminate.
      * reflexivity.
      * intros Habs. contradiction.
      * rewrite Einc. discriminate.
      * lia.
      * unfold entries in Hw at 1. rewrite Hw. cbn [bind app].
        rewrite drop_knot_adjacency by assumption. cbn [bind].
        fold (dropped L' vFirst (vFirst :: ks)).
        rewrite drop_knot_adjacency by assumption. cbn [bind].
        fold (dropped L' vl (dropped L' vFirst (vFirst :: ks))).
        cbn [app] in *.
        apply (IH L' _ (wires ++ [wmore]) (done ++ dmore)); try assumption.
        -- rewrite concat_app. cbn [List.concat]. rewrite app_nil_r.
           apply Forall2_app; assumption.
        -- apply Forall_app. split; [exact Hgood|]. constructor; [|constructor].
           split; [exact Hne|]. split; [exact Hc|]. exists vFirst, vE. auto.
        -- intros k Hk. apply Hsub. eapply dropped_in, dropped_in, Hk.
        -- intros k Hk0 Hn.
           destruct (in_dec Nat.eq_dec k (vFirst :: ks)) as [Hin|Hnin].
           ++ destruct (in_dec Nat.eq_dec k (dropped L' vFirst (vFirst :: ks)))
                as [Hin'|Hnin']; eapply dropped_out; eassumption.
           ++ specialize (Hout k Hk0 Hnin). specialize (Hd k). lia.
        -- pose proof (dropped_length L' vl (dropped L' vFirst (vFirst :: ks))).
           pose proof (dropped_length L' vFirst (vFirst :: ks)).
           lia.
Qed.

End Collect.

(** ** The knots *)

Lemma in_keys_filter (K : list nat) (f : nat -> list Edge)
  (p : nat * list Edge -> bool) (k : nat) :
  In k (map fst (filter p (tabulate K f))) <-> In k K /\ p (k, f k) = true.
Proof.
  rewrite in_map_iff. split.
  - intros ([k' l] & <- & H). apply filter_In in H as [H Hp].
    unfold tabulate in H. apply in_map_iff in H as (k'' & [= <- <-] & Hk).
    auto.
  - intros [Hk Hp]. exists (k, f k). split; [reflexivity|].
    apply filter_In. split; [|exact Hp].
    unfold tabulate. apply in_map_iff. exists k. auto.
Qed.

Lemma knots_of_cases (E : list Edge) (k : nat) :
  In k (knots_of E) ->
  In k (vertex_keys E) /\
  (is_branch E k \/ (knots_of E = [k] /\ forall k', ~ is_branch E k')).
Proof.
  unfold knots_of, initial_knots. rewrite build_vertex_tabulate.
  set (K := vertex_keys E). set (f := fun k => incident k E).
  set (base := map fst (filter (fun iv => List.length (snd iv) =? 1) (tabulate K f))
               ++ map fst (filter (fun iv => 2 <? List.length (snd iv)) (tabulate K f))).
  assert (Hbase : forall k, In k base <-> In k K /\ is_branch E k).
  { intros k0. unfold base. rewrite in_app_iff, !in_keys_filter. cbn [snd].
    unfold is_branch, deg, f.
    destruct (Nat.eqb_spec (List.length (incident k0 E)) 1),
             (Nat.ltb_spec 2 (List.length (incident k0 E))); intuition lia. }
  destruct (Nat.eqb_spec (List.length base) 0) as [H0|Hn0].
  - assert (Hnil : base = []) by (destruct base; [reflexivity|discriminate]).
    assert (Hnone : forall k', ~ is_branch E k').
    { intros k' Hb. destruct (in_dec Nat.eq_dec k' K) as [Hk|Hk].
      - assert (In k' base) by (apply Hbase; auto). rewrite Hnil in *. contradiction.
      - assert (Hd : deg k' E = 0).
        { unfold deg. destruct (incident k' E) as [|x l] eqn:Ei; [reflexivity|].
          exfalso. apply Hk.
          assert (Hx : In x (incident k' E)) by (rewrite Ei; left; reflexivity).
          apply in_incident in Hx as [Hx Ht].
          eapply vertex_keys_touch; eassumption. }
        unfold is_branch in Hb. lia. }
    rewrite Hnil.
    destruct (filter (fun iv => 0 <? List.length (snd iv)) (tabulate K f))
      as [|iv rest] eqn:Ef; [intros []|].
    cbn [app]. intros [<-|[]].
    assert (Hin : In iv (filter (fun iv => 0 <? List.length (snd iv)) (tabulate K f)))
      by (rewrite Ef; left; reflexivity).
    apply filter_In in Hin as [Hin _]. unfold tabulate in Hin.
    apply in_map_iff in Hin as (k0 & <- & Hk0). cbn [fst].
    split; [exact Hk0|]. right. split; [reflexivity|exact Hnone].
  - intros Hk. apply Hbase in Hk as [Hk Hb]. auto.
Qed.

Lemma knots_of_keys (E : list Edge) (k : nat) :
  In k (knots_of E) -> In k (vertex_keys E).
Proof. intros H. apply knots_of_cases in H. apply H. Qed.

Lemma knots_of_branch (E : list Edge) (k : nat) :
  In k (vertex_keys E) -> is_branch E k -> In k (knots_of E).
Proof.
  intros Hk Hb. unfold knots_of, initial_knots. rewrite build_vertex_tabulate.
  set (K := vertex_keys E) in *. set (f := fun k => incident k E).
  set (base := map fst (filter (fun iv => List.length (snd iv) =? 1) (tabulate K f))
               ++ map fst (filter (fun iv => 2 <? List.length (snd iv)) (tabulate K f))).
  assert (Hin : In k base).
  { unfold base. rewrite in_app_iff, !in_keys_filter. cbn [snd].
    unfold is_branch, deg, f in *.
    destruct (Nat.eqb_spec (List.length (incident k E)) 1),
             (Nat.ltb_spec 2 (List.length (incident k E))); intuition lia. }
  destruct (List.length base =? 0) eqn:E0; [|exact Hin].
  apply Nat.eqb_eq in E0. destruct base; [contradiction|discriminate].
Qed.

Lemma non_knot_degree (E : list Edge) (k : nat) :
  In k (vertex_keys E) -> ~ In k (knots_of E) -> deg k E = 2.
Proof.
  intros Hk Hn. pose proof (vertex_keys_deg E k Hk) as H1.
  destruct (Nat.eq_dec (deg k E) 2) as [H2|H2]; [exact H2|].
  exfalso. apply Hn. apply knots_of_branch; [exact Hk|].
  unfold is_branch. lia.
Qed.

Lemma deg_dictionary (E : list Edge) (k : nat) :
  deg k E = List.length (dict.get_default (build_vertex E) k []).
Proof.
  unfold dict.get_default. rewrite build_vertex_tabulate.
  destruct (in_dec Nat.eq_dec k (vertex_keys E)) as [Hk|Hk].
  - rewrite get_tabulate by exact Hk. reflexivity.
  - rewrite get_tabulate_none by exact Hk.
    pose proof (adj_inv_build E) as [_ _ Habs _ _].
    unfold deg. rewrite <- bucket_incidences, (Habs k Hk). reflexivity.
Qed.

Lemma forall2_in_left {A B : Type} (P : A -> B -> Prop) (l1 : list A) (l2 : list B)
  (x : A) :
  Forall2 P l1 l2 -> In x l1 -> exists y, In y l2 /\ P x y.
Proof.
  induction 1 as [|a b l1 l2 Hab _ IH]; intros Hx; [contradiction|].
  destruct Hx as [->|Hx].
  - exists b. split; [left; reflexivity|exact Hab].
  - destruct (IH Hx) as (y & Hy & Hxy). exists y. split; [right; exact Hy|exact Hxy].
Qed.

(** ** The wires of a diagram *)

Lemma collect_wires (vd : Diagram) :
  let E := primary_edges vd in
  NoDup (map Index E) ->
  exists (wires : list Wire) (done L : list Edge),
    _collectVoronoiWires vd = Ok wires /\
    Permutation (done ++ L) E /\
    Forall2 same_edge (List.concat wires) done /\
    Forall (knot_wire (knots_of E)) wires /\
    passing (vertex_keys E) (knots_of E) L None /\
    (forall k, In k (knots_of E) -> deg k L = 0).
Proof.
  intros E Hnd. unfold _collectVoronoiWires. fold E. fold (knots_of E).
  rewrite build_vertex_tabulate. fold (adjacency_of (vertex_keys E) E).
  fold (entries (vertex_keys E) E).
  destruct (collect_spec E (knots_of E) Hnd (knots_of_keys E)
              (S (entries (vertex_keys E) E + List.length (knots_of E)))
              E (knots_of E) [] [])
    as (wires & done & L & Hc & Hr & Hp & Hf & Hg & Hk).
  - unfold remaining. reflexivity.
  - intros k Hk Hn. split; [discriminate|]. intros _. left.
    apply non_knot_degree; assumption.
  - constructor.
  - constructor.
  - auto.
  - intros k Hk Hn. contradiction.
  - lia.
  - exists wires, done, L. splits; try assumption.
Qed.

(** C8.  For a diagram whose primary edges have distinct indices,
    [_collectVoronoiWires] returns; every wire is not empty, is a chain
    (the end vertex of an edge is the start vertex of the next) and
    begins and ends at a vertex of the list [knots]; every edge of a
    wire is a primary edge or the twin of one; a vertex of the list
    [knots] has degree 1 or at least 3, or is the only one in the list
    and no vertex has such a degree; the degree is the length of the
    entry of the dictionary [vertex]. *)
Theorem wires_are_chains_between_knots (vd : Diagram) :
  let E := primary_edges vd in
  NoDup (map Index E) ->
  exists wires : list Wire,
    _collectVoronoiWires vd = Ok wires /\
    Forall (fun w : Wire =>
              w <> [] /\ chain w /\
              exists a b : nat,
                wire_first w = Some a /\ wire_last w = Some b /\
                In a (knots_of E) /\ In b (knots_of E)) wires /\
    (forall (w : Wire) (x : Edge), In w wires -> In x w ->
       exists e : Edge, In e E /\ (x = e \/ x = Twin e)) /\
    (forall k : nat, In k (knots_of E) ->
       is_branch E k \/ (knots_of E = [k] /\ forall k', ~ is_branch E k')) /\
    (forall k : nat,
       deg k E = List.length (dict.get_default (build_vertex E) k [])).
Proof.
  intros E Hnd.
  destruct (collect_wires vd Hnd) as (wires & done & L & Hc & Hp & Hf & Hg & _).
  exists wires. splits.
  - exact Hc.
  - exact Hg.
  - intros w x Hw Hx.
    assert (Hin : In x (List.concat wires)).
    { apply in_concat. exists w. split; assumption. }
    destruct (forall2_in_left same_edge _ _ x Hf Hin) as (e & He & Hxe).
    exists e. split; [|exact Hxe].
    eapply Permutation_in; [exact Hp|]. apply in_or_app. left. exact He.
  - intros k Hk. apply knots_of_cases in Hk. apply Hk.
  - intros k. apply deg_dictionary.
Qed.

(** ** Connection to a knot *)

Lemma connected_in (E : list Edge) (e : Edge) : connected_to_knot E e -> In e E.
Proof. intros H. destruct H; assumption. Qed.

Lemma deg_zero_not_in (k : nat) (L : list Edge) (e : Edge) :
  deg k L = 0 -> touches k e -> ~ In e L.
Proof.
  intros Hd Ht He. unfold deg in Hd.
  assert (Hin : In e (incident k L)) by (apply in_incident; auto).
  destruct (incident k L); [contradiction|discriminate].
Qed.

Lemma deg_in_pos (k : nat) (L : list Edge) (e : Edge) :
  In e L -> touches k e -> 1 <= deg k L.
Proof.
  intros He Ht. unfold deg.
  assert (Hin : In e (incident k L)) by (apply in_incident; auto).
  destruct (incident k L); [contradiction|cbn; lia].
Qed.

Lemma connected_consumed (E done L : list Edge) :
  NoDup (map Index E) ->
  Permutation (done ++ L) E ->
  passing (vertex_keys E) (knots_of E) L None ->
  (forall k, In k (knots_of E) -> deg k L = 0) ->
  forall e, connected_to_knot E e -> ~ In e L.
Proof.
  intros Hnd Hperm Hpass Hknots e Hc.
  induction Hc as [e k He Hk Ht|e f k He Hf IH Htf Hte].
  - apply (deg_zero_not_in k); auto.
  - pose proof (connected_in E f Hf) as HfE.
    assert (HkK : In k (vertex_keys E)) by (eapply vertex_keys_touch; eassumption).
    destruct (in_dec Nat.eq_dec k (knots_of E)) as [Hk|Hk].
    + apply (deg_zero_not_in k); auto.
    + destruct (Hpass k HkK Hk) as [_ H2].
      destruct H2 as [H2|H2]; [discriminate| |apply (deg_zero_not_in k); auto].
      exfalso.
      assert (Hfd : In f done).
      { apply (Permutation_in f (Permutation_sym Hperm)) in HfE.
        apply in_app_or in HfE as [H|H]; [exact H|contradiction]. }
      pose proof (deg_in_pos k done f Hfd Htf) as Hd.
      pose proof (non_knot_degree E k HkK Hk) as HE2.
      rewrite <- (deg_perm k _ _ Hperm), deg_app in HE2. lia.
Qed.

(** ** Undirected edges *)

Lemma undirected_twin (e : Edge) : undirected (Twin e) = undirected e.
Proof.
  unfold undirected, Twin. cbn. rewrite Nat.min_comm, Nat.max_comm. reflexivity.
Qed.

Lemma undirected_same (x e : Edge) : same_edge x e -> undirected x = undirected e.
Proof. intros [->| ->]; [reflexivity|apply undirected_twin]. Qed.

Lemma undirected_forall2 (ws order : list Edge) :
  Forall2 same_edge ws order -> map undirected ws = map undirected order.
Proof.
  induction 1 as [|x e ws order Hxe _ IH]; [reflexivity|].
  cbn. rewrite IH, (undirected_same x e Hxe). reflexivity.
Qed.

Lemma undirected_nodup (E : list Edge) :
  NoDup (map Index E) -> one_half_each E -> NoDup (map undirected E).
Proof.
  intros Hnd Hhalf.
  assert (Hinj : forall e e', In e E -> In e' E ->
                              undirected e = undirected e' -> e = e').
  { intros e e' He He' Hu. apply (index_inj E e e' Hnd He He').
    pose proof (Hhalf e e' He He'). pose proof (Hhalf e' e He' He).
    unfold undirected in Hu. injection Hu as Hmin Hmax. lia. }
  clear Hhalf. induction E as [|x E IH]; [constructor|].
  cbn in *. inversion Hnd as [|? ? Hnotin Hnd']; subst. constructor.
  - intros Hin. apply in_map_iff in Hin as (y & Hy & HyE).
    assert (y = x) by (apply Hinj; auto). subst y.
    apply Hnotin. apply in_map, HyE.
  - apply IH; [exact Hnd'|]. intros e e' He He'. apply Hinj; auto.
Qed.

(** C1, as amended.  For a diagram whose primary edges have distinct
    indices, hold at most one half-edge of each pair and are each
    connected to a knot, [_collectVoronoiWires] returns wires whose
    edges, up to the twin, are a rearrangement of the primary edges:
    every undirected primary edge occurs exactly once in all the wires
    together, and every edge of a wire is a primary edge or its twin. *)
Theorem wires_partition_primary_edges (vd : Diagram) :
  let E := primary_edges vd in
  NoDup (map Index E) ->
  one_half_each E ->
  (forall e, In e E -> connected_to_knot E e) ->
  exists wires : list Wire,
    _collectVoronoiWires vd = Ok wires /\
    (exists order : list Edge,
       Permutation order E /\ Forall2 same_edge (List.concat wires) order) /\
    (forall e, In e E ->
       count_occ undirected_eq_dec
                 (map undirected (List.concat wires)) (undirected e) = 1) /\
    (forall x, In x (List.concat wires) ->
       exists e, In e E /\ undirected x = undirected e).
Proof.
  intros E Hnd Hhalf Hconn.
  destruct (collect_wires vd Hnd) as (wires & done & L & Hc & Hperm & Hf2 & _ & Hp & Hk).
  fold E in Hperm, Hp, Hk.
  assert (HL : L = []).
  { destruct L as [|x L']; [reflexivity|]. exfalso.
    assert (HxE : In x E).
    { eapply Permutation_in; [exact Hperm|]. apply in_or_app. right. left. reflexivity. }
    apply (connected_consumed E done (x :: L') Hnd Hperm Hp Hk x (Hconn x HxE)).
    left. reflexivity. }
  subst L. rewrite app_nil_r in Hperm.
  pose proof (undirected_forall2 _ _ Hf2) as Hmap.
  pose proof (undirected_nodup E Hnd Hhalf) as HndU.
  exists wires. splits.
  - exact Hc.
  - exists done. split; assumption.
  - intros e He. rewrite Hmap.
    rewrite (proj1 (Permutation_count_occ undirected_eq_dec _ _)
               (Permutation_map undirected Hperm)).
    apply NoDup_count_occ'; [exact HndU|]. apply in_map, He.
  - intros x Hx.
    assert (Hu : In (undirected x) (map undirected done)).
    { rewrite <- Hmap. apply in_map, Hx. }
    apply in_map_iff in Hu as (e & Hue & Hed).
    exists e. split; [|symmetry; exact Hue].
    eapply Permutation_in; eassumption.
Qed.

Open Scope R_scope.

(** ** The end points of a wire *)

Lemma wire_end_reversed (w : Wire) : wire_end (reversed_wire w) = wire_begin w.
Proof.
  unfold wire_end, reversed_wire, wire_begin.
  rewrite <- map_rev, rev_involutive. destruct w; reflexivity.
Qed.

Lemma wire_begin_reversed (w : Wire) : wire_begin (reversed_wire w) = wire_end w.
Proof.
  unfold wire_end, reversed_wire, wire_begin.
  destruct (rev w); reflexivity.
Qed.

Lemma list_getitem_first (w : Wire) :
  w <> [] -> exists e, list_getitem w 0 = Ok e /\ toPoint (fst (Vertices e)) = wire_begin w.
Proof.
  intros Hne. destruct w as [|e w']; [contradiction|].
  exists e. rewrite list_getitem_nonneg by lia. split; reflexivity.
Qed.

Lemma list_getitem_final (w : Wire) :
  w <> [] -> exists e, list_getitem w (-1) = Ok e /\ toPoint (snd (Vertices e)) = wire_end w.
Proof.
  intros Hne. destruct (exists_last Hne) as (w' & e & ->).
  exists e. change (-1)%Z with (- Z.of_nat 1)%Z.
  rewrite list_getitem_neg by (rewrite length_app; cbn; lia).
  rewrite length_app. cbn [List.length].
  replace (List.length w' + 1 - 1)%nat with (List.length w' + 0)%nat by lia.
  rewrite nth_error_app2 by lia.
  replace (List.length w' + 0 - List.length w')%nat with 0%nat by lia.
  split; [reflexivity|]. unfold wire_end. rewrite rev_app_distr. reflexivity.
Qed.

(** ** The dictionaries [begin] and [end] *)

Section Sort.
Variable wires : list Wire.

Lemma endpoints_spec (rest : list Wire) :
  forall (i : nat) (before : list Wire),
  wires = before ++ rest -> i = List.length before ->
  Forall (fun w => w <> []) rest ->
  endpoints i rest (tabulate (seq 0 i) (begin_of wires)) (tabulate (seq 0 i) (end_of wires))
  = Ok (tabulate (seq 0 (List.length wires)) (begin_of wires),
        tabulate (seq 0 (List.length wires)) (end_of wires)).
Proof.
  induction rest as [|w rest IH]; intros i before Hw Hi Hne.
  - cbn [endpoints]. rewrite Hw, app_nil_r, <- Hi. reflexivity.
  - apply Forall_cons_iff in Hne as [Hw0 Hne']. subst i.
    cbn [endpoints].
    destruct (list_getitem_first w Hw0) as (e0 & -> & Hb).
    destruct (list_getitem_final w Hw0) as (e1 & -> & He).
    cbn [bind]. rewrite Hb, He.
    assert (Hfresh : forall f : nat -> FreeCAD.Vector,
              ~ In (List.length before) (dict.keys (tabulate (seq 0 (List.length before)) f))).
    { intros f. rewrite keys_tabulate, in_seq. lia. }
    rewrite !setitem_fresh by apply Hfresh.
    assert (Hnth : nth (List.length before) (before ++ w :: rest) [] = w).
    { rewrite app_nth2 by lia. rewrite Nat.sub_diag. reflexivity. }
    assert (Hext : forall f : nat -> FreeCAD.Vector,
              tabulate (seq 0 (List.length before)) f ++ [(List.length before, f (List.length before))]
              = tabulate (seq 0 (S (List.length before))) f).
    { intros f. rewrite seq_S. unfold tabulate. rewrite map_app. reflexivity. }
    replace (wire_begin w) with ((begin_of wires) (List.length before))
      by (unfold begin_of; rewrite Hw, Hnth; reflexivity).
    replace (wire_end w) with ((end_of wires) (List.length before))
      by (unfold end_of; rewrite Hw, Hnth; reflexivity).
    rewrite !Hext.
    apply (IH (S (List.length before)) (before ++ [w])).
    + rewrite <- app_assoc. exact Hw.
    + rewrite length_app. cbn. lia.
    + exact Hne'.
Qed.

(** ** The nearest end point *)

Lemma closestTo_snoc (start : FreeCAD.Vector) (d : dict.t FreeCAD.Vector)
  (ip : nat * FreeCAD.Vector) :
  closestTo start (d ++ [ip])
  = match closestTo start d with
    | None => Some (fst ip, dist start (snd ip))
    | Some (p, l) =>
        if Rlt_dec (dist start (snd ip)) l
        then Some (fst ip, dist start (snd ip))
        else Some (p, l)
    end.
Proof.
  unfold closestTo. rewrite fold_left_app. cbn [fold_left].
  destruct (fold_left _ d None) as [[p l]|]; reflexivity.
Qed.

Lemma closestTo_spec (start : FreeCAD.Vector) (d : dict.t FreeCAD.Vector) :
  match closestTo start d with
  | None => d = []
  | Some (i, l) =>
      exists p, In (i, p) d /\ l = dist start p /\
                forall j q, In (j, q) d -> l <= dist start q
  end.
Proof.
  induction d as [|[j q] d IH] using rev_ind; [reflexivity|].
  rewrite closestTo_snoc. cbn [fst snd].
  destruct (closestTo start d) as [[i l]|].
  - destruct IH as (p & Hin & Hl & Hmin).
    destruct (Rlt_dec (dist start q) l) as [Hlt|Hge].
    + exists q. split; [apply in_or_app; right; left; reflexivity|].
      split; [reflexivity|]. intros j' q' Hin'.
      apply in_app_or in Hin' as [Hin'|[[= <- <-]|[]]].
      * specialize (Hmin j' q' Hin'). lra.
      * lra.
    + exists p. split; [apply in_or_app; left; exact Hin|].
      split; [exact Hl|]. intros j' q' Hin'.
      apply in_app_or in Hin' as [Hin'|[[= <- <-]|[]]].
      * apply Hmin with j'. exact Hin'.
      * lra.
  - subst d. exists q. split; [left; reflexivity|]. split; [reflexivity|].
    intros j' q' [[= <- <-]|[]]. lra.
Qed.

Lemma closestTo_tabulate (start : FreeCAD.Vector) (rem : list nat)
  (f : nat -> FreeCAD.Vector) :
  rem <> [] ->
  exists i, closestTo start (tabulate rem f) = Some (i, dist start (f i)) /\
            In i rem /\ forall j, In j rem -> dist start (f i) <= dist start (f j).
Proof.
  intros Hne. pose proof (closestTo_spec start (tabulate rem f)) as H.
  destruct (closestTo start (tabulate rem f)) as [[i l]|].
  - destruct H as (p & Hin & -> & Hmin).
    unfold tabulate in Hin. apply in_map_iff in Hin as (i' & [= -> <-] & Hi).
    exists i. split; [reflexivity|]. split; [exact Hi|].
    intros j Hj. apply (Hmin j). unfold tabulate. apply in_map_iff.
    exists j. auto.
  - destruct rem; [contradiction|discriminate].
Qed.

(** ** The greedy order *)

Lemma drop_length (i : nat) (rem : list nat) :
  In i rem -> (List.length (drop i rem) < List.length rem)%nat.
Proof.
  intros Hi. unfold drop. induction rem as [|j rem IH]; [contradiction|].
  cbn. destruct (Nat.eqb_spec j i) as [->|Hne]; cbn.
  - clear. induction rem as [|k rem IH]; cbn; [lia|].
    destruct (negb (k =? i)); cbn; lia.
  - destruct Hi as [->|Hi]; [contradiction|]. specialize (IH Hi). lia.
Qed.

Lemma drop_nodup (i : nat) (rem : list nat) : NoDup rem -> NoDup (drop i rem).
Proof. apply NoDup_filter. Qed.

Lemma drop_in (i j : nat) (rem : list nat) : In j (drop i rem) -> In j rem.
Proof. unfold drop. intros H. apply filter_In in H. apply H. Qed.

Lemma nth_wire (i : nat) :
  (i < List.length wires)%nat ->
  nth_error wires i = Some (nth i wires []) /\
  list_getitem wires (Z.of_nat i) = Ok (nth i wires []).
Proof.
  intros Hi. assert (H : nth_error wires i = Some (nth i wires []))
    by (apply nth_error_nth'; exact Hi).
  split; [exact H|].
  rewrite list_getitem_nonneg by lia. rewrite Nat2Z.id, H. reflexivity.
Qed.

Lemma sort_spec (fuel : nat) :
  forall (rem : list nat) (start : FreeCAD.Vector) (acc : list Wire),
  NoDup rem -> (forall i, In i rem -> (i < List.length wires)%nat) ->
  (List.length rem <= fuel)%nat ->
  exists out : list Wire,
    sort fuel wires start (tabulate rem (begin_of wires)) (tabulate rem (end_of wires)) acc
    = Ok (acc ++ out) /\
    greedy wires start rem out.
Proof.
  induction fuel as [|fuel IH]; intros rem start acc Hnd Hlt Hfuel.
  - destruct rem; [|cbn in Hfuel; lia].
    exists []. rewrite app_nil_r. split; [reflexivity|constructor].
  - destruct rem as [|r rem'] eqn:Erem.
    { exists []. rewrite app_nil_r. split; [reflexivity|constructor]. }
    rewrite <- Erem in *.
    assert (Hne : rem <> []) by (rewrite Erem; discriminate).
    replace (sort (S fuel) wires start (tabulate rem (begin_of wires)) (tabulate rem (end_of wires)) acc)
      with (match closestTo start (tabulate rem (begin_of wires)),
                  closestTo start (tabulate rem (end_of wires)) with
            | Some (bIdx, bLen), Some (eIdx, eLen) =>
                if Rlt_dec bLen eLen then
                  (w <- list_getitem wires (Z.of_nat bIdx) ;;
                   start' <- dict.getitem (tabulate rem (end_of wires)) bIdx ;;
                   begin' <- dict.delitem (tabulate rem (begin_of wires)) bIdx ;;
                   end' <- dict.delitem (tabulate rem (end_of wires)) bIdx ;;
                   sort fuel wires start' begin' end' (acc ++ [w]))%result
                else
                  (w <- list_getitem wires (Z.of_nat eIdx) ;;
                   start' <- dict.getitem (tabulate rem (begin_of wires)) eIdx ;;
                   begin' <- dict.delitem (tabulate rem (begin_of wires)) eIdx ;;
                   end' <- dict.delitem (tabulate rem (end_of wires)) eIdx ;;
                   sort fuel wires start' begin' end'
                        (acc ++ [reversed_wire w]))%result
            | _, _ => Raise TypeError
            end)
      by (rewrite Erem; reflexivity).
    destruct (closestTo_tabulate start rem (begin_of wires) Hne) as (b & -> & Hb & Hbmin).
    destruct (closestTo_tabulate start rem (end_of wires) Hne) as (e & -> & He & Hemin).
    destruct (Rlt_dec (dist start ((begin_of wires) b)) (dist start ((end_of wires) e))) as [Hlt'|Hge].
    + destruct (nth_wire b (Hlt b Hb)) as [Hnth ->]. cbn [bind].
      rewrite getitem_tabulate by exact Hb. cbn [bind].
      rewrite !delitem_tabulate by assumption. cbn [bind].
      fold (drop b rem).
      destruct (IH (drop b rem) ((end_of wires) b) (acc ++ [nth b wires []]))
        as (out & Hs & Hg).
      * apply drop_nodup, Hnd.
      * intros i Hi. apply Hlt. eapply drop_in, Hi.
      * pose proof (drop_length b rem Hb). lia.
      * exists (nth b wires [] :: out). rewrite Hs, <- app_assoc.
        split; [reflexivity|].
        apply (greedy_forward wires start rem b); try assumption.
        intros j Hj. fold ((begin_of wires) b). specialize (Hbmin j Hj).
        specialize (Hemin j Hj). split; lra.
    + destruct (nth_wire e (Hlt e He)) as [Hnth ->]. cbn [bind].
      rewrite getitem_tabulate by exact He. cbn [bind].
      rewrite !delitem_tabulate by assumption. cbn [bind].
      fold (drop e rem).
      destruct (IH (drop e rem) ((begin_of wires) e) (acc ++ [reversed_wire (nth e wires [])]))
        as (out & Hs & Hg).
      * apply drop_nodup, Hnd.
      * intros i Hi. apply Hlt. eapply drop_in, Hi.
      * pose proof (drop_length e rem He). lia.
      * exists (reversed_wire (nth e wires []) :: out). rewrite Hs, <- app_assoc.
        split; [reflexivity|].
        apply (greedy_reversed wires start rem e); try assumption.
        -- intros j Hj. fold ((end_of wires) e). specialize (Hbmin j Hj).
           specialize (Hemin j Hj). split; lra.
        -- rewrite wire_end_reversed. exact Hg.
Qed.

End Sort.

Lemma drop_perm (i : nat) (rem : list nat) :
  NoDup rem -> In i rem -> Permutation (i :: drop i rem) rem.
Proof.
  intros Hnd Hi. apply NoDup_Permutation.
  - constructor; [|apply drop_nodup, Hnd].
    unfold drop. rewrite filter_In, Nat.eqb_refl. intros [_ H]. discriminate.
  - exact Hnd.
  - intros j. cbn. unfold drop. rewrite filter_In.
    destruct (Nat.eqb_spec j i) as [->|Hne]; cbn; intuition congruence.
Qed.

Lemma greedy_indices (wires : list Wire) (pos : FreeCAD.Vector)
  (rem : list nat) (out : list Wire) :
  greedy wires pos rem out -> NoDup rem ->
  exists idx : list nat,
    Permutation idx rem /\
    Forall2 (fun r i => exists w, nth_error wires i = Some w /\ up_to_reversal r w)
            out idx.
Proof.
  induction 1 as [pos|pos rem i w out Hi Hw Hn Hg IH|pos rem i w out Hi Hw Hn Hg IH];
    intros Hnd.
  - exists []. split; constructor.
  - destruct (IH (drop_nodup i rem Hnd)) as (idx & Hp & Hf).
    exists (i :: idx). split.
    + rewrite <- (drop_perm i rem Hnd Hi). apply perm_skip, Hp.
    + constructor; [|exact Hf]. exists w. split; [exact Hw|left; reflexivity].
  - destruct (IH (drop_nodup i rem Hnd)) as (idx & Hp & Hf).
    exists (i :: idx). split.
    + rewrite <- (drop_perm i rem Hnd Hi). apply perm_skip, Hp.
    + constructor; [|exact Hf]. exists w. split; [exact Hw|right; reflexivity].
Qed.

Lemma map_nth_all (wires : list Wire) :
  map (fun i => nth i wires []) (seq 0 (List.length wires)) = wires.
Proof.
  induction wires as [|w wires IH]; [reflexivity|].
  cbn [List.length seq map nth]. f_equal.
  rewrite <- seq_shift, map_map. exact IH.
Qed.

Lemma greedy_permutation (wires : list Wire) (pos : FreeCAD.Vector) (out : list Wire) :
  greedy wires pos (seq 0 (List.length wires)) out ->
  exists order : list Wire,
    Permutation order wires /\ Forall2 up_to_reversal out order.
Proof.
  intros Hg.
  destruct (greedy_indices wires pos _ out Hg (seq_NoDup _ _)) as (idx & Hp & Hf).
  exists (map (fun i => nth i wires []) idx). split.
  - apply Permutation_trans
      with (map (fun i => nth i wires []) (seq 0 (List.length wires))).
    + apply Permutation_map, Hp.
    + rewrite map_nth_all. apply Permutation_refl.
  - clear - Hf. induction Hf as [|r i out idx (w & Hw & Hr) _ IH]; [constructor|].
    cbn. constructor; [|exact IH].
    rewrite (nth_error_nth _ _ _ Hw). exact Hr.
Qed.

(** The first wire of the output when the end point of one wire is
    strictly nearer to the position than every other end point. *)
Lemma greedy_head_reversed (wires : list Wire) (pos : FreeCAD.Vector)
  (rem : list nat) (out : list Wire) (i : nat) (w : Wire) :
  greedy wires pos rem out ->
  In i rem -> nth_error wires i = Some w ->
  (forall j, In j rem ->
     dist pos (wire_end w) < dist pos (begin_of wires j) /\
     (j <> i -> dist pos (wire_end w) < dist pos (end_of wires j))) ->
  hd_error out = Some (reversed_wire w).
Proof.
  intros Hg Hi Hw Hstrict.
  assert (Hend : end_of wires i = wire_end w)
    by (unfold end_of; rewrite (nth_error_nth _ _ _ Hw); reflexivity).
  inversion Hg as [pos'|pos' rem' i' w' out' Hi' Hw' Hn Hg'|pos' rem' i' w' out' Hi' Hw' Hn Hg'];
    subst.
  - contradiction.
  - exfalso. destruct (Hn i Hi) as [_ H]. rewrite Hend in H.
    destruct (Hstrict i' Hi') as [H' _].
    unfold begin_of in H'. rewrite (nth_error_nth _ _ _ Hw') in H'. lra.
  - destruct (Nat.eq_dec i' i) as [->|Hne].
    + cbn. congruence.
    + exfalso. destruct (Hn i Hi) as [_ H]. rewrite Hend in H.
      destruct (Hstrict i' Hi') as [_ H']. specialize (H' Hne).
      unfold end_of in H'. rewrite (nth_error_nth _ _ _ Hw') in H'. lra.
Qed.

(** C3.  For wires that are not empty [_sortVoronoiWires] returns; its
    output follows the greedy order: at each step a wire one of whose
    end points is nearest to the position among the begin and end points
    of all remaining wires, reversed (the twins in reverse order) when
    that point is its end point, the position moving to the last point of
    the wire as appended and the wire leaving the pool; the output is a
    permutation of the input up to reversal; and for three wires with
    the end point of the second strictly nearest, the first output wire
    is the second wire reversed. *)
Theorem sort_is_greedy (wires : list Wire) (start : FreeCAD.Vector) :
  Forall (fun w : Wire => w <> []) wires ->
  exists out : list Wire,
    _sortVoronoiWires wires start = Ok out /\
    greedy wires start (seq 0 (List.length wires)) out /\
    (exists order : list Wire,
       Permutation order wires /\ Forall2 up_to_reversal out order) /\
    (forall A B C : Wire,
       wires = [A; B; C] ->
       (forall p, In p [wire_begin A; wire_end A; wire_begin B;
                        wire_begin C; wire_end C] ->
                  dist start (wire_end B) < dist start p) ->
       hd_error out = Some (reversed_wire B)).
Proof.
  intros Hne.
  destruct (sort_spec wires (List.length wires) (seq 0 (List.length wires)) start [])
    as (out & Hs & Hg).
  - apply seq_NoDup.
  - intros i Hi. apply in_seq in Hi. lia.
  - rewrite length_seq. lia.
  - exists out. split; [|split; [exact Hg|split]].
    + unfold _sortVoronoiWires.
      rewrite (endpoints_spec wires wires 0 [] eq_refl eq_refl Hne : 
                 endpoints 0 wires [] [] = _).
      cbn [bind]. exact Hs.
    + eapply greedy_permutation, Hg.
    + intros A B C -> Hstrict.
      apply (greedy_head_reversed [A; B; C] start _ out 1 B Hg).
      * cbn. auto.
      * reflexivity.
      * intros j Hj. cbn in Hj.
        destruct Hj as [<-|[<-|[<-|[]]]]; unfold begin_of, end_of; cbn [nth];
          (split; [|intros Hj]); try (apply Hstrict; cbn; tauto); contradiction.
Qed.

(** * Further properties *)

Open Scope R_scope.

(** ** More on the calculators *)

Lemma max_right (a b : R) : a <= b -> max a b = b.
Proof. intros H. unfold max. destruct (Rlt_dec a b); lra. Qed.

Lemma max_assoc_same (a b : R) : max a (max a b) = max a b.
Proof. unfold max. repeat destruct (Rlt_dec _ _); lra. Qed.

(** X1.  A conical calculator with [0 < A < 180] is exactly linear up to
    the radius of the tool while the final depth is not reached, and
    from the radius on it returns [stop]. *)
Theorem conical_linear_then_flat (D Td A zStart zFinal w : R)
  (c : Con.t) :
  0 < A < 180 -> Con.__init__ D Td A = Ok c ->
  let c' := Con.SetLimits c zStart zFinal in
  (w <= D / 2 -> zFinal <= Con.start c' - w * Con.scale c' ->
   Con.WidthToDepth c' w = Con.start c' - w * Con.scale c') /\
  (D / 2 <= w -> Con.WidthToDepth c' w = Con.stop c').
Proof.
  intros HA Hc c'. pose proof (tan_half_angle_pos A HA) as Ht.
  apply conical_init_inv in Hc as [_ ->].
  set (sc := 1 / math.tan (math.radians (A / 2))) in *.
  assert (Hsc : 0 < sc) by (apply Rdiv_lt_0_compat; lra).
  unfold c', Con.WidthToDepth, Con.SetLimits; cbn. split.
  - intros Hw Hz. apply max_left. apply max_le; [nra|lra].
  - intros Hw. apply max_right.
    eapply Rle_trans; [|apply max_ge_l]. nra.
Qed.

(** X2.  The tip diameter only shifts the width: a cone of diameter [D]
    with a tip of diameter [Td] gives at the width [w] the depth that the
    pointed cone of diameter [D - Td] gives at [w - Td / 2]. *)
Theorem conical_tip_shift (D Td A zStart zFinal w : R) (c c0 : Con.t) :
  Con.__init__ D Td A = Ok c ->
  Con.__init__ (D - Td) 0 A = Ok c0 ->
  Con.WidthToDepth (Con.SetLimits c zStart zFinal) w
  = Con.WidthToDepth (Con.SetLimits c0 zStart zFinal) (w - Td / 2).
Proof.
  intros Hc Hc0.
  apply conical_init_inv in Hc as [_ ->]. apply conical_init_inv in Hc0 as [_ ->].
  unfold Con.WidthToDepth, Con.SetLimits; cbn.
  set (sc := 1 / math.tan (math.radians (A / 2))).
  f_equal; [lra|]. f_equal. lra.
Qed.

(** X3.  The spherical calculator returns [max(zStart, stop)] at width 0
    and [stop] from the radius on. *)
Theorem spherical_ends (D zStart zFinal w : R) :
  0 <= D ->
  let c := Sph.SetLimits (Sph.__init__ D) zStart zFinal in
  Sph.WidthToDepth c 0 = Ok (max zStart (Sph.stop c)) /\
  (D / 2 <= w -> Sph.WidthToDepth c w = Ok (Sph.stop c)).
Proof.
  intros HD c. split.
  - unfold c. destruct (Req_dec D 0) as [->|Hne].
    + rewrite spherical_outside by lra.
      change (Sph.stop (Sph.SetLimits (Sph.__init__ 0) zStart zFinal))
        with (max (zStart - 0 / 2) zFinal).
      f_equal. unfold max. repeat destruct (Rlt_dec _ _); lra.
    + rewrite spherical_inside by lra.
      change (Sph.stop (Sph.SetLimits (Sph.__init__ D) zStart zFinal))
        with (max (zStart - D / 2) zFinal).
      replace ((D / 2) ^ 2 - 0 ^ 2) with ((D / 2) * (D / 2)) by ring.
      rewrite sqrt_square by lra. f_equal. f_equal. lra.
  - intros Hw. unfold c. rewrite spherical_outside by exact Hw.
    change (Sph.stop (Sph.SetLimits (Sph.__init__ D) zStart zFinal))
      with (max (zStart - D / 2) zFinal).
    f_equal. apply max_assoc_same.
Qed.


Lemma conical_init_raises (D Td A : R) (e : exn) :
  Con.__init__ D Td A = Raise e ->
  math.tan (math.radians (A / 2)) = 0 /\ e = ZeroDivisionError.
Proof.
  unfold Con.__init__, truediv.
  destruct (Req_dec_T _ 0) as [E|E]; cbn [bind]; [|discriminate].
  intros H. split; [exact E|congruence].
Qed.



Lemma SetLimits_rebinds (calc : Calculator) (z1 f1 z2 f2 : R) :
  SetLimits (SetLimits calc z1 f1) z2 f2 = SetLimits calc z2 f2.
Proof. destruct calc as [c|c|c]; reflexivity. Qed.

(** What the factory makes before it sets the limits. *)
Lemma factory_shape (tool : Tool) (shape : string) (zStart zFinal : R)
  (console : Console) :
  exists r : result Calculator,
    (forall z f, PathWidthToDepth.WidthToDepthCalculator tool shape z f console
                 = (bind r (fun calc => Ok (SetLimits calc z f)), console)) /\
    (endswith shape "v-bit.fcstd" = true -> 180 <= CuttingEdgeAngle tool ->
     r = Raise (NameError "translate")) /\
    (endswith shape "v-bit.fcstd" = true -> CuttingEdgeAngle tool < 180 ->
     r = bind (Con.__init__ (Diameter tool) (TipDiameter tool)
                            (CuttingEdgeAngle tool))
              (fun c => Ok (Conical c))) /\
    (endswith shape "v-bit.fcstd" = false ->
     endswith shape "ballend.fcstd" = true ->
     r = Ok (Spherical (Sph.__init__ (Diameter tool)))) /\
    (endswith shape "v-bit.fcstd" = false ->
     endswith shape "ballend.fcstd" = false ->
     r = Ok (Unsupported UnsupportedBitToDepthCalculator.mk)).
Proof.
  unfold PathWidthToDepth.WidthToDepthCalculator.
  destruct (endswith shape "v-bit.fcstd") eqn:Ev.
  - destruct (Rge_dec (CuttingEdgeAngle tool) 180) as [Hge|Hlt].
    + exists (Raise (NameError "translate")). cbn [load_global bind].
      splits; try reflexivity; try discriminate; intros; try reflexivity; lra.
    + exists (bind (Con.__init__ (Diameter tool) (TipDiameter tool)
                                 (CuttingEdgeAngle tool))
                   (fun c => Ok (Conical c))).
      splits; try reflexivity; try discriminate; intros; try reflexivity; lra.
  - destruct (endswith shape "ballend.fcstd") eqn:Eb.
    + exists (Ok (Spherical (Sph.__init__ (Diameter tool)))).
      splits; try reflexivity; discriminate.
    + exists (Ok (Unsupported UnsupportedBitToDepthCalculator.mk)).
      splits; try reflexivity; discriminate.
Qed.

(** X6.  The limits given to the factory are set by [SetLimits] on the
    calculator it makes: the factory with other limits returns the same
    calculator rebound, and a later [SetLimits] replaces the limits. *)
Theorem factory_limits_rebound (tool : Tool) (shape : string)
  (z1 f1 z2 f2 : R) (console : Console) (calc : Calculator) :
  PathWidthToDepth.WidthToDepthCalculator tool shape z1 f1 console
  = (Ok calc, console) ->
  PathWidthToDepth.WidthToDepthCalculator tool shape z2 f2 console
  = (Ok (SetLimits calc z2 f2), console) /\
  forall z3 f3 : R,
    SetLimits (SetLimits calc z2 f2) z3 f3 = SetLimits calc z3 f3.
Proof.
  intros H. destruct (factory_shape tool shape z1 f1 console) as (r & Hr & _).
  rewrite Hr in H. rewrite Hr. destruct r as [c0|e]; cbn [bind] in *.
  - injection H as H. subst calc.
    destruct c0; split; try reflexivity; intros z3 f3; reflexivity.
  - discriminate.
Qed.

Open Scope R_scope.

(** ** The outcomes of the factory *)

Lemma factory_console (tool : Tool) (shape : string) (zStart zFinal : R)
  (console : Console) :
  snd (PathWidthToDepth.WidthToDepthCalculator tool shape zStart zFinal console)
  = console.
Proof.
  destruct (factory_shape tool shape zStart zFinal console) as (r & Hr & _).
  rewrite Hr. reflexivity.
Qed.

Lemma factory_supports (tool : Tool) (shape : string) (zStart zFinal : R)
  (console : Console) (calc : Calculator) :
  fst (PathWidthToDepth.WidthToDepthCalculator tool shape zStart zFinal console)
  = Ok calc ->
  (SupportsVcarve calc = true <->
   endswith shape "v-bit.fcstd" = true \/
   endswith shape "ballend.fcstd" = true) /\
  (IsLinear calc = false <->
   endswith shape "v-bit.fcstd" = false /\
   endswith shape "ballend.fcstd" = true).
Proof.
  destruct (factory_shape tool shape zStart zFinal console)
    as (r & Hr & Hwide & Hcone & Hball & Hother).
  rewrite Hr. cbn [fst].
  destruct (endswith shape "v-bit.fcstd") eqn:Ev.
  - destruct (Rle_lt_dec 180 (CuttingEdgeAngle tool)) as [Hge|Hlt].
    + rewrite (Hwide eq_refl Hge). cbn [bind]. discriminate.
    + rewrite (Hcone eq_refl Hlt).
      destruct (Con.__init__ (Diameter tool) (TipDiameter tool)
                             (CuttingEdgeAngle tool)) as [c|e0] eqn:Ec;
        cbn [bind]; [|discriminate].
      intros [= <-]. split.
      * split; [intros _; left; reflexivity|reflexivity].
      * split; [discriminate|intros [H _]; discriminate].
  - destruct (endswith shape "ballend.fcstd") eqn:Eb.
    + rewrite (Hball eq_refl eq_refl). cbn [bind].
      intros [= <-]. split.
      * split; [intros _; right; reflexivity|reflexivity].
      * split; [intros _; split; reflexivity|reflexivity].
    + rewrite (Hother eq_refl eq_refl). cbn [bind].
      intros [= <-]. split.
      * split; [discriminate|intros [H|H]; discriminate].
      * split; [discriminate|intros [_ H]; discriminate].
Qed.

Lemma factory_raises (tool : Tool) (shape : string) (zStart zFinal : R)
  (console : Console) (e : exn) :
  fst (PathWidthToDepth.WidthToDepthCalculator tool shape zStart zFinal console)
  = Raise e ->
  endswith shape "v-bit.fcstd" = true /\
  ((180 <= CuttingEdgeAngle tool /\ e = NameError "translate") \/
   (CuttingEdgeAngle tool < 180 /\
    math.tan (math.radians (CuttingEdgeAngle tool / 2)) = 0 /\
    e = ZeroDivisionError)).
Proof.
  destruct (factory_shape tool shape zStart zFinal console)
    as (r & Hr & Hwide & Hcone & Hball & Hother).
  rewrite Hr. cbn [fst].
  destruct (endswith shape "v-bit.fcstd") eqn:Ev.
  - destruct (Rle_lt_dec 180 (CuttingEdgeAngle tool)) as [Hge|Hlt].
    + rewrite (Hwide eq_refl Hge). cbn [bind].
      intros [= <-]. split; [reflexivity|]. left. split; [exact Hge|reflexivity].
    + rewrite (Hcone eq_refl Hlt).
      destruct (Con.__init__ (Diameter tool) (TipDiameter tool)
                             (CuttingEdgeAngle tool)) as [c|e0] eqn:Ec;
        cbn [bind]; [discriminate|].
      intros [= <-]. split; [reflexivity|]. right.
      destruct (conical_init_raises _ _ _ _ Ec) as [Htan ->].
      split; [exact Hlt|]. split; [exact Htan|reflexivity].
  - destruct (endswith shape "ballend.fcstd") eqn:Eb.
    + rewrite (Hball eq_refl eq_refl). cbn [bind]. discriminate.
    + rewrite (Hother eq_refl eq_refl). cbn [bind]. discriminate.
Qed.


(** ** [isToolSupported] and [opExecute] *)

Section Supported.
Context {collaborators : Collaborators}.

Lemma isToolSupported_factory (tool : Tool) (console : Console) (z f : R) :
  isToolSupported tool console
  = (bind (fst (PathWidthToDepth.WidthToDepthCalculator
                  tool (BitShape tool) z f console))
          (fun calc => Ok (SupportsVcarve calc)),
     console).
Proof.
  unfold isToolSupported.
  destruct (factory_shape tool (BitShape tool) 0 0 console) as (r & Hr & _).
  rewrite !Hr. cbn [fst]. destruct r as [c|e]; cbn [bind]; [|reflexivity].
  destruct c; reflexivity.
Qed.

(** X8.  [isToolSupported] gives the answer of the check that
    [opExecute] makes: it does not depend on the limits, it is [False]
    exactly for a shape that is neither a v-bit nor a ball, and then
    [opExecute] prints its message and returns with nothing else
    changed; when it raises, [opExecute] raises the same exception. *)
Theorem isToolSupported_agrees (model0 : Model) (models : list Model)
  (obj : Obj) (w : World) :
  let tool := ToolController_Tool obj in
  let answer := isToolSupported tool (console w) in
  snd answer = console w /\
  (fst answer = Ok false <->
   endswith (BitShape tool) "v-bit.fcstd" = false /\
   endswith (BitShape tool) "ballend.fcstd" = false) /\
  (fst answer = Ok false ->
   opExecute (model0 :: models) obj w
   = (Ok tt, set_console w (console w ++ [unsupported_message]))) /\
  (forall e : exn, fst answer = Raise e ->
   opExecute (model0 :: models) obj w = (Raise e, w)).
Proof.
  intros tool answer. unfold answer.
  rewrite (isToolSupported_factory tool (console w) (ZMax model0) (FinalDepth obj)).
  cbn [fst snd].
  pose proof (factory_console tool (BitShape tool) (ZMax model0) (FinalDepth obj)
                (console w)) as Hsnd.
  pose proof (fun calc => factory_supports tool (BitShape tool) (ZMax model0)
                            (FinalDepth obj) (console w) calc) as Hok.
  pose proof (fun e => factory_raises tool (BitShape tool) (ZMax model0)
                         (FinalDepth obj) (console w) e) as Hraise.
  assert (Hexec : opExecute (model0 :: models) obj w
    = let '(r, c) := PathWidthToDepth.WidthToDepthCalculator
                       tool (BitShape tool) (ZMax model0) (FinalDepth obj)
                       (console w) in
      match r with
      | Raise e => (Raise e, set_console w c)
      | Ok calc =>
          if negb (SupportsVcarve calc) then
            (Ok tt,
             set_console (set_console w c)
               (PrintError (translate "Path_Vcarve" unsupported_message)
                           (console (set_console w c))))
          else
            let '(r, w') :=
              match gather_faces (model0 :: models) obj with
              | _ :: _ => buildPathMedial obj calc
                            (gather_faces (model0 :: models) obj)
                            (set_console w c)
              | [] => (Ok tt,
                       PathLog_error (translate "PathVcarve" no_element_message)
                                     (set_console w c))
              end in
            match r with
            | Ok _ => (Ok tt, w')
            | Raise e =>
                (Ok tt,
                 PathLog_error (translate "PathVcarve" processing_message) w')
            end
      end).
  { unfold opExecute. cbv zeta.
    change (list_getitem (model0 :: models) 0) with (Ok model0). reflexivity. }
  destruct (PathWidthToDepth.WidthToDepthCalculator tool (BitShape tool)
              (ZMax model0) (FinalDepth obj) (console w)) as [r c] eqn:Ef.
  cbn [fst snd] in *. subst c. split; [reflexivity|].
  destruct r as [calc|e0]; cbn [bind].
  - destruct (Hok calc eq_refl) as [Hsup _].
    rewrite Hexec. clear Hexec.
    destruct (SupportsVcarve calc) eqn:Es; cbn [negb]; splits.
    + split; [discriminate|]. intros [Hv Hb].
      destruct (proj1 Hsup eq_refl); congruence.
    + discriminate.
    + intros e; discriminate.
    + split; [intros _|reflexivity].
      destruct (endswith (BitShape tool) "v-bit.fcstd"),
               (endswith (BitShape tool) "ballend.fcstd");
        try (split; reflexivity);
        exfalso; assert (false = true) by (apply Hsup; auto); discriminate.
    + intros _. destruct w; reflexivity.
    + intros e; discriminate.
  - splits.
    + split; [discriminate|]. intros [Hv _].
      destruct (Hraise e0 eq_refl) as [Hv' _]. congruence.
    + discriminate.
    + intros e [= <-]. rewrite Hexec. destruct w; reflexivity.
Qed.

(** X9.  The exceptions that escape [opExecute]: [IndexError] without a
    model and the exception of the factory, the state being left as it
    was; once the factory has returned, [opExecute] returns. *)
Theorem opExecute_escapes (obj : Obj) (w : World) :
  let tool := ToolController_Tool obj in
  opExecute [] obj w = (Raise IndexError, w) /\
  (forall (model0 : Model) (models : list Model),
     let made := PathWidthToDepth.WidthToDepthCalculator
                   tool (BitShape tool) (ZMax model0) (FinalDepth obj)
                   (console w) in
     (forall e : exn, fst made = Raise e ->
        opExecute (model0 :: models) obj w = (Raise e, w)) /\
     (forall calc : Calculator, fst made = Ok calc ->
        fst (opExecute (model0 :: models) obj w) = Ok tt)).
Proof.
  intros tool. split; [reflexivity|].
  intros model0 models made. unfold made.
  pose proof (factory_console tool (BitShape tool) (ZMax model0) (FinalDepth obj)
                (console w)) as Hsnd.
  unfold opExecute. cbv zeta.
  change (list_getitem (model0 :: models) 0) with (Ok model0). cbv iota beta.
  fold tool.
  destruct (PathWidthToDepth.WidthToDepthCalculator tool (BitShape tool)
              (ZMax model0) (FinalDepth obj) (console w)) as [r c].
  cbn [fst snd] in *. subst c. split.
  - intros e ->. destruct w; reflexivity.
  - intros calc ->. destruct (negb (SupportsVcarve calc)); [reflexivity|].
    destruct (gather_faces (model0 :: models) obj) as [|f faces].
    + reflexivity.
    + destruct (buildPathMedial obj calc (f :: faces) _) as [[u|e] w1]; reflexivity.
Qed.

End Supported.

Open Scope R_scope.

(** ** The commands of a run that succeeds *)

Section Traverse.
Context {A B : Type}.
Variable f : A -> result B.

Lemma mapM_Forall2 (l : list A) (bs : list B) :
  mapM f l = Ok bs <-> Forall2 (fun a b => f a = Ok b) l bs.
Proof.
  revert bs. induction l as [|a l IH]; intros bs; cbn [mapM].
  - split.
    + intros [= <-]. constructor.
    + intros H. inversion H. reflexivity.
  - split.
    + destruct (f a) as [b|e] eqn:Ea; cbn [bind]; [|discriminate].
      destruct (mapM f l) as [bs'|e] eqn:El; cbn [bind]; [|discriminate].
      intros [= <-]. constructor; [exact Ea|]. apply IH. reflexivity.
    + intros H. inversion H as [|a' b l' bs' Hab Hl]; subst.
      rewrite Hab. cbn [bind]. apply IH in Hl. rewrite Hl. reflexivity.
Qed.

Lemma mapM_raises (l : list A) (e : exn) :
  mapM f l = Raise e -> exists a, In a l /\ f a = Raise e.
Proof.
  induction l as [|a l IH]; cbn [mapM]; [discriminate|].
  destruct (f a) as [b|e0] eqn:Ea; cbn [bind].
  - destruct (mapM f l) as [bs'|e1] eqn:El; cbn [bind]; [discriminate|].
    intros [= <-]. destruct (IH eq_refl) as (a' & Hin & Ha').
    exists a'. split; [right; exact Hin|exact Ha'].
  - intros [= <-]. exists a. split; [left; reflexivity|exact Ea].
Qed.

End Traverse.

Section Paths.
Context {collaborators : Collaborators}.
Variables (obj : Obj) (calc : Calculator).

(** X10.  [cutWire] raises [IndexError] for no edges.  Otherwise its
    commands are the approach to the first point of the first edge and
    then the commands of the edges in order, and it raises only what
    [cmdsForEdge] raises for one of the edges. *)
Theorem cutWire_commands :
  cutWire obj [] = Raise IndexError /\
  forall (e : PartEdge) (es : list PartEdge),
    (forall cmds : list Command,
       cutWire obj (e :: es) = Ok cmds <->
       exists groups : list (list Command),
         Forall2 (fun e' g => cmdsForEdge e' (HorizFeed obj) (VertFeed obj) = Ok g)
                 (e :: es) groups /\
         cmds = approach obj (firstPoint e) ++ List.concat groups) /\
    (forall x : exn,
       cutWire obj (e :: es) = Raise x ->
       exists e' : PartEdge,
         In e' (e :: es) /\
         cmdsForEdge e' (HorizFeed obj) (VertFeed obj) = Raise x).
Proof.
  split; [reflexivity|]. intros e es.
  unfold cutWire.
  change (list_getitem (e :: es) 0) with (Ok e). cbn [bind app].
  split.
  - intros cmds.
    destruct (mapM (fun e0 => cmdsForEdge e0 (HorizFeed obj) (VertFeed obj))
                   (e :: es)) as [groups|x] eqn:Em.
    + apply mapM_Forall2 in Em. split.
      * intros [= <-]. exists groups. split; [exact Em|reflexivity].
      * intros (groups' & HF & ->).
        apply mapM_Forall2 in Em, HF. rewrite Em in HF.
        injection HF as <-. reflexivity.
    + split; [discriminate|].
      intros (groups' & HF & _). apply mapM_Forall2 in HF. congruence.
  - intros x.
    destruct (mapM (fun e0 => cmdsForEdge e0 (HorizFeed obj) (VertFeed obj))
                   (e :: es)) as [groups|x'] eqn:Em; [discriminate|].
    intros [= <-]. exact (mapM_raises _ _ _ Em).
Qed.

Lemma regions_success (faces : list Face) (vw vws : list Wire) (w w' : World) :
  regions obj calc faces vw w = (Ok vws, w') ->
  exists rs : list (Diagram * list Wire),
    Forall2 (fun f r => region obj calc f = Ok r) faces rs /\
    vws = vw ++ List.concat (map snd rs) /\
    VD w' = VD w ++ map entry_of (combine faces rs).
Proof.
  revert vw w. induction faces as [|f faces IH]; intros vw w; cbn [regions].
  - intros [= <- <-]. exists []. splits; [constructor| |];
      cbn; rewrite app_nil_r; reflexivity.
  - destruct (region obj calc f) as [[vd wires]|e] eqn:Er; [|discriminate].
    intros H. destruct (IH _ _ H) as (rs & HF & Hv & HVD).
    exists ((vd, wires) :: rs). splits.
    + constructor; assumption.
    + rewrite Hv. cbn [map snd List.concat]. rewrite app_assoc. reflexivity.
    + rewrite HVD. cbn [set_VD VD combine map]. rewrite <- app_assoc.
      reflexivity.
Qed.

Lemma extended_nil (vd : list (Face * Diagram * list WireItem)) :
  extended vd [] = vd.
Proof.
  unfold extended. destruct (rev vd) as [|[[f d] items] before] eqn:E.
  - apply (f_equal (@rev _)) in E. rewrite rev_involutive in E. exact (eq_sym E).
  - cbn [map]. rewrite app_nil_r.
    apply (f_equal (@rev _)) in E. rewrite rev_involutive in E. exact (eq_sym E).
Qed.

Lemma extended_cons (w : World) (p : list PartEdge) (cut : list (list PartEdge)) :
  extended (VD (append_to_last_wires w p)) cut = extended (VD w) (p :: cut).
Proof.
  unfold append_to_last_wires, extended.
  destruct (rev (VD w)) as [|[[f d] items] before] eqn:E.
  - rewrite E. reflexivity.
  - cbn [set_VD VD]. rewrite rev_app_distr, rev_involutive. cbn [rev app].
    cbn [map]. rewrite <- app_assoc. reflexivity.
Qed.

Lemma paths_success (ws : list Wire) (pl pl' : list Command) (w w' : World) :
  paths obj calc ws pl w = (Ok pl', w') ->
  exists (parts : list (list PartEdge)) (groups : list (list Command)),
    mapM (fun vw => _getPartEdges vw calc) ws = Ok parts /\
    Forall2 (fun p g => cutWire obj p = Ok g) (filter nonempty parts) groups /\
    pl' = pl ++ List.concat groups /\
    VD w' = extended (VD w) (filter nonempty parts).
Proof.
  revert pl w. induction ws as [|vw ws IH]; intros pl w; cbn [paths mapM].
  - intros [= <- <-]. exists [], []. splits; [reflexivity|constructor| |].
    + cbn. rewrite app_nil_r. reflexivity.
    + cbn [filter]. rewrite extended_nil. reflexivity.
  - destruct (_getPartEdges vw calc) as [[|p pWire]|e] eqn:Eg; [| |discriminate].
    + intros H. destruct (IH _ _ H) as (parts & groups & Hm & HF & Hpl & HVD).
      exists ([] :: parts), groups. rewrite Hm. cbn [bind filter nonempty].
      splits; auto.
    + destruct (cutWire obj (p :: pWire)) as [cmds|e] eqn:Ec; [|discriminate].
      intros H. destruct (IH _ _ H) as (parts & groups & Hm & HF & Hpl & HVD).
      exists ((p :: pWire) :: parts), (cmds :: groups).
      rewrite Hm. cbn [bind filter nonempty]. splits.
      * reflexivity.
      * constructor; assumption.
      * rewrite Hpl. cbn [List.concat]. rewrite app_assoc. reflexivity.
      * rewrite HVD. apply extended_cons.
Qed.

Lemma combine_entries (faces : list Face) (rs : list (Diagram * list Wire)) :
  List.length faces = List.length rs ->
  map face_of (map entry_of (combine faces rs)) = faces /\
  Forall (fun entry => part_wires (wires_of entry) = [])
         (map entry_of (combine faces rs)).
Proof.
  revert rs. induction faces as [|f faces IH]; intros [|r rs] Hlen;
    try discriminate; cbn [combine map].
  - split; constructor.
  - injection Hlen as Hlen. destruct (IH rs Hlen) as [Hf Hp]. split.
    + cbn. f_equal. exact Hf.
    + constructor; [|exact Hp].
      unfold wires_of, entry_of, part_wires. cbn [snd fst].
      induction (snd r) as [|x xs IHx]; [reflexivity|exact IHx].
Qed.

Lemma part_wires_app (a b : list WireItem) :
  part_wires (a ++ b) = part_wires a ++ part_wires b.
Proof. unfold part_wires. apply flat_map_app. Qed.

Lemma part_wires_PartWire (cut : list (list PartEdge)) :
  part_wires (map PartWire cut) = cut.
Proof.
  induction cut as [|p cut IH]; [reflexivity|].
  cbn. f_equal. exact IH.
Qed.

Lemma no_part_wires (vd : list (Face * Diagram * list WireItem)) :
  Forall (fun entry => part_wires (wires_of entry) = []) vd ->
  flat_map (fun entry => part_wires (wires_of entry)) vd = [].
Proof.
  induction 1 as [|x l Hx Hb IH]; [reflexivity|].
  cbn [flat_map]. rewrite Hx, IH. reflexivity.
Qed.

Lemma extended_entries (vd : list (Face * Diagram * list WireItem))
  (cut : list (list PartEdge)) :
  Forall (fun entry => part_wires (wires_of entry) = []) vd ->
  (vd = [] -> cut = []) ->
  map face_of (extended vd cut) = map face_of vd /\
  Forall (fun entry => part_wires (wires_of entry) = [])
         (removelast (extended vd cut)) /\
  flat_map (fun entry => part_wires (wires_of entry)) (extended vd cut) = cut.
Proof.
  intros Hall Hnil. unfold extended.
  destruct (rev vd) as [|[[f d] items] before] eqn:E.
  - apply (f_equal (@rev _)) in E. rewrite rev_involutive in E. cbn in E.
    subst vd. rewrite (Hnil eq_refl). splits; constructor.
  - apply (f_equal (@rev _)) in E. rewrite rev_involutive in E. cbn [rev] in E.
    subst vd. apply Forall_app in Hall. destruct Hall as [Hb Hl].
    inversion Hl as [|x l Hx _]; subst. unfold wires_of in Hx. cbn [snd] in Hx.
    splits.
    + rewrite !map_app. reflexivity.
    + rewrite removelast_last. exact Hb.
    + rewrite flat_map_app, (no_part_wires _ Hb). cbn [flat_map app].
      rewrite app_nil_r. unfold wires_of. cbn [snd].
      rewrite part_wires_app, Hx, part_wires_PartWire. reflexivity.
Qed.

(** The state in which [buildPathMedial] returns. *)
Lemma buildPathMedial_run (faces : list Face) (w w' : World) :
  buildPathMedial obj calc faces w = (Ok tt, w') ->
  exists (rs : list (Diagram * list Wire)) (sorted : list Wire)
         (parts : list (list PartEdge)) (groups : list (list Command)),
    Forall2 (fun f r => region obj calc f = Ok r) faces rs /\
    _sortVoronoiWires (List.concat (map snd rs)) origin = Ok sorted /\
    mapM (fun vw => _getPartEdges vw calc) sorted = Ok parts /\
    Forall2 (fun p g => cutWire obj p = Ok g) (filter nonempty parts) groups /\
    w' = mkWorld (mkCommand "(starting)" [] :: List.concat groups)
                 (extended (map entry_of (combine faces rs))
                           (filter nonempty parts))
                 (console w) (pathlog w).
Proof.
  intros H.
  pose proof (buildPathMedial_log obj calc faces w) as Hlog.
  rewrite H in Hlog. cbn [snd] in Hlog. destruct Hlog as [Hlog Hcon].
  unfold buildPathMedial in H.
  destruct (regions obj calc faces [] (set_VD w [])) as [[vws|e1] w1] eqn:Er;
    [|discriminate].
  destruct (regions_success _ _ _ _ _ Er) as (rs & HF & Hv & HVD).
  cbn [app set_VD VD] in Hv, HVD. subst vws.
  change (if (_sorting =? "global")%string
          then _sortVoronoiWires (List.concat (map snd rs)) origin
          else Ok (List.concat (map snd rs)))
    with (_sortVoronoiWires (List.concat (map snd rs)) origin) in H.
  destruct (_sortVoronoiWires (List.concat (map snd rs)) origin)
    as [sorted|e2] eqn:Es; [|discriminate].
  destruct (paths obj calc sorted [mkCommand "(starting)" []] w1)
    as [[pl|e3] w2] eqn:Ep; [|discriminate].
  injection H as <-.
  destruct (paths_success _ _ _ _ _ Ep) as (parts & groups & Hm & Hg & Hpl & HVD2).
  exists rs, sorted, parts, groups. splits; try assumption.
  cbn [set_commandlist pathlog console] in Hlog, Hcon.
  unfold set_commandlist. rewrite Hlog, Hcon, HVD2, HVD, Hpl. reflexivity.
Qed.

Lemma run_entries (faces : list Face) (rs : list (Diagram * list Wire))
  (sorted : list Wire) (parts : list (list PartEdge)) :
  Forall2 (fun f r => region obj calc f = Ok r) faces rs ->
  _sortVoronoiWires (List.concat (map snd rs)) origin = Ok sorted ->
  mapM (fun vw => _getPartEdges vw calc) sorted = Ok parts ->
  let vd := extended (map entry_of (combine faces rs)) (filter nonempty parts) in
  map face_of vd = faces /\
  Forall (fun entry => part_wires (wires_of entry) = []) (removelast vd) /\
  flat_map (fun entry => part_wires (wires_of entry)) vd = filter nonempty parts.
Proof.
  intros HF Es Hm vd. unfold vd. clear vd.
  pose proof (Forall2_length HF) as Hlen.
  destruct (combine_entries faces rs Hlen) as [Hfaces Hnone].
  assert (Hnil : map entry_of (combine faces rs) = [] ->
                 filter nonempty parts = []).
  { intros Hw1. rewrite Hw1 in Hfaces. cbn in Hfaces. subst faces.
    inversion HF; subst. cbn in Es. injection Es as <-.
    cbn in Hm. injection Hm as <-. reflexivity. }
  destruct (extended_entries _ (filter nonempty parts) Hnone Hnil)
    as (Hf' & Hb' & Hcut).
  splits; try assumption. rewrite Hf'. exact Hfaces.
Qed.

(** X11.  When [buildPathMedial] returns, every face had a diagram and
    wires, the wires of all faces were sorted together, and the command
    list is [(starting)] followed by the commands of [cutWire] for the
    non-empty wires of part edges, in the sorted order.  [VD] has one
    entry for each face, in order; the wires of part edges are all in
    the entry of the last face; nothing is printed or logged. *)
Theorem buildPathMedial_success (faces : list Face) (w w' : World) :
  buildPathMedial obj calc faces w = (Ok tt, w') ->
  exists (rs : list (Diagram * list Wire)) (sorted : list Wire)
         (parts : list (list PartEdge)) (groups : list (list Command)),
    Forall2 (fun f r => region obj calc f = Ok r) faces rs /\
    _sortVoronoiWires (List.concat (map snd rs)) origin = Ok sorted /\
    mapM (fun vw => _getPartEdges vw calc) sorted = Ok parts /\
    Forall2 (fun p g => cutWire obj p = Ok g) (filter nonempty parts) groups /\
    commandlist w' = mkCommand "(starting)" [] :: List.concat groups /\
    map face_of (VD w') = faces /\
    Forall (fun entry => part_wires (wires_of entry) = [])
           (removelast (VD w')) /\
    flat_map (fun entry => part_wires (wires_of entry)) (VD w')
    = filter nonempty parts /\
    pathlog w' = pathlog w /\
    console w' = console w.
Proof.
  intros H.
  destruct (buildPathMedial_run faces w w' H)
    as (rs & sorted & parts & groups & HF & Es & Hm & Hg & ->).
  exists rs, sorted, parts, groups.
  destruct (run_entries faces rs sorted parts HF Es Hm) as (Hf & Hb & Hc).
  cbn [commandlist VD pathlog console]. splits; auto.
Qed.

End Paths.

Section Reports.
Context {collaborators : Collaborators}.

(** X12.  [opExecute] ends in one of five ways: an exception with the
    state as it was; the message of the unsupported tool printed; the
    message of the missing element logged; the message of the failed
    run logged, the command list being as before in all of these; or a
    new command list that starts with [(starting)], with one entry of
    [VD] for each face and nothing printed or logged. *)
Theorem opExecute_reports (model : list Model) (obj : Obj) (w : World) :
  let w' := snd (opExecute model obj w) in
  (exists e : exn, fst (opExecute model obj w) = Raise e /\ w' = w) \/
  fst (opExecute model obj w) = Ok tt /\
  ((w' = set_console w (console w ++ [unsupported_message])) \/
   (gather_faces model obj = [] /\
    w' = PathLog_error no_element_message w) \/
   (commandlist w' = commandlist w /\
    console w' = console w /\
    pathlog w' = pathlog w ++ [processing_message]) \/
   ((exists rest : list Command,
       commandlist w' = mkCommand "(starting)" [] :: rest) /\
    map face_of (VD w') = gather_faces model obj /\
    console w' = console w /\
    pathlog w' = pathlog w)).
Proof.
  intros w'. unfold w'. clear w'.
  destruct model as [|model0 models].
  { left. exists IndexError. split; reflexivity. }
  set (tool := ToolController_Tool obj).
  pose proof (factory_console tool (BitShape tool) (ZMax model0) (FinalDepth obj)
                (console w)) as Hsnd.
  unfold opExecute. cbv zeta.
  change (list_getitem (model0 :: models) 0) with (Ok model0). cbv iota beta.
  fold tool.
  destruct (PathWidthToDepth.WidthToDepthCalculator tool (BitShape tool)
              (ZMax model0) (FinalDepth obj) (console w)) as [r c].
  cbn [fst snd] in *. subst c.
  assert (Hw : set_console w (console w) = w) by (destruct w; reflexivity).
  rewrite Hw.
  destruct r as [calc|e].
  2:{ left. exists e. split; reflexivity. }
  right. destruct (negb (SupportsVcarve calc)).
  { split; [reflexivity|]. left. reflexivity. }
  destruct (gather_faces (model0 :: models) obj) as [|f faces] eqn:Eg.
  { split; [reflexivity|]. right. left. split; reflexivity. }
  pose proof (buildPathMedial_log obj calc (f :: faces) w) as [Hlog Hcon].
  pose proof (buildPathMedial_failure obj calc (f :: faces) w) as Hfail.
  pose proof (buildPathMedial_run obj calc (f :: faces) w) as Hsucc.
  destruct (buildPathMedial obj calc (f :: faces) w) as [[[]|e] w1];
    cbn [fst snd] in *.
  - split; [reflexivity|]. right. right. right.
    destruct (Hsucc w1 eq_refl)
      as (rs & sorted & parts & groups & HF & Es & Hm & _ & ->).
    destruct (run_entries obj calc (f :: faces) rs sorted parts HF Es Hm)
      as (Hf & _).
    cbn [commandlist VD pathlog console] in *.
    splits; try assumption; try reflexivity. eexists. reflexivity.
  - split; [reflexivity|]. right. right. left.
    cbn [PathLog_error commandlist console pathlog].
    splits; [exact (Hfail e eq_refl)|exact Hcon|rewrite Hlog; reflexivity].
Qed.

End Reports.

Open Scope R_scope.

(** ** More on the order of the wires *)

Lemma Twin_involutive (e : Edge) : Twin (Twin e) = e.
Proof. destruct e as [i [a b] c ti tc]. reflexivity. Qed.

Lemma reversed_wire_involutive (w : Wire) : reversed_wire (reversed_wire w) = w.
Proof.
  unfold reversed_wire. rewrite <- map_rev, map_map, rev_involutive.
  rewrite <- (map_id w) at 2. apply map_ext. apply Twin_involutive.
Qed.

Lemma sort_returns (wires : list Wire) (start : FreeCAD.Vector) :
  Forall (fun w : Wire => w <> []) wires ->
  exists out : list Wire,
    _sortVoronoiWires wires start = Ok out /\
    greedy wires start (seq 0 (List.length wires)) out.
Proof.
  intros Hne.
  destruct (sort_spec wires (List.length wires) (seq 0 (List.length wires)) start [])
    as (out & Hs & Hg).
  - apply seq_NoDup.
  - intros i Hi. apply in_seq in Hi. lia.
  - rewrite length_seq. lia.
  - exists out. split; [|exact Hg].
    unfold _sortVoronoiWires.
    rewrite (endpoints_spec wires wires 0 [] eq_refl eq_refl Hne :
               endpoints 0 wires [] [] = _).
    cbn [bind]. exact Hs.
Qed.

Lemma endpoints_raises (rest : list Wire) :
  forall (i : nat) (b e : dict.t FreeCAD.Vector),
  Exists (fun w : Wire => w = []) rest ->
  endpoints i rest b e = Raise IndexError.
Proof.
  induction rest as [|w rest IH]; intros i b e Hex.
  - inversion Hex.
  - cbn [endpoints]. destruct w as [|x w'].
    + reflexivity.
    + assert (Hw : x :: w' <> []) by discriminate.
      destruct (list_getitem_first (x :: w') Hw) as (e0 & -> & _).
      destruct (list_getitem_final (x :: w') Hw) as (e1 & -> & _).
      cbn [bind]. apply IH.
      inversion Hex as [? ? H|? ? H]; subst; [discriminate|exact H].
Qed.

(** X13.  [_sortVoronoiWires] raises exactly when one of the wires is
    empty, and then [IndexError]; it returns as many wires as it was
    given. *)
Theorem sort_raises_on_empty_wire (wires : list Wire) (start : FreeCAD.Vector) :
  (forall e : exn,
     _sortVoronoiWires wires start = Raise e <->
     e = IndexError /\ Exists (fun w : Wire => w = []) wires) /\
  (forall out : list Wire,
     _sortVoronoiWires wires start = Ok out ->
     List.length out = List.length wires).
Proof.
  assert (Hdec : forall w : Wire, {w = []} + {w <> []}).
  { intros [|x w]; [left; reflexivity|right; discriminate]. }
  destruct (Exists_dec (fun w : Wire => w = []) wires Hdec) as [Hex|Hnex].
  - assert (Hr : _sortVoronoiWires wires start = Raise IndexError).
    { unfold _sortVoronoiWires. rewrite endpoints_raises by exact Hex. reflexivity. }
    rewrite Hr. split.
    + intros e. split.
      * intros [= <-]. split; [reflexivity|exact Hex].
      * intros [-> _]. reflexivity.
    + discriminate.
  - assert (Hne : Forall (fun w : Wire => w <> []) wires).
    { apply Forall_forall. intros w Hw Hnil. apply Hnex.
      apply Exists_exists. exists w. split; assumption. }
    destruct (sort_returns wires start Hne) as (out & Hs & Hg).
    rewrite Hs. split.
    + intros e. split; [discriminate|]. intros [_ Hex]. contradiction.
    + intros out' [= <-].
      destruct (greedy_permutation wires start out Hg) as (order & Hp & Hf).
      rewrite (Forall2_length Hf). apply Permutation_length, Hp.
Qed.

(** X14.  [closestTo] returns [None] for no points and otherwise the
    first key at the least distance: the points before it are strictly
    farther, the points after it are not nearer. *)
Theorem closestTo_first_minimum (start : FreeCAD.Vector)
  (d : dict.t FreeCAD.Vector) :
  (closestTo start d = None <-> d = []) /\
  (forall (i : nat) (l : R),
     closestTo start d = Some (i, l) ->
     exists (before after : dict.t FreeCAD.Vector) (p : FreeCAD.Vector),
       d = before ++ (i, p) :: after /\
       l = dist start p /\
       (forall j q, In (j, q) before -> dist start p < dist start q) /\
       (forall j q, In (j, q) after -> dist start p <= dist start q)).
Proof.
  induction d as [|[j q] d IH] using rev_ind.
  - split; [split; reflexivity|]. discriminate.
  - rewrite closestTo_snoc. cbn [fst snd]. destruct IH as [IHn IHs].
    destruct (closestTo start d) as [[i0 l0]|] eqn:Ec.
    + destruct (IHs i0 l0 eq_refl) as (before & after & p & Hd & Hl & Hb & Ha).
      split.
      { split.
        - destruct (Rlt_dec (dist start q) l0); discriminate.
        - intros H. destruct d; discriminate. }
      intros i l. destruct (Rlt_dec (dist start q) l0) as [Hlt|Hge].
      * intros [= <- <-]. exists d, [], q. splits.
        -- reflexivity.
        -- reflexivity.
        -- intros j' q' Hin. rewrite Hd in Hin.
           apply in_app_or in Hin as [Hin|[[= <- <-]|Hin]].
           ++ specialize (Hb _ _ Hin). lra.
           ++ lra.
           ++ specialize (Ha _ _ Hin). lra.
        -- intros j' q' [].
      * intros [= <- <-]. exists before, (after ++ [(j, q)]), p. splits.
        -- rewrite Hd, <- app_assoc. reflexivity.
        -- exact Hl.
        -- exact Hb.
        -- intros j' q' Hin. apply in_app_or in Hin as [Hin|[[= <- <-]|[]]].
           ++ apply (Ha _ _ Hin).
           ++ lra.
    + assert (Hd : d = []) by (apply IHn; reflexivity). subst d.
      split.
      { split; [discriminate|]. intros H. discriminate. }
      intros i l [= <- <-]. exists [], [], q. splits; try reflexivity.
      * intros j' q' [].
      * intros j' q' [].
Qed.

(** X15.  A single wire is put out forwards when its begin point is
    strictly nearer to the start than its end point and reversed
    otherwise; a wire whose two end points are equally far, as those of
    a closed wire, is reversed. *)
Theorem sort_single_wire (w : Wire) (start : FreeCAD.Vector) :
  w <> [] ->
  (dist start (wire_begin w) < dist start (wire_end w) ->
   _sortVoronoiWires [w] start = Ok [w]) /\
  (dist start (wire_end w) <= dist start (wire_begin w) ->
   _sortVoronoiWires [w] start = Ok [reversed_wire w]) /\
  (wire_begin w = wire_end w ->
   _sortVoronoiWires [w] start = Ok [reversed_wire w]).
Proof.
  intros Hne.
  assert (Hs : _sortVoronoiWires [w] start
               = Ok [if Rlt_dec (dist start (wire_begin w)) (dist start (wire_end w))
                     then w else reversed_wire w]).
  { assert (Hall : Forall (fun w : Wire => w <> []) [w])
      by (constructor; [exact Hne|constructor]).
    unfold _sortVoronoiWires.
    rewrite (endpoints_spec [w] [w] 0 [] eq_refl eq_refl Hall
             : endpoints 0 [w] [] [] = _).
    cbn [bind List.length seq tabulate map sort closestTo fold_left fst snd].
    unfold begin_of, end_of. cbn [nth].
    fold (dist start (wire_begin w)). fold (dist start (wire_end w)).
    destruct (Rlt_dec (dist start (wire_begin w)) (dist start (wire_end w)));
      reflexivity. }
  rewrite Hs. clear Hs. splits.
  - intros H. destruct (Rlt_dec _ _); [reflexivity|exfalso; lra].
  - intros H. destruct (Rlt_dec _ _); [exfalso; lra|reflexivity].
  - intros H. rewrite H. destruct (Rlt_dec _ _) as [Hlt|_]; [|reflexivity].
    exfalso. exact (Rlt_irrefl _ Hlt).
Qed.

Close Scope R_scope.

(** ** Reversal keeps the shape of a wire *)

Lemma chain_split (w : Wire) :
  chain w <-> forall l1 a b l2, w = l1 ++ a :: b :: l2 -> v1 a = v0 b.
Proof.
  split.
  - intros Hc l1 a b l2 ->. apply (Hc (List.length l1)).
    + rewrite nth_error_app2 by lia. rewrite Nat.sub_diag. reflexivity.
    + rewrite nth_error_app2 by lia.
      replace (S (List.length l1) - List.length l1) with 1 by lia. reflexivity.
  - intros H i a b Ha Hb.
    apply nth_error_split in Ha as (l1 & l2 & -> & Hlen).
    rewrite nth_error_app2 in Hb by lia.
    replace (S i - List.length l1) with 1 in Hb by lia.
    destruct l2 as [|b' l2]; [discriminate|]. cbn in Hb. injection Hb as ->.
    eapply H. reflexivity.
Qed.

Lemma chain_reversed (w : Wire) : chain w -> chain (reversed_wire w).
Proof.
  intros Hc. apply chain_split. intros l1 a b l2 Heq.
  assert (Hw : w = reversed_wire (l1 ++ a :: b :: l2))
    by (rewrite <- Heq, reversed_wire_involutive; reflexivity).
  unfold reversed_wire in Hw. rewrite rev_app_distr in Hw. cbn [rev] in Hw.
  rewrite <- !app_assoc in Hw. cbn [app] in Hw.
  rewrite map_app in Hw. cbn [map] in Hw.
  pose proof (proj1 (chain_split w) Hc _ _ _ _ Hw) as H.
  unfold v0, v1, Twin in H. cbn in H. unfold v0, v1. congruence.
Qed.

Lemma wire_first_reversed (w : Wire) : wire_first (reversed_wire w) = wire_last w.
Proof.
  unfold wire_first, wire_last, reversed_wire. destruct (rev w); reflexivity.
Qed.

Lemma wire_last_reversed (w : Wire) : wire_last (reversed_wire w) = wire_first w.
Proof.
  unfold wire_first, wire_last, reversed_wire.
  rewrite <- map_rev, rev_involutive. destruct w; reflexivity.
Qed.

Lemma reversed_wire_nil (w : Wire) : reversed_wire w = [] -> w = [].
Proof.
  intros H. rewrite <- (reversed_wire_involutive w), H. reflexivity.
Qed.

Lemma knot_wire_reversed (knots : list nat) (w : Wire) :
  knot_wire knots w -> knot_wire knots (reversed_wire w).
Proof.
  intros (Hne & Hc & a & b & Ha & Hb & Hak & Hbk). unfold knot_wire. splits.
  - intros H. apply Hne, reversed_wire_nil, H.
  - apply chain_reversed, Hc.
  - exists b, a. rewrite wire_first_reversed, wire_last_reversed. auto.
Qed.

Lemma undirected_reversed (w : Wire) :
  Permutation (map undirected (reversed_wire w)) (map undirected w).
Proof.
  unfold reversed_wire. rewrite map_map.
  rewrite (map_ext _ undirected) by apply undirected_twin.
  rewrite map_rev. symmetry. apply Permutation_rev.
Qed.

Lemma concat_permutation {A : Type} (l1 l2 : list (list A)) :
  Permutation l1 l2 -> Permutation (List.concat l1) (List.concat l2).
Proof.
  induction 1 as [|x l1 l2 _ IH|x y l|l1 l2 l3 _ IH1 _ IH2]; cbn.
  - constructor.
  - apply Permutation_app_head, IH.
  - apply Permutation_app_swap_app.
  - eapply Permutation_trans; eassumption.
Qed.

Lemma up_to_reversal_forall (P : Wire -> Prop) (out order : list Wire) :
  (forall w, P w -> P (reversed_wire w)) ->
  Forall2 up_to_reversal out order -> Forall P order -> Forall P out.
Proof.
  intros Hrev. induction 1 as [|r w out order Hrw _ IH]; intros Hall.
  - constructor.
  - inversion Hall as [|? ? Hw Hall']; subst. constructor; [|apply IH, Hall'].
    destruct Hrw as [->| ->]; [exact Hw|apply Hrev, Hw].
Qed.

Lemma up_to_reversal_undirected (out order : list Wire) :
  Forall2 up_to_reversal out order ->
  Permutation (map undirected (List.concat out))
              (map undirected (List.concat order)).
Proof.
  induction 1 as [|r w out order Hrw _ IH]; cbn.
  - constructor.
  - rewrite !map_app. apply Permutation_app; [|exact IH].
    destruct Hrw as [->| ->]; [reflexivity|apply undirected_reversed].
Qed.

Lemma sort_returned (wires out : list Wire) (start : FreeCAD.Vector) :
  _sortVoronoiWires wires start = Ok out ->
  Forall (fun w : Wire => w <> []) wires /\
  exists order : list Wire,
    Permutation order wires /\ Forall2 up_to_reversal out order.
Proof.
  intros Hs.
  assert (Hne : Forall (fun w : Wire => w <> []) wires).
  { apply Forall_forall. intros w Hw Hnil.
    assert (Hex : Exists (fun w : Wire => w = []) wires)
      by (apply Exists_exists; exists w; auto).
    unfold _sortVoronoiWires in Hs.
    rewrite endpoints_raises in Hs by exact Hex. discriminate. }
  split; [exact Hne|].
  destruct (sort_returns wires start Hne) as (out' & Hs' & Hg).
  rewrite Hs in Hs'. injection Hs' as <-.
  apply (greedy_permutation wires start out Hg).
Qed.

(** X16.  What [_sortVoronoiWires] keeps: the wires it returns are not
    empty; they are chains when the wires given are; they run between
    vertices of a list when the wires given do; and their edges are,
    up to the twin, a rearrangement of the edges given. *)
Theorem sort_keeps_wires (wires out : list Wire) (start : FreeCAD.Vector) :
  _sortVoronoiWires wires start = Ok out ->
  Forall (fun w : Wire => w <> []) out /\
  (Forall chain wires -> Forall chain out) /\
  (forall knots : list nat,
     Forall (knot_wire knots) wires -> Forall (knot_wire knots) out) /\
  Permutation (map undirected (List.concat out))
              (map undirected (List.concat wires)).
Proof.
  intros Hs. destruct (sort_returned wires out start Hs) as (Hne & order & Hp & Hf).
  splits.
  - apply (up_to_reversal_forall (fun w => w <> []) out order); [| exact Hf|].
    + intros w Hw H. apply Hw, reversed_wire_nil, H.
    + eapply Permutation_Forall; [symmetry; exact Hp|exact Hne].
  - intros Hc. apply (up_to_reversal_forall chain out order chain_reversed Hf).
    eapply Permutation_Forall; [symmetry; exact Hp|exact Hc].
  - intros knots Hk.
    apply (up_to_reversal_forall _ out order (knot_wire_reversed knots) Hf).
    eapply Permutation_Forall; [symmetry; exact Hp|exact Hk].
  - eapply Permutation_trans; [apply up_to_reversal_undirected, Hf|].
    apply Permutation_map, concat_permutation, Hp.
Qed.

(** ** Which edges the wires hold *)

Lemma same_edge_touches (k : nat) (x e : Edge) :
  same_edge x e -> (touches k x <-> touches k e).
Proof.
  intros [->| ->]; [reflexivity|].
  unfold touches, v0, v1, Twin. cbn. tauto.
Qed.

Lemma forall2_in_right {A B : Type} (P : A -> B -> Prop) (l1 : list A)
  (l2 : list B) (y : B) :
  Forall2 P l1 l2 -> In y l2 -> exists x, In x l1 /\ P x y.
Proof.
  induction 1 as [|a b l1 l2 Hab _ IH]; intros Hy; [contradiction|].
  destruct Hy as [->|Hy].
  - exists a. split; [left; reflexivity|exact Hab].
  - destruct (IH Hy) as (x & Hx & Hxy). exists x. split; [right; exact Hx|exact Hxy].
Qed.

Lemma connected_same_ends (E : list Edge) (e e' : Edge) :
  connected_to_knot E e' -> In e E ->
  (forall k, touches k e' -> touches k e) ->
  connected_to_knot E e.
Proof.
  intros Hc He Ht.
  apply (via_edge E e e' (v0 e') He Hc).
  - left. reflexivity.
  - apply Ht. left. reflexivity.
Qed.

Lemma wire_connected (E : list Edge) (w : Wire) :
  knot_wire (knots_of E) w ->
  (forall x, In x w -> exists e, In e E /\ same_edge x e) ->
  forall i x, nth_error w i = Some x ->
    exists e, In e E /\ same_edge x e /\ connected_to_knot E e.
Proof.
  intros (Hne & Hc & a & b & Ha & Hb & Hak & Hbk) Hin.
  induction i as [|i IH]; intros x Hx.
  - destruct (Hin x (nth_error_In _ _ Hx)) as (e & He & Hxe).
    exists e. splits; try assumption.
    apply (at_knot E e a He Hak).
    apply (same_edge_touches a x e Hxe).
    destruct w as [|x' w']; [discriminate|]. cbn in Hx, Ha.
    injection Hx as ->. injection Ha as <-. left. reflexivity.
  - assert (Hi : exists y, nth_error w i = Some y).
    { destruct (nth_error w i) as [y|] eqn:Ey; [eauto|].
      apply nth_error_None in Ey.
      assert (nth_error w (S i) <> None) by congruence.
      apply nth_error_Some in H. lia. }
    destruct Hi as [y Hy].
    destruct (IH y Hy) as (ey & Hey & Hyey & Hcy).
    destruct (Hin x (nth_error_In _ _ Hx)) as (e & He & Hxe).
    exists e. splits; try assumption.
    apply (via_edge E e ey (v1 y) He Hcy).
    + apply (same_edge_touches (v1 y) y ey Hyey). right. reflexivity.
    + apply (same_edge_touches (v1 y) x e Hxe). left.
      apply (Hc i y x Hy Hx).
Qed.

Lemma knots_of_nonempty (E : list Edge) :
  E <> [] -> exists k, In k (knots_of E).
Proof.
  intros Hne. destruct E as [|e0 E']; [contradiction|].
  set (E := e0 :: E') in *.
  assert (Hk0 : In (v0 e0) (vertex_keys E)).
  { apply (vertex_keys_touch E e0); [left; reflexivity|left; reflexivity]. }
  unfold knots_of, initial_knots. rewrite build_vertex_tabulate.
  set (K := vertex_keys E) in *. set (f := fun k => incident k E).
  set (base := map fst (filter (fun iv => List.length (snd iv) =? 1) (tabulate K f))
               ++ map fst (filter (fun iv => 2 <? List.length (snd iv)) (tabulate K f))).
  destruct (Nat.eqb_spec (List.length base) 0) as [H0|Hn0].
  - destruct (filter (fun iv => 0 <? List.length (snd iv)) (tabulate K f))
      as [|iv rest] eqn:Ef.
    + exfalso.
      assert (Hin : In (v0 e0, f (v0 e0))
                       (filter (fun iv => 0 <? List.length (snd iv)) (tabulate K f))).
      { apply filter_In. split.
        - unfold tabulate. apply in_map_iff. exists (v0 e0). auto.
        - cbn [snd]. apply Nat.ltb_lt.
          apply (vertex_keys_deg E (v0 e0) Hk0). }
      rewrite Ef in Hin. contradiction.
    + exists (fst iv). apply in_or_app. right. left. reflexivity.
  - destruct base as [|k base']; [contradiction|].
    exists k. left. reflexivity.
Qed.

Lemma knot_edge (E : list Edge) (k : nat) :
  In k (knots_of E) -> exists e, In e E /\ touches k e.
Proof.
  intros Hk. apply knots_of_keys in Hk. apply vertex_keys_deg in Hk.
  unfold deg in Hk. destruct (incident k E) as [|e l] eqn:Ei; [cbn in Hk; lia|].
  exists e. apply in_incident. rewrite Ei. left. reflexivity.
Qed.

(** The edges of the wires, with what [collect_wires] gives. *)
Lemma collected_edges (vd : Diagram) :
  let E := primary_edges vd in
  NoDup (map Index E) ->
  exists wires : list Wire,
    _collectVoronoiWires vd = Ok wires /\
    Forall (knot_wire (knots_of E)) wires /\
    (forall w x, In w wires -> In x w -> exists e, In e E /\ same_edge x e) /\
    (forall e, In e E ->
       ((exists w x, In w wires /\ In x w /\ same_edge x e) <->
        connected_to_knot E e)) /\
    (List.length (List.concat wires) <= List.length E)%nat /\
    (forall k, deg k (List.concat wires) <= deg k E)%nat.
Proof.
  intros E Hnd.
  destruct (collect_wires vd Hnd)
    as (wires & done & L & Hc & Hperm & Hf2 & Hknot & Hpass & Hk0).
  fold E in Hperm, Hknot, Hpass, Hk0.
  assert (Hsub : forall w x, In w wires -> In x w ->
                             exists e, In e E /\ same_edge x e).
  { intros w x Hw Hx.
    assert (Hin : In x (List.concat wires))
      by (apply in_concat; exists w; auto).
    destruct (forall2_in_left same_edge _ _ x Hf2 Hin) as (e & He & Hxe).
    exists e. split; [|exact Hxe].
    eapply Permutation_in; [exact Hperm|]. apply in_or_app. left. exact He. }
  exists wires. splits; try assumption.
  - intros e He. split.
    + intros (w & x & Hw & Hx & Hxe).
      apply In_nth_error in Hx as [i Hi].
      assert (Hkw : knot_wire (knots_of E) w)
        by (eapply Forall_forall in Hknot; eassumption).
      destruct (wire_connected E w Hkw (fun x Hx => Hsub w x Hw Hx) i x Hi)
        as (e' & He' & Hxe' & Hce').
      apply (connected_same_ends E e e' Hce' He).
      intros k Ht. apply (same_edge_touches k x e Hxe).
      apply (same_edge_touches k x e' Hxe'). exact Ht.
    + intros Hce.
      assert (HnL : ~ In e L)
        by (apply (connected_consumed E done L Hnd Hperm Hpass Hk0 e Hce)).
      assert (Hd : In e done).
      { assert (H : In e (done ++ L))
          by (eapply Permutation_in; [symmetry; exact Hperm|exact He]).
        apply in_app_or in H as [H|H]; [exact H|contradiction]. }
      destruct (forall2_in_right same_edge _ _ e Hf2 Hd) as (x & Hx & Hxe).
      apply in_concat in Hx as (w & Hw & Hx). exists w, x. auto.
  - rewrite (Forall2_length Hf2), <- (Permutation_length Hperm), length_app. lia.
  - intros k.
    assert (Hd : deg k (List.concat wires) = deg k done).
    { clear - Hf2. induction Hf2 as [|x e xs es Hxe _ IH]; [reflexivity|].
      change (x :: xs) with ([x] ++ xs). change (e :: es) with ([e] ++ es).
      rewrite !deg_app, IH. f_equal.
      unfold deg, incident. cbn [flat_map]. rewrite !app_nil_r.
      destruct Hxe as [->| ->]; [reflexivity|].
      unfold ends, v0, v1, Twin. cbn.
      destruct (_ =? k), (_ =? k); reflexivity. }
    rewrite Hd, <- (deg_perm k _ _ Hperm), deg_app. lia.
Qed.

(** X17.  For a diagram whose primary edges have distinct indices, a
    primary edge occurs in the wires, itself or as its twin, exactly
    when it is connected to a knot; the wires hold no more edges than
    there are primary edges; and there are no wires exactly when there
    are no primary edges. *)
Theorem wires_hold_connected_edges (vd : Diagram) :
  let E := primary_edges vd in
  NoDup (map Index E) ->
  exists wires : list Wire,
    _collectVoronoiWires vd = Ok wires /\
    (forall e, In e E ->
       ((exists w x, In w wires /\ In x w /\ same_edge x e) <->
        connected_to_knot E e)) /\
    (List.length (List.concat wires) <= List.length E)%nat /\
    (wires = [] <-> E = []).
Proof.
  intros E Hnd.
  destruct (collected_edges vd Hnd) as (wires & Hc & Hknot & Hsub & Hiff & Hlen & _).
  fold E in Hknot, Hsub, Hiff, Hlen.
  exists wires. splits; try assumption. split.
  - intros ->. destruct E as [|e0 E'] eqn:EE; [reflexivity|]. exfalso.
    destruct (knots_of_nonempty (e0 :: E')) as [k Hk]; [discriminate|].
    destruct (knot_edge _ k Hk) as (e & He & Ht).
    assert (Hce : connected_to_knot (e0 :: E') e) by (eapply at_knot; eassumption).
    apply (Hiff e He) in Hce as (w & x & [] & _).
  - intros HE. destruct wires as [|w wires']; [reflexivity|]. exfalso.
    inversion Hknot as [|? ? (Hne & _) _]; subst.
    destruct w as [|x w']; [contradiction|].
    destruct (Hsub (x :: w') x) as (e & He & _); [left; reflexivity|left; reflexivity|].
    rewrite HE in He. contradiction.
Qed.

(** ** Closed wires only *)

Lemma deg_concat (k : nat) (wires : list Wire) :
  deg k (List.concat wires) = list_sum (map (deg k) wires).
Proof.
  induction wires as [|w wires IH]; [reflexivity|].
  cbn [List.concat map list_sum fold_right]. rewrite deg_app, IH. reflexivity.
Qed.

Lemma closed_wire_degree (k : nat) (w : Wire) :
  w <> [] -> wire_first w = Some k -> wire_last w = Some k -> 2 <= deg k w.
Proof.
  intros Hne Hf Hl. destruct w as [|x w']; [contradiction|].
  cbn in Hf. injection Hf as Hx.
  destruct w' as [|y w''] using rev_ind.
  - cbn in Hl. injection Hl as Hx1.
    unfold deg, incident, ends. cbn [flat_map].
    rewrite Hx, Hx1, Nat.eqb_refl. cbn. lia.
  - clear IHw''. rewrite app_comm_cons, wire_last_snoc in Hl. injection Hl as Hy.
    change (x :: w'' ++ [y]) with ([x] ++ w'' ++ [y]). rewrite !deg_app.
    assert (H1 : 1 <= deg k [x]).
    { apply (deg_in_pos k [x] x); [left; reflexivity|left; auto]. }
    assert (H2 : 1 <= deg k [y]).
    { apply (deg_in_pos k [y] y); [left; reflexivity|right; auto]. }
    lia.
Qed.

(** X18.  When no vertex has degree 1 or degree 3 or more, the primary
    edges form closed curves only; then [_collectVoronoiWires] returns
    exactly one wire: a closed chain through the one vertex of the list
    [knots], holding the edges connected to that vertex. *)
Theorem closed_curves_give_one_wire (vd : Diagram) :
  let E := primary_edges vd in
  NoDup (map Index E) ->
  E <> [] ->
  (forall k, ~ is_branch E k) ->
  exists (w : Wire) (k : nat),
    _collectVoronoiWires vd = Ok [w] /\
    knots_of E = [k] /\
    w <> [] /\ chain w /\
    wire_first w = Some k /\ wire_last w = Some k /\
    (forall e, In e E ->
       ((exists x, In x w /\ same_edge x e) <-> connected_to_knot E e)).
Proof.
  intros E Hnd HE Hnb.
  destruct (collected_edges vd Hnd) as (wires & Hc & Hknot & Hsub & Hiff & _ & Hdeg).
  fold E in Hknot, Hsub, Hiff, Hdeg.
  destruct (knots_of_nonempty E HE) as [k Hk].
  destruct (knots_of_cases E k Hk) as [HkK [Hb|[Hknots _]]];
    [exfalso; exact (Hnb k Hb)|].
  assert (Hdk : deg k E = 2).
  { pose proof (vertex_keys_deg E k HkK) as H1. specialize (Hnb k).
    unfold is_branch in Hnb. lia. }
  rewrite Hknots in Hknot.
  assert (Hclosed : Forall (fun w => 2 <= deg k w) wires).
  { eapply Forall_impl; [|exact Hknot].
    intros w (Hne & _ & a & b & Ha & Hb & [<-|[]] & [<-|[]]).
    apply closed_wire_degree; assumption. }
  assert (Hsum : 2 * List.length wires <= deg k (List.concat wires)).
  { rewrite deg_concat. clear - Hclosed.
    induction Hclosed as [|w wires Hw _ IH]; [cbn; lia|].
    cbn [map list_sum fold_right List.length]. fold (list_sum (map (deg k) wires)).
    lia. }
  specialize (Hdeg k).
  destruct wires as [|w [|w2 wires']].
  - exfalso.
    destruct (knot_edge E k Hk) as (e & He & Ht).
    assert (Hce : connected_to_knot E e) by (eapply at_knot; eassumption).
    apply (Hiff e He) in Hce as (w & x & [] & _).
  - exists w, k. inversion Hknot as [|? ? Hw _]; subst.
    destruct Hw as (Hne & Hch & a & b & Ha & Hb & [<-|[]] & [<-|[]]).
    splits; try assumption.
    intros e He. rewrite <- (Hiff e He). split.
    + intros (x & Hx & Hxe). exists w, x. splits; auto. left. reflexivity.
    + intros (w' & x & [<-|[]] & Hx & Hxe). exists x. auto.
  - exfalso. cbn [List.length] in Hsum. lia.
Qed.

Close Scope R_scope.

(** ** From the faces to the sorted wires *)

Section Pipeline.
Context {collaborators : Collaborators}.
Variables (obj : Obj) (calc : Calculator).

Lemma region_collects (f : Face) (vd : Diagram) :
  voronoi (Discretize obj) (Colinear obj) (Tolerance obj) (IsLinear calc) f = Ok vd ->
  region obj calc f = (wires <- _collectVoronoiWires vd ;; Ok (vd, wires))%result.
Proof.
  intros Hv. unfold region. rewrite Hv. cbn [bind].
  destruct (_collectVoronoiWires vd) as [wires|e]; reflexivity.
Qed.

Lemma regions_complete (faces : list Face) (rs : list (Diagram * list Wire)) :
  Forall2 (fun f r => region obj calc f = Ok r) faces rs ->
  forall (vw : list Wire) (w : World),
    regions obj calc faces vw w
    = (Ok (vw ++ List.concat (map snd rs)),
       set_VD w (VD w ++ map entry_of (combine faces rs))).
Proof.
  induction 1 as [|f [vd wires] faces rs Hf _ IH]; intros vw w; cbn [regions].
  - cbn. rewrite !app_nil_r. destruct w; reflexivity.
  - rewrite Hf, IH. cbn [set_VD VD commandlist console pathlog map snd
                           List.concat combine].
    rewrite <- !app_assoc. reflexivity.
Qed.

Lemma paths_raises (ws : list Wire) (pl : list Command) (w w' : World) (e : exn) :
  paths obj calc ws pl w = (Raise e, w') ->
  exists vw : Wire,
    In vw ws /\
    (_getPartEdges vw calc = Raise e \/
     exists p : list PartEdge,
       _getPartEdges vw calc = Ok p /\ p <> [] /\ cutWire obj p = Raise e).
Proof.
  revert pl w. induction ws as [|vw ws IH]; intros pl w; cbn [paths].
  - discriminate.
  - destruct (_getPartEdges vw calc) as [[|p pWire]|e0] eqn:Eg.
    + intros H. destruct (IH _ _ H) as (vw' & Hin & Hr).
      exists vw'. split; [right; exact Hin|exact Hr].
    + destruct (cutWire obj (p :: pWire)) as [cmds|e1] eqn:Ec.
      * intros H. destruct (IH _ _ H) as (vw' & Hin & Hr).
        exists vw'. split; [right; exact Hin|exact Hr].
      * intros [= <- <-]. exists vw. split; [left; reflexivity|].
        right. exists (p :: pWire). rewrite Eg. splits; auto. discriminate.
    + intros [= <- <-]. exists vw. split; [left; reflexivity|]. left. exact Eg.
Qed.

(** X19.  When every face has a diagram whose primary edges have
    distinct indices, the loop over the faces and the sorting return:
    the sorted wires are chains that are not empty, and their edges
    are, up to the twin, a rearrangement of the edges collected.
    [buildPathMedial] then raises only what [_getPartEdges] raises for
    one of the sorted wires or [cutWire] for its edges, which are not
    empty. *)
Theorem faces_give_sorted_chains (faces : list Face) (w : World) :
  Forall (fun f =>
            exists vd : Diagram,
              voronoi (Discretize obj) (Colinear obj) (Tolerance obj)
                      (IsLinear calc) f = Ok vd /\
              NoDup (map Index (primary_edges vd))) faces ->
  exists (rs : list (Diagram * list Wire)) (sorted : list Wire),
    Forall2 (fun f r => region obj calc f = Ok r /\
                        _collectVoronoiWires (fst r) = Ok (snd r)) faces rs /\
    _sortVoronoiWires (List.concat (map snd rs)) origin = Ok sorted /\
    Forall (fun vw : Wire => vw <> [] /\ chain vw) sorted /\
    Permutation (map undirected (List.concat sorted))
                (map undirected (List.concat (List.concat (map snd rs)))) /\
    (forall e : exn,
       fst (buildPathMedial obj calc faces w) = Raise e ->
       exists vw : Wire,
         In vw sorted /\
         (_getPartEdges vw calc = Raise e \/
          exists p : list PartEdge,
            _getPartEdges vw calc = Ok p /\ p <> [] /\
            cutWire obj p = Raise e)).
Proof.
  intros Hfaces.
  assert (Hrs : exists rs : list (Diagram * list Wire),
             Forall2 (fun f r => region obj calc f = Ok r /\
                                 _collectVoronoiWires (fst r) = Ok (snd r)) faces rs /\
             Forall (fun vw : Wire => vw <> [] /\ chain vw)
                    (List.concat (map snd rs))).
  { induction Hfaces as [|f faces (vd & Hv & Hnd) _ (rs & HF & Hall)].
    - exists []. split; constructor.
    - destruct (collected_edges vd Hnd) as (wires & Hc & Hknot & _).
      exists ((vd, wires) :: rs). split.
      + constructor; [|exact HF]. cbn [fst snd]. split; [|exact Hc].
        rewrite (region_collects f vd Hv), Hc. reflexivity.
      + cbn [map snd List.concat]. apply Forall_app. split; [|exact Hall].
        eapply Forall_impl; [|exact Hknot].
        intros vw (Hne & Hch & _). auto. }
  destruct Hrs as (rs & HF & Hall).
  assert (Hne : Forall (fun vw : Wire => vw <> []) (List.concat (map snd rs))).
  { eapply Forall_impl; [|exact Hall]. intros vw [H _]. exact H. }
  destruct (sort_returns (List.concat (map snd rs)) origin Hne) as (sorted & Hs & _).
  destruct (sort_returned _ _ _ Hs) as (_ & order & Hp & Hf).
  exists rs, sorted. splits; try assumption.
  - apply (up_to_reversal_forall (fun vw => vw <> [] /\ chain vw) sorted order).
    + intros vw [Hn Hc]. split; [|apply chain_reversed, Hc].
      intros H. apply Hn, reversed_wire_nil, H.
    + exact Hf.
    + eapply Permutation_Forall; [symmetry; exact Hp|exact Hall].
  - eapply Permutation_trans; [apply up_to_reversal_undirected, Hf|].
    apply Permutation_map, concat_permutation, Hp.
  - intros e. unfold buildPathMedial.
    assert (HF' : Forall2 (fun f r => region obj calc f = Ok r) faces rs).
    { eapply Forall2_impl; [|exact HF]. intros f r [H _]. exact H. }
    rewrite (regions_complete faces rs HF'). cbn [app].
    change (if (_sorting =? "global")%string
            then _sortVoronoiWires (List.concat (map snd rs)) origin
            else Ok (List.concat (map snd rs)))
      with (_sortVoronoiWires (List.concat (map snd rs)) origin).
    rewrite Hs.
    destruct (paths obj calc sorted _ _) as [[pl|e'] w2] eqn:Ep; cbn [fst].
    + discriminate.
    + intros [= <-]. exact (paths_raises _ _ _ _ _ Ep).
Qed.

End Pipeline.

(** ** The segments of a simplified wire *)

Section Segments.
Context {collaborators : Collaborators}.

Lemma pairs_length (pts : list FreeCAD.Vector) :
  List.length (pairs pts) = Nat.div2 (List.length pts).
Proof.
  remember (List.length pts) as n eqn:Hn.
  revert pts Hn. induction n as [n IH] using lt_wf_ind. intros pts Hn.
  destruct pts as [|p1 [|p2 rest]]; subst n; [reflexivity|reflexivity|].
  cbn [pairs List.length Nat.div2]. f_equal.
  apply (IH (List.length rest)); [cbn; lia|reflexivity].
Qed.

Lemma even_points_length (sp pts : list FreeCAD.Vector) :
  even_points sp = Ok pts ->
  Nat.div2 (List.length pts) = Nat.div2 (S (List.length sp)).
Proof.
  destruct (Nat.even (List.length sp)) eqn:Hev.
  - rewrite (even_points_even sp Hev). intros [= <-].
    apply Nat.even_spec in Hev as [k Hk]. rewrite Hk.
    rewrite Nat.div2_succ_double, Nat.div2_double. reflexivity.
  - assert (Hodd : Nat.odd (List.length sp) = true)
      by (unfold Nat.odd; rewrite Hev; reflexivity).
    destruct sp as [|a sp0]; [discriminate|].
    destruct sp0 as [|b sp1]; [cbn; discriminate|].
    destruct (exists_last (l := b :: sp1)) as (mid & p1 & E); [discriminate|].
    rewrite E in *.
    destruct (odd_split a p1 mid Hodd) as (front & p2 & E').
    change (a :: mid ++ [p1]) with (a :: (mid ++ [p1])) in E'.
    rewrite E' in *.
    rewrite (even_points_odd front p2 p1 Hodd). intros [= <-].
    rewrite !length_app. cbn [List.length].
    replace (List.length front + 3) with (S (List.length front + 2)) by lia.
    reflexivity.
Qed.

(** X20.  [simplify_edges] without edges raises [IndexError], and so
    does [_getPartEdges] for an empty wire.  With edges it raises what
    the simplification raises; when the simplification returns a single
    point it raises [IndexError]; when it returns no point there are no
    segments; and a list of [n] simplified points gives [(n + 1) / 2]
    segments. *)
Theorem simplify_edges_count (edges : list PartEdge) (calc : Calculator) :
  simplify_edges [] = Raise IndexError /\
  _getPartEdges [] calc = Raise IndexError /\
  forall pts : list FreeCAD.Vector,
    points edges = Ok pts ->
    (forall e : exn,
       simplify3dLine pts = Raise e -> simplify_edges edges = Raise e) /\
    (forall sp : list FreeCAD.Vector,
       simplify3dLine pts = Ok sp ->
       (sp = [] -> simplify_edges edges = Ok []) /\
       (List.length sp = 1 -> simplify_edges edges = Raise IndexError) /\
       (forall out : list PartEdge,
          simplify_edges edges = Ok out ->
          List.length out = Nat.div2 (S (List.length sp)))).
Proof.
  splits; [reflexivity|reflexivity|].
  intros pts Hpts. unfold simplify_edges, simplified_points. rewrite Hpts.
  cbn [bind]. split.
  - intros e ->. reflexivity.
  - intros sp ->. cbn [bind]. splits.
    + intros ->. reflexivity.
    + intros Hlen. destruct sp as [|p [|q sp']]; try discriminate. reflexivity.
    + intros out. destruct (even_points sp) as [pts'|e] eqn:Ee; cbn [bind];
        [|discriminate].
      intros Hm. apply mapM_Forall2 in Hm. apply Forall2_length in Hm.
      rewrite <- Hm, pairs_length. apply (even_points_length sp pts' Ee).
Qed.

End Segments.

(** ** The segments of the boundary wires *)

Lemma add_segments_seq (l : list FreeCAD.Vector) (m : nat) :
  forall (k : nat) (segments : list Segment),
  k + m < List.length l ->
  add_segments l (seq k m) segments
  = (Ok tt,
     segments ++ map (fun i => (nth i l origin, nth (S i) l origin)) (seq k m)).
Proof.
  induction m as [|m IH]; intros k segments Hlen; cbn [seq add_segments map].
  - rewrite app_nil_r. reflexivity.
  - rewrite list_getitem_nonneg by lia. rewrite Nat2Z.id.
    rewrite (nth_error_nth' l origin) by lia.
    replace (Z.of_nat k + 1)%Z with (Z.of_nat (S k)) by lia.
    rewrite list_getitem_nonneg by lia. rewrite Nat2Z.id.
    rewrite (nth_error_nth' l origin) by lia.
    rewrite IH by lia. rewrite <- app_assoc. reflexivity.
Qed.

Lemma consecutive (l : list FreeCAD.Vector) :
  map (fun i => (nth i l origin, nth (S i) l origin))
      (seq 0 (Nat.pred (List.length l)))
  = combine l (tl l).
Proof.
  induction l as [|a l IH]; [reflexivity|].
  destruct l as [|b l']; [reflexivity|].
  cbn [List.length Nat.pred seq map tl combine] in *.
  change (nth 0 (a :: b :: l') origin) with a.
  change (nth 1 (a :: b :: l') origin) with b.
  f_equal. rewrite <- IH, <- seq_shift, map_map. reflexivity.
Qed.

Lemma combine_longer {A B : Type} (l extra : list A) (r : list B) :
  List.length r <= List.length l -> combine (l ++ extra) r = combine l r.
Proof.
  revert r. induction l as [|a l IH]; intros r Hlen.
  - destruct r; [|cbn in Hlen; lia]. destruct extra; reflexivity.
  - destruct r as [|b r]; [reflexivity|]. cbn. f_equal. apply IH.
    cbn in Hlen. lia.
Qed.

Lemma insert_points_polygon (pts : list FreeCAD.Vector) (segments : list Segment) :
  pts <> [] ->
  insert_points pts segments = (Ok tt, segments ++ closed_polygon pts).
Proof.
  intros Hne. destruct pts as [|p pts']; [contradiction|].
  unfold insert_points, closed_polygon. fold flattened.
  cbn [map hd tl]. rewrite list_getitem_nonneg by lia.
  change (Z.to_nat 0) with 0. cbn [nth_error].
  rewrite add_segments_seq
    by (cbn [List.length app]; rewrite ?length_app, ?length_map;
        cbn [List.length]; lia).
  f_equal. f_equal.
  set (l := flattened p :: map flattened pts').
  transitivity (combine (l ++ [flattened p]) (tl (l ++ [flattened p]))).
  - rewrite <- (consecutive (l ++ [flattened p])).
    unfold l. cbn [app List.length]. rewrite length_app, length_map.
    cbn [List.length Nat.pred].
    replace (List.length pts' + 1) with (S (List.length pts')) by lia.
    reflexivity.
  - unfold l. cbn [app tl]. fold l. change (flattened p :: map flattened pts' ++ [flattened p])
      with (l ++ [flattened p]).
    apply combine_longer. unfold l. cbn [List.length].
    rewrite length_app. cbn [List.length]. lia.
Qed.

Lemma closed_polygon_length (pts : list FreeCAD.Vector) :
  List.length (closed_polygon pts) = List.length pts.
Proof.
  unfold closed_polygon. cbv zeta. destruct pts as [|p pts']; [reflexivity|].
  cbn [map tl hd]. unfold Segment. rewrite length_combine. cbn [List.length].
  rewrite length_app, !length_map. cbn [List.length]. lia.
Qed.

Lemma combine_fst_in {A B : Type} (l : list A) (r : list B) (a : A) :
  List.length l = List.length r -> In a l ->
  exists s : A * B, In s (combine l r) /\ fst s = a.
Proof.
  revert r. induction l as [|x l IH]; intros r Hlen Ha; [contradiction|].
  destruct r as [|y r]; [discriminate|]. injection Hlen as Hlen.
  destruct Ha as [->|Ha].
  - exists (a, y). split; [left; reflexivity|reflexivity].
  - destruct (IH r Hlen Ha) as (s & Hs & Hf).
    exists s. split; [right; exact Hs|exact Hf].
Qed.

Lemma closed_polygon_closed (pts : list FreeCAD.Vector) (s : Segment) :
  In s (closed_polygon pts) ->
  FreeCAD.z (fst s) = 0%R /\ FreeCAD.z (snd s) = 0%R /\
  exists s' : Segment, In s' (closed_polygon pts) /\ fst s' = snd s.
Proof.
  unfold closed_polygon. cbv zeta. destruct pts as [|p pts']; [intros []|].
  cbn [map tl hd]. set (l := flattened p :: map flattened pts').
  set (r := map flattened pts' ++ [flattened p]). intros Hs.
  assert (Hflat : forall q, In q l -> FreeCAD.z q = 0%R).
  { intros q [<-|Hq]; [reflexivity|].
    apply in_map_iff in Hq as (q' & <- & _). reflexivity. }
  assert (Hrl : forall q, In q r -> In q l).
  { intros q Hq. unfold r in Hq. apply in_app_or in Hq as [Hq|[<-|[]]].
    - right. exact Hq.
    - left. reflexivity. }
  destruct s as [a b]. pose proof (in_combine_l _ _ _ _ Hs) as Ha.
  pose proof (in_combine_r _ _ _ _ Hs) as Hb. cbn [fst snd].
  splits.
  - apply Hflat, Ha.
  - apply Hflat, Hrl, Hb.
  - assert (Hlen : List.length l = List.length r).
    { unfold l, r. cbn [List.length]. rewrite length_app. cbn. lia. }
    apply (combine_fst_in l r b Hlen), Hrl, Hb.
Qed.

Section Boundary.
Variable BoundaryWire : Type.
Variable discretize : BoundaryWire -> DiscretizeArg -> list FreeCAD.Vector.

(** X21.  [insert_many_wires] discretizes a wire with the keyword
    [QuasiDeflection] for a linear bit and with ten times the value
    otherwise.  Each wire adds the segments of the closed polygon of its
    points in the plane [z = 0]: as many segments as points, each ending
    where one of them begins.  A wire without points raises
    [IndexError], the segments of the wires before it having been
    added. *)
Theorem insert_many_wires_polygons (Discretize : R) (bitIsLinear : bool)
  (segments : list Segment) :
  let points_of := fun wire =>
    discretize wire (if bitIsLinear then QuasiDeflection Discretize
                     else Positional (Discretize * 10)%R) in
  (forall wires : list BoundaryWire,
     Forall (fun wire => points_of wire <> []) wires ->
     insert_many_wires BoundaryWire discretize Discretize segments wires bitIsLinear
     = (Ok tt, segments ++ flat_map (fun wire => closed_polygon (points_of wire)) wires)) /\
  (forall (before after : list BoundaryWire) (wire : BoundaryWire),
     Forall (fun wire => points_of wire <> []) before ->
     points_of wire = [] ->
     insert_many_wires BoundaryWire discretize Discretize segments
                       (before ++ wire :: after) bitIsLinear
     = (Raise IndexError,
        segments ++ flat_map (fun wire => closed_polygon (points_of wire)) before)) /\
  (forall pts : list FreeCAD.Vector,
     List.length (closed_polygon pts) = List.length pts /\
     forall s : Segment, In s (closed_polygon pts) ->
       FreeCAD.z (fst s) = 0%R /\ FreeCAD.z (snd s) = 0%R /\
       exists s' : Segment, In s' (closed_polygon pts) /\ fst s' = snd s).
Proof.
  intros points_of.
  assert (Hstep : forall wire wires segs,
    insert_many_wires BoundaryWire discretize Discretize segs (wire :: wires) bitIsLinear
    = match insert_points (points_of wire) segs with
      | (Raise e, segs') => (Raise e, segs')
      | (Ok _, segs') =>
          insert_many_wires BoundaryWire discretize Discretize segs' wires bitIsLinear
      end).
  { intros wire wires segs. cbn [insert_many_wires]. unfold points_of.
    destruct bitIsLinear; reflexivity. }
  splits.
  - intros wires Hall. revert segments.
    induction Hall as [|wire wires Hw _ IH]; intros segments.
    + cbn. rewrite app_nil_r. reflexivity.
    + rewrite Hstep, (insert_points_polygon _ segments Hw), IH.
      cbn [flat_map]. rewrite app_assoc. reflexivity.
  - intros before after wire Hall Hnil. revert segments.
    induction Hall as [|w0 before Hw _ IH]; intros segments.
    + cbn [app]. rewrite Hstep, Hnil. cbn. rewrite app_nil_r. reflexivity.
    + cbn [app]. rewrite Hstep, (insert_points_polygon _ segments Hw), IH.
      cbn [flat_map]. rewrite app_assoc. reflexivity.
  - intros pts. split; [apply closed_polygon_length|apply closed_polygon_closed].
Qed.

End Boundary.

(** ** The default depths *)

Lemma land_absorbs (a b c d e : Z) :
  Z.land c (Z.lor (Z.lor (Z.lor (Z.lor a b) c) d) e) = c.
Proof.
  apply Z.bits_inj'. intros n Hn.
  rewrite Z.land_spec, !Z.lor_spec.
  destruct (Z.testbit c n), (Z.testbit a n), (Z.testbit b n),
           (Z.testbit d n), (Z.testbit e n); reflexivity.
Qed.

(** X22.  [opFeatures] holds the feature of the depths, so
    [opSetDefaultValues] sets the depths whenever that feature is not 0:
    with a job whose model group is not empty the start depth is the
    top of the model and the final depth the bottom of the stock;
    otherwise the final depth is [-0.1] and the start depth is kept.
    [opUpdateDepths] does the same with the job it finds. *)
Theorem opSetDefaultValues_depths (flags : FeatureFlags) (obj : Depths)
  (job : option Job) :
  FeatureDepths flags <> 0%Z ->
  Z.land (FeatureDepths flags) (opFeatures flags) = FeatureDepths flags /\
  (forall j : Job,
     job = Some j -> (0 < Group_length j)%nat ->
     opSetDefaultValues flags obj job
     = mkDepths (modelBoundBox_ZMax j) (Stock_ZMin j)) /\
  ((job = None \/ exists j, job = Some j /\ Group_length j = 0%nat) ->
   opSetDefaultValues flags obj job
   = mkDepths (OpStartDepth obj) (- (1 / 10))%R) /\
  (forall findParentJob : Depths -> option Job,
     findParentJob obj = job ->
     opUpdateDepths flags findParentJob obj = opSetDefaultValues flags obj job).
Proof.
  intros Hfd.
  assert (Habs : Z.land (FeatureDepths flags) (opFeatures flags) = FeatureDepths flags)
    by apply land_absorbs.
  assert (Hcond : negb (Z.land (FeatureDepths flags) (opFeatures flags) =? 0)%Z = true).
  { rewrite Habs. apply negb_true_iff, Z.eqb_neq, Hfd. }
  unfold opUpdateDepths, opSetDefaultValues. rewrite Hcond. splits.
  - exact Habs.
  - intros j -> Hj. apply Nat.ltb_lt in Hj. rewrite Hj. reflexivity.
  - intros [->|(j & -> & Hj)]; [reflexivity|]. rewrite Hj. reflexivity.
  - intros findParentJob ->. reflexivity.
Qed.

Open Scope R_scope.

(** ** The angles of the tests *)

Lemma tan_radians_30 : math.tan (math.radians (60 / 2)) = 1 / sqrt 3.
Proof.
  unfold math.tan, math.radians.
  replace (60 / 2 * PI / 180) with (PI / 6) by field.
  apply tan_PI6.
Qed.

Lemma tan_PI8 : tan (PI / 8) = sqrt 2 - 1.
Proof.
  assert (Hpi := PI_RGT_0).
  set (t := tan (PI / 8)).
  assert (Ht0 : 0 < t) by (apply tan_gt_0; lra).
  assert (Ht1 : t < 1).
  { rewrite <- tan_PI4. apply tan_increasing; lra. }
  assert (Hc8 : cos (PI / 8) <> 0).
  { apply Rgt_not_eq, Rlt_gt, cos_gt_0; lra. }
  assert (Hc4 : cos (PI / 8 + PI / 8) <> 0).
  { apply Rgt_not_eq, Rlt_gt, cos_gt_0; lra. }
  assert (Hd : 1 - t * t <> 0) by nra.
  pose proof (tan_plus (PI / 8) (PI / 8) Hc8 Hc8 Hc4 Hd) as H.
  replace (PI / 8 + PI / 8) with (PI / 4) in H by field.
  rewrite tan_PI4 in H. fold t in H.
  assert (Hq : 1 - t * t = t + t).
  { apply (Rmult_eq_compat_r (1 - t * t)) in H.
    unfold Rdiv in H. rewrite Rmult_assoc, Rinv_l in H by exact Hd. lra. }
  assert (Hs : (t + 1) * (t + 1) = 2) by nra.
  assert (Hsq : sqrt 2 = t + 1).
  { rewrite <- Hs. apply sqrt_square. lra. }
  lra.
Qed.

Lemma tan_radians_22 : math.tan (math.radians (45 / 2)) = sqrt 2 - 1.
Proof.
  unfold math.tan, math.radians.
  replace (45 / 2 * PI / 180) with (PI / 8) by field.
  apply tan_PI8.
Qed.

Lemma sqrt2_bounds : 1414213 / 1000000 < sqrt 2 < 1414214 / 1000000.
Proof.
  split.
  - rewrite <- (sqrt_square (1414213 / 1000000)) by lra.
    apply sqrt_lt_1_alt. lra.
  - rewrite <- (sqrt_square (1414214 / 1000000)) by lra.
    apply sqrt_lt_1_alt. lra.
Qed.

Lemma conical_scale (D Td A : R) (c : Con.t) :
  Con.__init__ D Td A = Ok c ->
  Con.scale c = 1 / math.tan (math.radians (A / 2)).
Proof.
  intros Hc. apply conical_init_inv in Hc as [_ ->]. reflexivity.
Qed.

(** X23.  The scales of the bits of the tests: 1 for the angle 90,
    [sqrt 3] for 60 and [1 + sqrt 2] for 45, which the constant
    [2.414214] of the tests meets within [10 ^ -6]. *)
Theorem scales_of_the_test_angles (D Td : R) :
  (exists c, Con.__init__ D Td 90 = Ok c /\ Con.scale c = 1) /\
  (exists c, Con.__init__ D Td 60 = Ok c /\ Con.scale c = sqrt 3) /\
  (exists c, Con.__init__ D Td 45 = Ok c /\
             Con.scale c = 1 + sqrt 2 /\
             Rabs (Con.scale c - 2414214 / 1000000) < 1 / 1000000).
Proof.
  assert (H3 : 0 < sqrt 3) by (apply sqrt_lt_R0; lra).
  pose proof sqrt2_bounds as H2.
  splits.
  - destruct (conical_init_ok D Td 90) as [c Hc].
    { rewrite tan_radians_45. lra. }
    exists c. split; [exact Hc|].
    rewrite (conical_scale D Td 90 c Hc), tan_radians_45. field.
  - destruct (conical_init_ok D Td 60) as [c Hc].
    { rewrite tan_radians_30. apply Rgt_not_eq, Rlt_gt.
      apply Rdiv_lt_0_compat; lra. }
    exists c. split; [exact Hc|].
    rewrite (conical_scale D Td 60 c Hc), tan_radians_30. field. lra.
  - destruct (conical_init_ok D Td 45) as [c Hc].
    { rewrite tan_radians_22. lra. }
    exists c. split; [exact Hc|].
    assert (Hs : Con.scale c = 1 + sqrt 2).
    { rewrite (conical_scale D Td 45 c Hc), tan_radians_22.
      assert (Hsq : sqrt 2 * sqrt 2 = 2) by (apply sqrt_sqrt; lra).
      apply (Rmult_eq_reg_r (sqrt 2 - 1)); [|lra].
      unfold Rdiv. rewrite Rmult_assoc, Rinv_l by lra. lra. }
    split; [exact Hs|]. rewrite Hs. apply Rabs_def1; lra.
Qed.

(** ** The depth at the tip *)

(** X24.  For a conical bit whose tip is not wider than the bit and a
    final depth not above the start depth, the depth returned is the
    start depth at the radius of the tip, above it for a smaller width
    and not above it for a greater one; without a tip the depth at the
    width 0 is the start depth. *)
Theorem conical_depth_at_tip (D Td A zStart zFinal w : R) (c : Con.t) :
  0 < A < 180 ->
  Td <= D ->
  zFinal <= zStart ->
  Con.__init__ D Td A = Ok c ->
  let c' := Con.SetLimits c zStart zFinal in
  Con.WidthToDepth c' (Td / 2) = zStart /\
  (zStart < Con.WidthToDepth c' w <-> w < Td / 2) /\
  (Td = 0 -> Con.WidthToDepth c' 0 = zStart).
Proof.
  intros HA HTd Hz Hc c'.
  pose proof (tan_half_angle_pos A HA) as Ht.
  apply conical_init_inv in Hc as [_ ->].
  unfold c', Con.WidthToDepth, Con.SetLimits. cbn.
  set (s := 1 / math.tan (math.radians (A / 2))).
  assert (Hs : 0 < s) by (unfold s; apply Rdiv_lt_0_compat; lra).
  assert (Hstop : max (zStart - D / 2 * s + Td / 2 * s) zFinal <= zStart).
  { apply max_le; [|exact Hz]. nra. }
  set (stop := max (zStart - D / 2 * s + Td / 2 * s) zFinal) in *.
  splits.
  - unfold max. destruct (Rlt_dec _ _); lra.
  - unfold max. destruct (Rlt_dec _ _) as [Hlt|Hge]; split; intros H; try nra.
  - intros ->. unfold max. destruct (Rlt_dec _ _); lra.
Qed.

Open Scope R_scope.

(** ** The depths of the emitted points *)

Lemma round_half_even_IZR (k : Z) : round_half_even (IZR k) = k.
Proof.
  unfold round_half_even.
  assert (Hup : up (IZR k) = (k + 1)%Z).
  { symmetry. apply tech_up; rewrite plus_IZR; lra. }
  assert (Hi : Int_part (IZR k) = k) by (unfold Int_part; rewrite Hup; lia).
  assert (Hf : frac_part (IZR k) = 0) by (unfold frac_part; rewrite Hi; lra).
  rewrite Hi, Hf. destruct (Rlt_dec 0 (1 / 2)); [reflexivity|lra].
Qed.

Lemma round_multiple (k : Z) (n : nat) : round (IZR k / 10 ^ n) n = IZR k / 10 ^ n.
Proof.
  unfold round.
  assert (Hp : 0 < 10 ^ n) by (apply pow_lt; lra).
  replace (IZR k / 10 ^ n * 10 ^ n) with (IZR k) by (field; lra).
  rewrite round_half_even_IZR. reflexivity.
Qed.

Section Depths.
Context {collaborators : Collaborators}.

Lemma getPartEdge_rounds (edge : Edge) (calc : Calculator) (d0 d1 : R)
  (rest : list R) :
  getDistances edge = d0 :: d1 :: rest ->
  _getPartEdge edge calc
  = (z0 <- WidthToDepth calc d0 ;;
     z1 <- WidthToDepth calc d1 ;;
     toShape edge (round z0 4) (round z1 4))%result.
Proof.
  intros Hd. unfold _getPartEdge, _calculate_depth. rewrite Hd.
  cbv zeta. rewrite !list_getitem_nonneg by lia.
  change (Z.to_nat 0) with 0%nat. change (Z.to_nat 1) with 1%nat.
  cbn [nth_error bind].
  destruct (WidthToDepth calc d0); cbn [bind]; [|reflexivity].
  destruct (WidthToDepth calc d1); reflexivity.
Qed.

Lemma getPartEdge_depths (edge : Edge) (calc : Calculator) (pe : PartEdge) :
  _getPartEdge edge calc = Ok pe ->
  exists (d0 d1 z0 z1 : R),
    In d0 (firstn 2 (getDistances edge)) /\
    In d1 (firstn 2 (getDistances edge)) /\
    WidthToDepth calc d0 = Ok z0 /\ WidthToDepth calc d1 = Ok z1 /\
    toShape edge (round z0 4) (round z1 4) = Ok pe.
Proof.
  unfold _getPartEdge, _calculate_depth. cbv zeta.
  destruct (getDistances edge) as [|d0 [|d1 rest]].
  - discriminate.
  - rewrite !list_getitem_nonneg by lia.
    change (Z.to_nat 0) with 0%nat. change (Z.to_nat 1) with 1%nat.
    cbn [nth_error bind].
    destruct (WidthToDepth calc d0); discriminate.
  - rewrite !list_getitem_nonneg by lia.
    change (Z.to_nat 0) with 0%nat. change (Z.to_nat 1) with 1%nat.
    cbn [nth_error bind].
    destruct (WidthToDepth calc d0) as [z0|] eqn:E0; cbn [bind]; [|discriminate].
    destruct (WidthToDepth calc d1) as [z1|] eqn:E1; cbn [bind]; [|discriminate].
    intros H. exists d0, d1, z0, z1. cbn [firstn In]. auto 10.
Qed.

Lemma even_points_cases (sp pts : list FreeCAD.Vector) :
  even_points sp = Ok pts ->
  (Nat.even (List.length sp) = true /\ pts = sp) \/
  (Nat.odd (List.length sp) = true /\
   exists (front : list FreeCAD.Vector) (p2 p1 : FreeCAD.Vector),
     sp = front ++ [p2; p1] /\ pts = front ++ [p2; midpoint p2 p1; p1]).
Proof.
  destruct (Nat.even (List.length sp)) eqn:Hev.
  - rewrite (even_points_even sp Hev). intros [= <-]. left. auto.
  - assert (Hodd : Nat.odd (List.length sp) = true)
      by (unfold Nat.odd; rewrite Hev; reflexivity).
    destruct sp as [|a sp0]; [discriminate|].
    destruct sp0 as [|b sp1]; [cbn; discriminate|].
    destruct (exists_last (l := b :: sp1)) as (mid & p1 & E); [discriminate|].
    rewrite E in *.
    destruct (odd_split a p1 mid Hodd) as (front & p2 & E').
    change (a :: mid ++ [p1]) with (a :: (mid ++ [p1])) in E'.
    rewrite E' in *.
    rewrite (even_points_odd front p2 p1 Hodd). intros [= <-].
    right. split; [exact Hodd|]. exists front, p2, p1. auto.
Qed.

Lemma mapM_ok_in {A B : Type} (f : A -> result B) (l : list A) (bs : list B)
  (b : B) :
  mapM f l = Ok bs -> In b bs -> exists a, In a l /\ f a = Ok b.
Proof.
  revert bs. induction l as [|a l IH]; intros bs; cbn [mapM].
  - intros [= <-] [].
  - destruct (f a) as [b0|e] eqn:Ea; cbn [bind]; [|discriminate].
    destruct (mapM f l) as [bs'|e] eqn:El; cbn [bind]; [|discriminate].
    intros [= <-] [<-|Hin].
    + exists a. split; [left; reflexivity|exact Ea].
    + destruct (IH bs' eq_refl Hin) as (a' & Ha' & Hf).
      exists a'. split; [right; exact Ha'|exact Hf].
Qed.

(** C10, as amended.  [_getPartEdge] passes to [toShape] the two depths
    of the calculator rounded to 4 decimal places, and a rounded depth
    is a whole multiple of [10 ^ -4] within half of that of the depth.
    When [toShape] puts the end points at the depths given and the
    simplification selects among its points, the segments of
    [_getPartEdges] are made of the points [2i] and [2i + 1] of a list
    that is the simplified list, every point of which lies at a depth
    resolved for an edge of the wire, or, for an odd number of
    simplified points, that list with the midpoint of its last two
    points put between them: the depth of the midpoint is the mean of
    two resolved depths. *)
Theorem path_edge_depths_rounded (calc : Calculator) :
  (forall (edge : Edge) (d0 d1 : R) (rest : list R),
     getDistances edge = d0 :: d1 :: rest ->
     _getPartEdge edge calc
     = (z0 <- WidthToDepth calc d0 ;;
        z1 <- WidthToDepth calc d1 ;;
        toShape edge (round z0 4) (round z1 4))%result) /\
  (forall z : R,
     exists k : Z, round z 4 = IZR k / 10 ^ 4 /\
                   Rabs (round z 4 - z) <= 1 / 2 / 10 ^ 4) /\
  (forall (vWire : Wire) (z : R),
     resolved_depth vWire calc z -> quantized z) /\
  (keeps_depths -> selects_points ->
   forall (vWire : Wire) (out : list PartEdge),
     _getPartEdges vWire calc = Ok out ->
     exists sp pts : list FreeCAD.Vector,
       mapM (fun pp => LineSegment (fst pp) (snd pp)) (pairs pts) = Ok out /\
       flat_map unpair (pairs pts) = pts /\
       (forall p, In p sp -> resolved_depth vWire calc (FreeCAD.z p)) /\
       ((Nat.even (List.length sp) = true /\ pts = sp) \/
        (Nat.odd (List.length sp) = true /\
         exists (front : list FreeCAD.Vector) (p2 p1 : FreeCAD.Vector),
           sp = front ++ [p2; p1] /\
           pts = front ++ [p2; midpoint p2 p1; p1] /\
           FreeCAD.z (midpoint p2 p1) = (FreeCAD.z p2 + FreeCAD.z p1) / 2))).
Proof.
  split; [|split; [|split]].
  - intros edge d0 d1 rest. apply getPartEdge_rounds.
  - intros z. apply round_quantized.
  - intros vWire z (e & w & d & _ & _ & _ & ->).
    destruct (round_quantized d 4) as (k & Hk & _). exists k. exact Hk.
  - intros Hkeep Hsel vWire out. unfold _getPartEdges.
    destruct (mapM (fun e => _getPartEdge e calc) vWire) as [edges|e] eqn:Em;
      cbn [bind]; [|discriminate].
    unfold simplify_edges, simplified_points.
    destruct (points edges) as [pts0|e] eqn:Ep; cbn [bind]; [|discriminate].
    destruct (simplify3dLine pts0) as [sp|e] eqn:Es; cbn [bind]; [|discriminate].
    destruct (even_points sp) as [pts|e] eqn:Ee; cbn [bind]; [|discriminate].
    intros Hout. exists sp, pts.
    assert (Hedge : forall pe, In pe edges ->
              resolved_depth vWire calc (FreeCAD.z (firstPoint pe)) /\
              resolved_depth vWire calc (FreeCAD.z (lastPoint pe))).
    { intros pe Hpe.
      destruct (mapM_ok_in _ _ _ pe Em Hpe) as (e & He & Hg).
      destruct (getPartEdge_depths e calc pe Hg)
        as (d0 & d1 & z0 & z1 & Hd0 & Hd1 & Hz0 & Hz1 & Hs).
      destruct (Hkeep e _ _ pe Hs) as [-> ->].
      split; [exists e, d0, z0|exists e, d1, z1]; auto. }
    assert (Hpts0 : forall p, In p pts0 -> resolved_depth vWire calc (FreeCAD.z p)).
    { unfold points in Ep.
      destruct (list_getitem edges 0) as [e0|] eqn:E0; cbn [bind] in Ep;
        [|discriminate].
      injection Ep as <-. intros p [<-|Hp].
      - apply Hedge. destruct edges as [|x edges']; [discriminate|].
        rewrite list_getitem_nonneg in E0 by lia. cbn in E0.
        injection E0 as <-. left. reflexivity.
      - apply in_map_iff in Hp as (pe & <- & Hpe). apply Hedge, Hpe. }
    assert (Hcases := even_points_cases sp pts Ee).
    split; [exact Hout|]. split; [|split].
    + apply pairs_even.
      destruct Hcases as [[Hev ->]|(Hodd & front & p2 & p1 & -> & ->)];
        [exact Hev|].
      rewrite length_app in *. cbn [List.length] in *.
      replace (List.length front + 3)%nat with (S (List.length front + 2))%nat by lia.
      rewrite Nat.even_succ. exact Hodd.
    + intros p Hp. apply Hpts0. apply (Hsel pts0 sp Es p Hp).
    + destruct Hcases as [H|(Hodd & front & p2 & p1 & Hsp & Hpts)]; [left; exact H|].
      right. split; [exact Hodd|]. exists front, p2, p1.
      split; [exact Hsp|]. split; [exact Hpts|]. reflexivity.
Qed.

End Depths.

Open Scope R_scope.

(** * Examples *)

Open Scope R_scope.

(** C2, witness: the 90 degree tool of diameter 10. *)
Lemma conical_limits_witness :
  exists c, Con.__init__ 10 0 90 = Ok c /\
            conical_equations 10 0 90 0 (-10) (Con.SetLimits c 0 (-10)).
Proof.
  destruct (conical_limits 10 0 90 0 (-10)) as (Heq & Hex & _).
  destruct Hex as [c Hc]; [lra|].
  exists c. split; [exact Hc|apply Heq, Hc].
Defined.

(** C4, witness: the ball of diameter 10 at the widths 0 and 1. *)
Lemma depth_monotone_and_clamped_witness :
  0 <= 0 <= 1 /\
  let calc := SetLimits (Spherical (Sph.__init__ 10)) 0 (-10) in
  exists d1 d2 : R,
    WidthToDepth calc 0 = Ok d1 /\ WidthToDepth calc 1 = Ok d2 /\
    d2 <= d1 /\
    within_limits calc (-10) d1 /\ within_limits calc (-10) d2 /\
    (start_not_above_zero calc -> Rabs d1 <= Rabs d2).
Proof.
  split; [lra|].
  apply (depth_monotone_and_clamped (Spherical (Sph.__init__ 10)) 0 (-10) 0 1
           (constructed_spherical 10)).
  lra.
Defined.

(** C5, witness: half the radius of the ball of diameter 10. *)
Lemma spherical_depth_witness :
  0 <= 5 / 2 /\
  Sph.WidthToDepth (Sph.SetLimits (Sph.__init__ 10) 0 (-10)) (5 / 2)
  = Ok (max (0 - (10 / 2 - sqrt (max ((10 / 2) ^ 2 - (5 / 2) ^ 2) 0)))
            (max (0 - 10 / 2) (-10))).
Proof.
  split; [lra|].
  destruct (spherical_depth 10 0 (-10) (5 / 2)) as (_ & Hin & _); [lra|].
  apply Hin. cbn. lra.
Defined.

Lemma right_angle_calculator_made :
  exists c, Con.__init__ 10 0 90 = Ok c /\
            SetLimits (Conical c) 0 (-10) = right_angle_calculator.
Proof.
  destruct (conical_init_ok 10 0 90) as [c Hc].
  { rewrite tan_radians_45. lra. }
  exists c. split; [exact Hc|].
  apply conical_init_inv in Hc as [_ ->].
  unfold right_angle_calculator. cbn [SetLimits Calculator_calculator
    Conical_calculator]. unfold Con.SetLimits. cbn [Con.rMax Con.rMin Con.scale
    Con.zOff Con.start Con.stop]. rewrite tan_radians_45.
  f_equal. f_equal; try lra.
  rewrite max_left by lra. lra.
Qed.

Lemma right_angle_depth (w : R) :
  0 <= w <= 5 -> WidthToDepth right_angle_calculator w = Ok (- w).
Proof.
  intros Hw. unfold right_angle_calculator.
  cbn [WidthToDepth Calculator_calculator Conical_calculator].
  unfold Con.WidthToDepth. cbn [Con.scale Con.start Con.stop].
  rewrite max_left by lra. f_equal. lra.
Qed.

Lemma carving_keeps_depths : @keeps_depths carving_collaborators.
Proof. intros e zb ze pe [= <-]. split; reflexivity. Qed.

Lemma carving_selects_points : @selects_points carving_collaborators.
Proof. intros pts sp [= <-] p Hp. exact Hp. Qed.

Lemma carving_edge (e : Edge) :
  (v0 e <= 10)%nat -> (v1 e <= 10)%nat ->
  @_getPartEdge carving_collaborators e right_angle_calculator
  = Ok (FreeCAD.mkVector (X (fst (Vertices e))) (Y (fst (Vertices e)))
                         (IZR (- Z.of_nat (v0 e)) / 10 ^ 4),
        FreeCAD.mkVector (X (snd (Vertices e))) (Y (snd (Vertices e)))
                         (IZR (- Z.of_nat (v1 e)) / 10 ^ 4)).
Proof.
  intros H0 H1.
  assert (Hb : forall n : nat, (n <= 10)%nat -> 0 <= INR n / 10000 <= 5).
  { intros n Hn. apply le_INR in Hn. pose proof (pos_INR n).
    replace (INR 10) with 10 in Hn by (rewrite INR_IZR_INZ; reflexivity).
    lra. }
  assert (Hr : forall n : nat,
             round (- (INR n / 10000)) 4 = IZR (- Z.of_nat n) / 10 ^ 4).
  { intros n. rewrite <- round_multiple. f_equal.
    rewrite opp_IZR, <- INR_IZR_INZ. lra. }
  rewrite (@getPartEdge_rounds carving_collaborators e right_angle_calculator
             (INR (v0 e) / 10000) (INR (v1 e) / 10000) []) by reflexivity.
  rewrite !right_angle_depth by (apply Hb; assumption).
  cbn [bind]. rewrite !Hr. reflexivity.
Qed.

Lemma corner_wire_edges :
  @_getPartEdges carving_collaborators corner_wire right_angle_calculator
  = Ok [(FreeCAD.mkVector 0 0 (IZR 0 / 10 ^ 4),
         FreeCAD.mkVector 1 0 (IZR (-1) / 10 ^ 4));
        (midpoint (FreeCAD.mkVector 1 0 (IZR (-1) / 10 ^ 4))
                  (FreeCAD.mkVector 1 1 (IZR (-2) / 10 ^ 4)),
         FreeCAD.mkVector 1 1 (IZR (-2) / 10 ^ 4))].
Proof.
  unfold _getPartEdges, corner_wire. cbn [mapM].
  rewrite !carving_edge by (cbn; lia). cbn [bind].
  unfold simplify_edges, simplified_points.
  rewrite (@points_cons carving_collaborators). cbn [bind].
  cbn [simplify3dLine carving_collaborators bind map removelast last app
       firstPoint lastPoint fst snd Vertices X Y v0 v1 vIndex].
  change (Z.of_nat (v0 _)) with 0%Z.
  set (p0 := FreeCAD.mkVector 0 0 _). set (p1 := FreeCAD.mkVector 1 0 _).
  set (p2 := FreeCAD.mkVector 1 1 _).
  rewrite (even_points_odd [p0] p1 p2 eq_refl : even_points [p0; p1; p2] = _).
  cbn [bind app pairs mapM LineSegment carving_collaborators fst snd].
  reflexivity.
Qed.

Lemma odd_half_not_quantized : ~ quantized (- (3 / 20000)).
Proof.
  intros [k Hk].
  assert (H : IZR (2 * k) = IZR (-3)) by (rewrite mult_IZR; lra).
  apply eq_IZR in H. lia.
Qed.

(** C10, counterexample.  The wire round the corner with the 90 degree
    bit: the three simplified points get a midpoint, and the second
    segment begins at the depth [-0.00015], which is no multiple of
    [10 ^ -4] and so no rounded result of the calculator. *)
Lemma path_edge_depths_counterexample :
  @keeps_depths carving_collaborators /\
  @selects_points carving_collaborators /\
  (exists c, Con.__init__ 10 0 90 = Ok c /\
             SetLimits (Conical c) 0 (-10) = right_angle_calculator) /\
  exists (out : list (@PartEdge carving_collaborators))
         (pe : @PartEdge carving_collaborators),
    @_getPartEdges carving_collaborators corner_wire right_angle_calculator
    = Ok out /\
    In pe out /\
    FreeCAD.z (@firstPoint carving_collaborators pe) = - (3 / 20000) /\
    ~ quantized (FreeCAD.z (@firstPoint carving_collaborators pe)) /\
    ~ (exists d : R, FreeCAD.z (@firstPoint carving_collaborators pe) = round d 4).
Proof.
  split; [exact carving_keeps_depths|].
  split; [exact carving_selects_points|].
  split; [exact right_angle_calculator_made|].
  eexists. eexists. split; [exact corner_wire_edges|].
  split; [right; left; reflexivity|].
  assert (Hz : FreeCAD.z (@firstPoint carving_collaborators
                 (midpoint (FreeCAD.mkVector 1 0 (IZR (-1) / 10 ^ 4))
                           (FreeCAD.mkVector 1 1 (IZR (-2) / 10 ^ 4)),
                  FreeCAD.mkVector 1 1 (IZR (-2) / 10 ^ 4)))
               = - (3 / 20000)).
  { cbn. lra. }
  split; [exact Hz|]. rewrite Hz. split; [exact odd_half_not_quantized|].
  intros [d Hd]. apply odd_half_not_quantized.
  destruct (round_quantized d 4) as (k & Hk & _).
  exists k. rewrite Hd. exact Hk.
Qed.

(** C10, witness: the wire round the corner. *)
Lemma path_edge_depths_rounded_witness :
  exists (out : list (@PartEdge carving_collaborators))
         (sp pts : list FreeCAD.Vector),
    @_getPartEdges carving_collaborators corner_wire right_angle_calculator
    = Ok out /\
    List.length out = 2%nat /\
    @mapM _ (@PartEdge carving_collaborators)
          (fun pp => @LineSegment carving_collaborators (fst pp) (snd pp))
          (pairs pts) = Ok out /\
    (forall p, In p sp ->
       @resolved_depth carving_collaborators corner_wire right_angle_calculator
                       (FreeCAD.z p)).
Proof.
  destruct (@path_edge_depths_rounded carving_collaborators right_angle_calculator)
    as (_ & _ & _ & H).
  destruct (H carving_keeps_depths carving_selects_points corner_wire _
              corner_wire_edges) as (sp & pts & Hm & _ & Hres & _).
  eexists. exists sp, pts. split; [exact corner_wire_edges|].
  split; [reflexivity|]. split; [exact Hm|exact Hres].
Defined.

(** C9, witness: two edges along the x axis. *)
Lemma simplify_edges_whole_segments_witness :
  exists pts : list FreeCAD.Vector,
    @simplified_points sample_collaborators
      [(origin, FreeCAD.mkVector 1 0 0);
       (FreeCAD.mkVector 1 0 0, FreeCAD.mkVector 2 0 0)] = Ok pts /\
    Nat.even (List.length pts) = true /\
    flat_map unpair (pairs pts) = pts.
Proof.
  destruct (@simplify_edges_whole_segments sample_collaborators
              (origin, FreeCAD.mkVector 1 0 0)
              [(FreeCAD.mkVector 1 0 0, FreeCAD.mkVector 2 0 0)])
    as (sp & pts & _ & Hpts & _ & _ & Heven & _ & _ & _ & Hpairs).
  - intros a b mid. exists mid. reflexivity.
  - exists pts. split; [exact Hpts|]. split; [exact Heven|exact Hpairs].
Defined.

Lemma dist_x_axis (a b : nat) :
  dist (toPoint (sample_vertex a)) (toPoint (sample_vertex b)) = Rabs (INR a - INR b).
Proof.
  unfold dist, FreeCAD.distanceToPoint, toPoint, sample_vertex. cbn.
  replace ((INR a - INR b) * (INR a - INR b) + (0 - 0) * (0 - 0) + (0 - 0) * (0 - 0))
    with (Rsqr (INR a - INR b)) by (unfold Rsqr; ring).
  apply sqrt_Rsqr_abs.
Qed.

(** C3, witness: three wires on the x axis; the end of the second is at
    distance 1 from the origin. *)
Lemma sort_is_greedy_witness :
  exists out : list Wire,
    _sortVoronoiWires [wire_A; wire_B; wire_C] (toPoint (sample_vertex 0)) = Ok out /\
    hd_error out = Some (reversed_wire wire_B).
Proof.
  destruct (sort_is_greedy [wire_A; wire_B; wire_C] (toPoint (sample_vertex 0)))
    as (out & Hs & _ & _ & H3).
  - repeat constructor; discriminate.
  - exists out. split; [exact Hs|].
    apply (H3 wire_A wire_B wire_C eq_refl).
    intros p Hp.
    change (wire_end wire_B) with (toPoint (sample_vertex 1)).
    cbn [In wire_A wire_B wire_C wire_begin wire_end rev app sample_edge
         Vertices fst snd] in Hp.
    rewrite dist_x_axis.
    destruct Hp as [<-|[<-|[<-|[<-|[<-|[]]]]]]; rewrite dist_x_axis;
      cbn [INR]; unfold Rabs; repeat destruct (Rcase_abs _); lra.
Defined.

(** C6.  The code at the failing input: for a v-bit of angle 180 the
    factory raises [NameError] on [translate] before anything is
    printed, and the exception escapes [opExecute], whose call of the
    factory is outside its [try]. *)
Theorem wide_angle_vbit_raises_NameError :
  PathWidthToDepth.WidthToDepthCalculator
    wide_vbit_tool (BitShape wide_vbit_tool) 0 (-10) []
  = (Raise (NameError "translate"), [])
  /\ @opExecute sample_collaborators [sample_model]
       (sample_obj wide_vbit_tool [1%nat]) sample_world
     = (Raise (NameError "translate"), sample_world).
Proof.
  assert (Hs : endswith (BitShape wide_vbit_tool) "v-bit.fcstd" = true)
    by reflexivity.
  assert (Ha : 180 <= CuttingEdgeAngle wide_vbit_tool) by (cbn; lra).
  split.
  - apply factory_vbit_wide_angle; assumption.
  - apply (@opExecute_vbit_wide_angle sample_collaborators sample_model []
             (sample_obj wide_vbit_tool [1%nat]) sample_world); assumption.
Qed.

(** C7, witness: three faces, the second of which fails. *)
Lemma failure_commits_no_output_witness :
  exists w',
    @opExecute sample_collaborators [sample_model]
      (sample_obj ball_tool [1; 0; 2]%nat) sample_world = (Ok tt, w') /\
    commandlist w' = commandlist sample_world /\
    pathlog w' = pathlog sample_world ++ [processing_message].
Proof.
  destruct (@failure_commits_no_output sample_collaborators
              (sample_obj ball_tool [1; 0; 2]%nat) ball_calculator)
    as (_ & _ & H).
  apply (H sample_model [] sample_world [] (ExternalError "construct")).
  - reflexivity.
  - reflexivity.
  - discriminate.
  - reflexivity.
Defined.

Close Scope R_scope.

Lemma branch_primary :
  primary_edges branch_diagram = [sample_edge 0 1 2; sample_edge 1 2 3; sample_edge 2 2 4].
Proof. reflexivity. Qed.

Lemma branch_indices : NoDup (map Index (primary_edges branch_diagram)).
Proof.
  rewrite branch_primary. cbn.
  repeat constructor; cbn; intuition discriminate.
Qed.

(** C8, witness: the branch with three leaves. *)
Lemma wires_are_chains_between_knots_witness :
  exists wires : list Wire,
    _collectVoronoiWires branch_diagram = Ok wires /\
    Forall (fun w : Wire =>
              w <> [] /\ chain w /\
              exists a b : nat,
                wire_first w = Some a /\ wire_last w = Some b /\
                In a (knots_of (primary_edges branch_diagram)) /\
                In b (knots_of (primary_edges branch_diagram))) wires.
Proof.
  destruct (wires_are_chains_between_knots branch_diagram) as (wires & Hc & Hw & _).
  - cbn. repeat constructor; cbn; intuition discriminate.
  - exists wires. split; assumption.
Defined.

(** C1, witness: the branch with three leaves. *)
Lemma wires_partition_primary_edges_witness :
  exists wires : list Wire,
    _collectVoronoiWires branch_diagram = Ok wires /\
    forall e, In e (primary_edges branch_diagram) ->
      count_occ undirected_eq_dec
                (map undirected (List.concat wires)) (undirected e) = 1.
Proof.
  destruct (wires_partition_primary_edges branch_diagram) as (wires & Hc & _ & Hn & _).
  - cbn. repeat constructor; cbn; intuition discriminate.
  - intros e e' He He'. cbn in He, He'.
    destruct He as [<-|[<-|[<-|[]]]], He' as [<-|[<-|[<-|[]]]]; cbn; lia.
  - intros e He.
    apply (at_knot (primary_edges branch_diagram) e 2).
    + exact He.
    + vm_compute. tauto.
    + cbn in He. destruct He as [<-|[<-|[<-|[]]]]; unfold touches, v0, v1; cbn; auto.
  - exists wires. split; assumption.
Defined.

(** C1, counterexample.  The claim fails in both readings of its
    premise: with both half-edges of an edge coloured primary the edge is
    traversed twice, and with one half-edge of each pair coloured primary
    a cycle apart from the knots is left out. *)
Lemma partition_counterexample :
  (twins_primary both_halves_diagram /\
   NoDup (map Index (primary_edges both_halves_diagram)) /\
   exists wires : list Wire,
     _collectVoronoiWires both_halves_diagram = Ok wires /\
     count_occ undirected_eq_dec (map undirected (List.concat wires))
               (undirected both_halves_edge) = 2)
  /\
  (twins_present two_triangles /\
   NoDup (map Index (primary_edges two_triangles)) /\
   one_half_each (primary_edges two_triangles) /\
   exists wires : list Wire,
     _collectVoronoiWires two_triangles = Ok wires /\
     In (sample_edge 3 4 5) (primary_edges two_triangles) /\
     count_occ undirected_eq_dec (map undirected (List.concat wires))
               (undirected (sample_edge 3 4 5)) = 0).
Proof.
  split.
  - split; [|split].
    + intros e He. cbn in He. destruct He as [<-|[<-|[]]]; cbn; auto.
    + cbn. repeat constructor; cbn; intuition discriminate.
    + eexists. split; [vm_compute; reflexivity|]. vm_compute. reflexivity.
  - split; [|split; [|split]].
    + intros e He. cbn in He.
      repeat (destruct He as [<-|He]; [cbn; tauto|]). destruct He.
    + cbn. repeat constructor; cbn; intuition discriminate.
    + intros e e' He He'. cbn in He, He'.
      repeat (destruct He as [<-|He];
              [repeat (destruct He' as [<-|He']; [cbn; lia|]); destruct He'|]).
      destruct He.
    + eexists. split; [vm_compute; reflexivity|].
      split; [cbn; tauto|]. vm_compute. reflexivity.
Qed.

(** ** Examples of the further properties *)

Open Scope R_scope.

(** X1, witness: the 90 degree tool of diameter 10 at its radius. *)
Lemma conical_linear_then_flat_witness :
  exists c, Con.__init__ 10 0 90 = Ok c /\
            Con.WidthToDepth (Con.SetLimits c 0 (-10)) 5
            = Con.stop (Con.SetLimits c 0 (-10)).
Proof.
  destruct (conical_init_ok 10 0 90) as [c Hc].
  { rewrite tan_radians_45. lra. }
  exists c. split; [exact Hc|].
  destruct (conical_linear_then_flat 10 0 90 0 (-10) 5 c) as [_ H];
    [lra|exact Hc|].
  apply H. lra.
Defined.

(** X2, witness: the 90 degree tool of diameter 10 with a tip of
    diameter 2. *)
Lemma conical_tip_shift_witness :
  exists c c0, Con.__init__ 10 2 90 = Ok c /\
               Con.__init__ (10 - 2) 0 90 = Ok c0 /\
               Con.WidthToDepth (Con.SetLimits c 0 (-10)) 3
               = Con.WidthToDepth (Con.SetLimits c0 0 (-10)) (3 - 2 / 2).
Proof.
  destruct (conical_init_ok 10 2 90) as [c Hc].
  { rewrite tan_radians_45. lra. }
  destruct (conical_init_ok (10 - 2) 0 90) as [c0 Hc0].
  { rewrite tan_radians_45. lra. }
  exists c, c0. split; [exact Hc|]. split; [exact Hc0|].
  apply (conical_tip_shift 10 2 90 0 (-10) 3 c c0 Hc Hc0).
Defined.

(** X3, witness: the ball of diameter 10. *)
Lemma spherical_ends_witness :
  0 <= 10 /\
  Sph.WidthToDepth (Sph.SetLimits (Sph.__init__ 10) 0 (-10)) 0
  = Ok (max 0 (Sph.stop (Sph.SetLimits (Sph.__init__ 10) 0 (-10)))).
Proof.
  split; [lra|].
  destruct (spherical_ends 10 0 (-10) 0) as [H _]; [lra|exact H].
Defined.



(** X6, witness: the ball of diameter 10 with the limits 0 and -10,
    then 1 and -3. *)
Lemma factory_limits_rebound_witness :
  PathWidthToDepth.WidthToDepthCalculator ball_tool "ballend.fcstd" 0 (-10) []
  = (Ok ball_calculator, []) /\
  PathWidthToDepth.WidthToDepthCalculator ball_tool "ballend.fcstd" 1 (-3) []
  = (Ok (SetLimits ball_calculator 1 (-3)), []).
Proof.
  split; [reflexivity|].
  destruct (factory_limits_rebound ball_tool "ballend.fcstd" 0 (-10) 1 (-3) []
              ball_calculator) as [H _]; [reflexivity|exact H].
Defined.

(** X15, witness: a wire whose end is nearer to the start than its
    begin. *)
Lemma sort_single_wire_witness :
  wire_B <> [] /\
  (dist origin (wire_end wire_B) <= dist origin (wire_begin wire_B) ->
   _sortVoronoiWires [wire_B] origin = Ok [reversed_wire wire_B]).
Proof.
  assert (H : wire_B <> []) by discriminate.
  split; [exact H|].
  destruct (sort_single_wire wire_B origin H) as (_ & Hr & _). exact Hr.
Defined.

(** X16, witness: three wires on the x axis. *)
Lemma sort_keeps_wires_witness :
  exists out : list Wire,
    _sortVoronoiWires [wire_A; wire_B; wire_C] origin = Ok out /\
    Forall chain out /\
    Permutation (map undirected (List.concat out))
                (map undirected (List.concat [wire_A; wire_B; wire_C])).
Proof.
  destruct (sort_returns [wire_A; wire_B; wire_C] origin) as (out & Hs & _).
  { repeat constructor; discriminate. }
  exists out. split; [exact Hs|].
  destruct (sort_keeps_wires [wire_A; wire_B; wire_C] out origin Hs)
    as (_ & Hc & _ & Hp).
  split; [|exact Hp]. apply Hc.
  repeat constructor; intros [|[|i]] a b Ha Hb; discriminate.
Defined.

Close Scope R_scope.

Lemma two_triangles_indices : NoDup (map Index (primary_edges two_triangles)).
Proof. cbn. repeat constructor; cbn; intuition discriminate. Qed.

Lemma two_triangles_closed (k : nat) : ~ is_branch (primary_edges two_triangles) k.
Proof.
  unfold is_branch, deg, incident.
  destruct k as [|[|[|[|[|[|[|k]]]]]]]; cbn; lia.
Qed.

(** X17, witness: of the two triangles the second is not connected to
    the knot. *)
Lemma wires_hold_connected_edges_witness :
  exists wires : list Wire,
    _collectVoronoiWires two_triangles = Ok wires /\
    (List.length (List.concat wires) <= 6)%nat.
Proof.
  destruct (wires_hold_connected_edges two_triangles two_triangles_indices)
    as (wires & Hc & _ & Hlen & _).
  exists wires. split; [exact Hc|exact Hlen].
Defined.

(** X18, witness: the two triangles give one closed wire. *)
Lemma closed_curves_give_one_wire_witness :
  exists (w : Wire) (k : nat),
    _collectVoronoiWires two_triangles = Ok [w] /\
    wire_first w = Some k /\ wire_last w = Some k.
Proof.
  destruct (closed_curves_give_one_wire two_triangles two_triangles_indices)
    as (w & k & Hc & _ & _ & _ & Hf & Hl & _).
  - discriminate.
  - exact two_triangles_closed.
  - exists w, k. auto.
Defined.

(** X22, witness: a job with one model. *)
Lemma opSetDefaultValues_depths_witness :
  FeatureDepths sample_flags <> 0%Z /\
  opSetDefaultValues sample_flags sample_depths (Some sample_job)
  = mkDepths 20 (-5).
Proof.
  assert (H : FeatureDepths sample_flags <> 0%Z) by discriminate.
  split; [exact H|].
  destruct (opSetDefaultValues_depths sample_flags sample_depths
              (Some sample_job) H) as (_ & Hj & _).
  apply (Hj sample_job eq_refl). cbn. lia.
Defined.

Open Scope R_scope.

(** X24, witness: the 90 degree tool of diameter 10 with a tip of
    diameter 2. *)
Lemma conical_depth_at_tip_witness :
  exists c, Con.__init__ 10 2 90 = Ok c /\
            Con.WidthToDepth (Con.SetLimits c 0 (-10)) (2 / 2) = 0.
Proof.
  destruct (conical_init_ok 10 2 90) as [c Hc].
  { rewrite tan_radians_45. lra. }
  exists c. split; [exact Hc|].
  destruct (conical_depth_at_tip 10 2 90 0 (-10) 0 c) as (H & _);
    [lra|lra|lra|exact Hc|exact H].
Defined.

Close Scope R_scope.

(** ** The sample with wires *)

Lemma branch_wires :
  _collectVoronoiWires branch_diagram
  = Ok [[sample_edge 0 1 2; sample_edge 1 2 3]; [Twin (sample_edge 2 2 4)]].
Proof. vm_compute. reflexivity. Qed.

Lemma carving_region (faces : list nat) (f : nat) :
  @region carving_collaborators (carving_obj faces) right_angle_calculator f
  = Ok (branch_diagram,
        [[sample_edge 0 1 2; sample_edge 1 2 3]; [Twin (sample_edge 2 2 4)]]).
Proof.
  unfold region. cbn [voronoi carving_collaborators bind].
  rewrite branch_wires. reflexivity.
Qed.

Lemma sort_length (wires out : list Wire) (start : FreeCAD.Vector) :
  _sortVoronoiWires wires start = Ok out ->
  List.length out = List.length wires /\ Forall (fun w : Wire => w <> []) out.
Proof.
  intros Hs. destruct (sort_returned wires out start Hs) as (Hne & order & Hp & Hf).
  split.
  - rewrite (Forall2_length Hf). apply Permutation_length, Hp.
  - apply (up_to_reversal_forall (fun w => w <> []) out order); [|exact Hf|].
    + intros w Hw H. apply Hw, reversed_wire_nil, H.
    + eapply Permutation_Forall; [symmetry; exact Hp|exact Hne].
Qed.

Lemma mapM_total {A B : Type} (f : A -> result B) (l : list A) :
  (forall a, In a l -> exists b, f a = Ok b) ->
  exists bs, mapM f l = Ok bs /\ List.length bs = List.length l.
Proof.
  induction l as [|a l IH]; intros H.
  - exists []. split; reflexivity.
  - destruct (H a (or_introl eq_refl)) as [b Hb].
    destruct IH as (bs & Hbs & Hlen); [intros x Hx; apply H; right; exact Hx|].
    exists (b :: bs). cbn [mapM]. rewrite Hb, Hbs. cbn [bind List.length].
    split; [reflexivity|]. rewrite Hlen. reflexivity.
Qed.

Lemma even_points_returns (sp : list FreeCAD.Vector) :
  2 <= List.length sp ->
  exists pts, even_points sp = Ok pts /\ 2 <= List.length pts.
Proof.
  intros Hlen. destruct (Nat.even (List.length sp)) eqn:Hev.
  - exists sp. split; [apply even_points_even, Hev|exact Hlen].
  - assert (Hodd : Nat.odd (List.length sp) = true)
      by (unfold Nat.odd; rewrite Hev; reflexivity).
    destruct sp as [|a [|b sp1]]; [cbn in Hlen; lia|cbn in Hlen; lia|].
    destruct (exists_last (l := b :: sp1)) as (mid & p1 & E); [discriminate|].
    rewrite E in *.
    destruct (odd_split a p1 mid Hodd) as (front & p2 & E').
    change (a :: mid ++ [p1]) with (a :: (mid ++ [p1])) in E'.
    rewrite E' in *.
    exists (front ++ [p2; midpoint p2 p1; p1]).
    split; [apply even_points_odd, Hodd|].
    rewrite length_app. cbn [List.length]. lia.
Qed.

Lemma carving_getPartEdges (vw : Wire) :
  vw <> [] ->
  exists p : list (@PartEdge carving_collaborators),
    @_getPartEdges carving_collaborators vw right_angle_calculator = Ok p /\
    p <> [].
Proof.
  intros Hne. unfold _getPartEdges.
  destruct (mapM_total (fun e => @_getPartEdge carving_collaborators e
                                   right_angle_calculator) vw)
    as (edges & -> & Hlen).
  { intros e _. eexists.
    rewrite (@getPartEdge_rounds carving_collaborators e right_angle_calculator
               (INR (v0 e) / 10000) (INR (v1 e) / 10000) []) by reflexivity.
    reflexivity. }
  cbn [bind]. destruct edges as [|e0 rest].
  { destruct vw; [contradiction|discriminate]. }
  unfold simplify_edges, simplified_points.
  rewrite (@points_cons carving_collaborators). cbn [bind].
  cbn [simplify3dLine carving_collaborators bind].
  set (sp := _ :: _ ++ [_]).
  destruct (even_points_returns sp) as (pts & -> & Hpts).
  { unfold sp. cbn [List.length]. rewrite length_app. cbn. lia. }
  cbn [bind].
  destruct (mapM_total (fun pp => @LineSegment carving_collaborators
                                    (fst pp) (snd pp)) (pairs pts))
    as (out & -> & Hout).
  { intros pp _. eexists. reflexivity. }
  exists out. split; [reflexivity|].
  rewrite pairs_length in Hout.
  destruct pts as [|a [|b pts']]; [cbn in Hpts; lia|cbn in Hpts; lia|].
  destruct out; [discriminate|discriminate].
Qed.

Lemma carving_cutWire (obj : @Obj carving_collaborators)
  (p : list (@PartEdge carving_collaborators)) :
  p <> [] -> exists g, @cutWire carving_collaborators obj p = Ok g.
Proof.
  intros Hne. destruct p as [|e es]; [contradiction|].
  unfold cutWire. rewrite list_getitem_nonneg by lia.
  change (Z.to_nat 0) with 0. cbn [nth_error bind].
  destruct (mapM_total (fun e0 => @cmdsForEdge carving_collaborators e0
                                    (HorizFeed obj) (VertFeed obj)) (e :: es))
    as (cmds & -> & _).
  { intros a _. eexists. reflexivity. }
  cbn [bind]. eexists. reflexivity.
Qed.

Lemma carving_run (faces : list nat) :
  exists w' : @World carving_collaborators,
    @buildPathMedial carving_collaborators (carving_obj faces)
      right_angle_calculator faces carving_world = (Ok tt, w').
Proof.
  destruct (@buildPathMedial carving_collaborators (carving_obj faces)
              right_angle_calculator faces carving_world) as [[[]|e] w'] eqn:E.
  - exists w'. reflexivity.
  - exfalso. unfold buildPathMedial in E.
    assert (HF : exists rs,
               Forall2 (fun f r => @region carving_collaborators (carving_obj faces)
                                     right_angle_calculator f = Ok r) faces rs /\
               Forall (fun w : Wire => w <> []) (List.concat (map snd rs))).
    { clear E. generalize faces at 2. intros fs.
      induction fs as [|f fs (rs & HF & Hall)].
      - exists []. split; constructor.
      - eexists (_ :: rs). split.
        + constructor; [apply carving_region|exact HF].
        + cbn [map snd List.concat app]. repeat constructor; try discriminate.
          exact Hall. }
    destruct HF as (rs & HF & Hall).
    rewrite (@regions_complete carving_collaborators _ _ faces rs HF) in E. cbn [app] in E.
    change (if (_sorting =? "global")%string
            then _sortVoronoiWires (List.concat (map snd rs)) origin
            else Ok (List.concat (map snd rs)))
      with (_sortVoronoiWires (List.concat (map snd rs)) origin) in E.
    destruct (sort_returns (List.concat (map snd rs)) origin Hall)
      as (sorted & Hs & _).
    rewrite Hs in E. destruct (sort_length _ _ _ Hs) as [_ Hne].
    destruct (paths _ _ sorted _ _) as [[pl|e'] w2] eqn:Ep; [discriminate|].
    destruct (@paths_raises carving_collaborators _ _ _ _ _ _ _ Ep) as (vw & Hvw & Hr).
    assert (Hvne : vw <> []) by (eapply Forall_forall in Hne; eassumption).
    destruct (carving_getPartEdges vw Hvne) as (p & Hp & Hpne).
    destruct Hr as [Hr|(p' & Hp' & Hp'ne & Hc)].
    + rewrite Hp in Hr. discriminate.
    + destruct (carving_cutWire (carving_obj faces) p' Hp'ne) as [g Hg].
      rewrite Hg in Hc. discriminate.
Qed.

Lemma carving_regions_wires (obj_faces faces : list nat)
  (rs : list (Diagram * list Wire)) :
  Forall2 (fun f r => @region carving_collaborators (carving_obj obj_faces)
                        right_angle_calculator f = Ok r) faces rs ->
  List.length (List.concat (map snd rs)) = 2 * List.length faces.
Proof.
  induction 1 as [|f r faces rs Hr _ IH]; [reflexivity|].
  rewrite carving_region in Hr. injection Hr as <-.
  cbn [map snd List.concat List.length app]. rewrite IH. lia.
Qed.

Lemma carving_parts (sorted : list Wire)
  (parts : list (list (@PartEdge carving_collaborators))) :
  Forall (fun w : Wire => w <> []) sorted ->
  @mapM _ _ (fun vw => @_getPartEdges carving_collaborators vw
                         right_angle_calculator) sorted = Ok parts ->
  filter nonempty parts = parts /\ List.length parts = List.length sorted.
Proof.
  intros Hne Hm. apply mapM_Forall2 in Hm.
  induction Hm as [|vw p sorted parts Hp _ IH]; [split; reflexivity|].
  inversion Hne as [|? ? Hvw Hne']; subst.
  destruct (IH Hne') as [Hf Hl].
  destruct (carving_getPartEdges vw Hvw) as (p' & Hp' & Hp'ne).
  rewrite Hp in Hp'. injection Hp' as <-.
  destruct p as [|x p]; [contradiction|].
  cbn [filter nonempty List.length]. rewrite Hf, Hl. split; reflexivity.
Qed.

(** X11, witness: two faces with the diagram of the branch, two wires
    each. *)
Lemma buildPathMedial_success_witness :
  exists (w' : @World carving_collaborators) (groups : list (list Command)),
    @buildPathMedial carving_collaborators (carving_obj [1; 2])
      right_angle_calculator [1; 2] carving_world = (Ok tt, w') /\
    commandlist w' = mkCommand "(starting)" [] :: List.concat groups /\
    List.length groups = 4 /\
    map (@face_of carving_collaborators) (VD w') = [1; 2] /\
    List.length (flat_map (fun entry => @part_wires carving_collaborators
                                          (wires_of entry)) (VD w')) = 4 /\
    Forall (fun entry => @part_wires carving_collaborators (wires_of entry) = [])
           (removelast (VD w')).
Proof.
  destruct (carving_run [1; 2]) as [w' Hw'].
  destruct (@buildPathMedial_success carving_collaborators (carving_obj [1; 2])
              right_angle_calculator [1; 2] carving_world w' Hw')
    as (rs & sorted & parts & groups & HF & Hs & Hm & Hg & Hc & Hfaces & Hb
        & Hpw & _).
  exists w', groups.
  pose proof (carving_regions_wires [1; 2] [1; 2] rs HF) as Hlen.
  destruct (sort_length _ _ _ Hs) as [Hsl Hne].
  destruct (carving_parts sorted parts Hne Hm) as [Hfilter Hpl].
  rewrite Hfilter in Hg, Hpw.
  splits; try assumption.
  - rewrite <- (Forall2_length Hg), Hpl, Hsl, Hlen. reflexivity.
  - rewrite Hpw, Hpl, Hsl, Hlen. reflexivity.
Defined.

(** X19, witness: two faces with the diagram of the branch. *)
Lemma faces_give_sorted_chains_witness :
  exists (rs : list (Diagram * list Wire)) (sorted : list Wire),
    Forall2 (fun f r =>
               @region carving_collaborators (carving_obj [1; 2])
                       right_angle_calculator f = Ok r /\
               _collectVoronoiWires (fst r) = Ok (snd r)) [1; 2] rs /\
    _sortVoronoiWires (List.concat (map snd rs)) origin = Ok sorted /\
    List.length sorted = 4 /\
    Forall (fun vw : Wire => vw <> [] /\ chain vw) sorted.
Proof.
  destruct (@faces_give_sorted_chains carving_collaborators
              (carving_obj [1; 2]) right_angle_calculator [1; 2] carving_world)
    as (rs & sorted & HF & Hs & Hch & _).
  - repeat constructor; exists branch_diagram;
      (split; [reflexivity|exact branch_indices]).
  - exists rs, sorted. splits; try assumption.
    destruct (sort_length _ _ _ Hs) as [-> _].
    apply (carving_regions_wires [1; 2] [1; 2] rs).
    eapply Forall2_impl; [|exact HF]. intros f r [H _]. exact H.
Defined.
